(** * photo_watermark2: the watermark pipeline of [main.py]

    A shallow embedding of the geometry resolver, the resize policy, the
    text and image overlay renderers, the compositor, the exporter, the
    batch loop and the session persistence of [src/main.py], with the
    properties the specification states about them.

    Python integers are [Z]; Python floats are IEEE binary64 values of
    the Standard Library's executable specification ([spec_float] with
    precision 53 and maximal exponent 1024); strings are [string]; an
    exception is a [Raise] result. *)

From Stdlib Require Import ZArith String Ascii List Bool Lia.
From Stdlib Require Import Floats.SpecFloat.
From stdpp Require Import base option gmap strings list.

Set Warnings "-register-all,-clear-no-such-hyp".

Local Open Scope string_scope.
Local Open Scope list_scope.
Local Open Scope Z_scope.

(** ** Exceptions and results *)

(** The exception classes the modelled code can meet; all of them derive
    from Python's [Exception]. *)
Inductive exn : Type :=
| ZeroDivisionError
| OverflowError
| ValueError
| TypeError
| AttributeError
| MemoryError
| OSError (reason : string).

Inductive result (A : Type) : Type :=
| Ok (a : A)
| Raise (e : exn).
Arguments Ok {A} a.
Arguments Raise {A} e.

Definition rbind {A B} (r : result A) (k : A -> result B) : result B :=
  match r with
  | Ok a => k a
  | Raise e => Raise e
  end.

Declare Scope result_scope.
Delimit Scope result_scope with result.
Notation "'let?' x ':=' r 'in' k" := (rbind r (fun x => k))
  (at level 10, x pattern, r at level 100, k at level 200) : result_scope.
Local Open Scope result_scope.

Definition is_ok {A} (r : result A) : bool :=
  match r with Ok _ => true | Raise _ => false end.

(** ** Python numbers *)

Definition prec : Z := 53.
Definition emax : Z := 1024.

(** An integer as a (not necessarily normalised) mantissa with exponent 0,
    the form the correctly rounded operations below start from. *)
Definition Z2SF (z : Z) : spec_float :=
  match z with
  | Z0 => S754_zero false
  | Zpos p => S754_finite false p 0
  | Zneg p => S754_finite true p 0
  end.

Definition SF_is_finite (f : spec_float) : bool :=
  match f with
  | S754_zero _ | S754_finite _ _ _ => true
  | _ => false
  end.

(** [float(z)]: round to nearest even; [OverflowError] when [z] is beyond
    the largest finite float. *)
Definition float_of_int (z : Z) : result spec_float :=
  let f := binary_normalize prec emax z 0 false in
  if SF_is_finite f then Ok f else Raise OverflowError.

(** [a / b] on two integers: the correctly rounded quotient. *)
Definition int_truediv (a b : Z) : result spec_float :=
  if b =? 0 then Raise ZeroDivisionError
  else
    let f := SFdiv prec emax (Z2SF a) (Z2SF b) in
    if SF_is_finite f then Ok f else Raise OverflowError.

(** [x / y] on two floats. *)
Definition float_truediv (x y : spec_float) : result spec_float :=
  match y with
  | S754_zero _ => Raise ZeroDivisionError
  | _ => Ok (SFdiv prec emax x y)
  end.

(** [z * x] with an integer and a float: the integer is converted first. *)
Definition int_mul_float (z : Z) (x : spec_float) : result spec_float :=
  let? fz := float_of_int z in Ok (SFmul prec emax fz x).

(** [int(x)]: truncation toward zero. *)
Definition int_of_float (x : spec_float) : result Z :=
  match x with
  | S754_zero _ => Ok 0
  | S754_finite s m e =>
      let a := match e with
               | Zneg k => Z.shiftr (Zpos m) (Zpos k)
               | _ => Z.shiftl (Zpos m) e
               end in
      Ok (if s then - a else a)
  | S754_infinity _ => Raise OverflowError
  | S754_nan => Raise ValueError
  end.

(** The float literal [100.0]. *)
Definition f100 : spec_float := Eval vm_compute in binary_normalize prec emax 100 0 false.

(** The float literal [1e-3]: the binary64 value nearest to one thousandth. *)
Definition f1e_3 : spec_float := S754_finite false 4611686018427388 (-62).

(** ** The geometry resolver *)

(** [dict.get(key, default)] on a dictionary written as a literal. *)
Definition dict_get {V : Type} (d : list (string * V)) (k : string) (dflt : V) : V :=
  match find (fun kv => String.eqb (fst kv) k) d with
  | Some kv => snd kv
  | None => dflt
  end.

Definition calc_anchor_pos (base_w base_h mark_w mark_h : Z) (anchor : string)
    (offx offy : Z) : Z * Z :=
  let mapping :=
    [ ("tl", (0, 0));
      ("tm", (base_w / 2 - mark_w / 2, 0));
      ("tr", (base_w - mark_w, 0));
      ("ml", (0, base_h / 2 - mark_h / 2));
      ("center", (base_w / 2 - mark_w / 2, base_h / 2 - mark_h / 2));
      ("mr", (base_w - mark_w, base_h / 2 - mark_h / 2));
      ("bl", (0, base_h - mark_h));
      ("bm", (base_w / 2 - mark_w / 2, base_h - mark_h));
      ("br", (base_w - mark_w, base_h - mark_h)) ] in
  let '(x, y) := dict_get mapping anchor (0, 0) in
  (x + offx, y + offy).

(** The 3x3 grid the nine tags name. *)
Inductive zone : Type := Lo | Mid | Hi.

Definition anchor_zone (anchor : string) : option (zone * zone) :=
  if String.eqb anchor "tl" then Some (Lo, Lo)
  else if String.eqb anchor "tm" then Some (Lo, Mid)
  else if String.eqb anchor "tr" then Some (Lo, Hi)
  else if String.eqb anchor "ml" then Some (Mid, Lo)
  else if String.eqb anchor "center" then Some (Mid, Mid)
  else if String.eqb anchor "mr" then Some (Mid, Hi)
  else if String.eqb anchor "bl" then Some (Hi, Lo)
  else if String.eqb anchor "bm" then Some (Hi, Mid)
  else if String.eqb anchor "br" then Some (Hi, Hi)
  else None.

(** The base coordinate along one axis as the specification words it:
    [0], [(canvas - overlay) / 2] with floor division, or
    [canvas - overlay]. *)
Definition claimed_base (canvas overlay : Z) (z : zone) : Z :=
  match z with
  | Lo => 0
  | Mid => (canvas - overlay) / 2
  | Hi => canvas - overlay
  end.

Definition claimed_anchor_pos (canvasW canvasH overlayW overlayH : Z)
    (anchor : string) (offx offy : Z) : Z * Z :=
  match anchor_zone anchor with
  | Some (row, col) =>
      (claimed_base canvasW overlayW col + offx, claimed_base canvasH overlayH row + offy)
  | None => (offx, offy)
  end.

(** The base coordinate the code computes: the middle zone halves the two
    lengths separately. *)
Definition axis_base (canvas overlay : Z) (z : zone) : Z :=
  match z with
  | Lo => 0
  | Mid => canvas / 2 - overlay / 2
  | Hi => canvas - overlay
  end.

(** ** Paths: Python's [os.path] on a POSIX system *)

Definition is_sep (c : ascii) : bool := Ascii.eqb c "/".
Definition is_dot (c : ascii) : bool := Ascii.eqb c ".".

Fixpoint string_forallb (f : ascii -> bool) (s : string) : bool :=
  match s with
  | EmptyString => true
  | String c r => f c && string_forallb f r
  end.

Definition startswith_sep (p : string) : bool :=
  match p with
  | String c _ => is_sep c
  | EmptyString => false
  end.

Fixpoint endswith_sep (p : string) : bool :=
  match p with
  | EmptyString => false
  | String c EmptyString => is_sep c
  | String _ r => endswith_sep r
  end.

(** [(p[:i], p[i:])] for [i = p.rfind('/') + 1]: the head keeps its last
    separator, the tail has none. *)
Fixpoint cut_last_sep (p : string) : string * string :=
  match p with
  | EmptyString => (EmptyString, EmptyString)
  | String c r =>
      let '(h, t) := cut_last_sep r in
      match h with
      | EmptyString =>
          if is_sep c then (String c EmptyString, r) else (EmptyString, String c r)
      | _ => (String c h, t)
      end
  end.

(** [s.rstrip('/')]. *)
Fixpoint rstrip_sep (s : string) : string :=
  match s with
  | EmptyString => EmptyString
  | String c r =>
      match rstrip_sep r with
      | EmptyString => if is_sep c then EmptyString else String c EmptyString
      | r' => String c r'
      end
  end.

Definition basename (p : string) : string := snd (cut_last_sep p).

Definition dirname (p : string) : string :=
  let head := fst (cut_last_sep p) in
  if negb (String.eqb head "") && negb (string_forallb is_sep head)
  then rstrip_sep head else head.

(** [(s[:j], s[j:])] for [j = s.rfind('.')], when [s] has a dot. *)
Fixpoint cut_last_dot (s : string) : option (string * string) :=
  match s with
  | EmptyString => None
  | String c r =>
      match cut_last_dot r with
      | Some (pre, ext) => Some (String c pre, ext)
      | None => if is_dot c then Some (EmptyString, s) else None
      end
  end.

(** [os.path.splitext]: the extension starts at the last dot of the last
    component, unless only dots precede it there. *)
Definition splitext (p : string) : string * string :=
  let '(head, tail) := cut_last_sep p in
  match cut_last_dot tail with
  | Some (pre, ext) =>
      if string_forallb is_dot pre then (p, EmptyString) else (head +:+ pre, ext)
  | None => (p, EmptyString)
  end.

(** [os.path.join(a, b)]. *)
Definition path_join (a b : string) : string :=
  if startswith_sep b then b
  else if String.eqb a "" || endswith_sep a then a +:+ b
  else a +:+ "/" +:+ b.

(** [s.split('/')]. *)
Fixpoint split_sep (s : string) : list string :=
  match s with
  | EmptyString => [EmptyString]
  | String c r =>
      if is_sep c then EmptyString :: split_sep r
      else match split_sep r with
           | x :: xs => String c x :: xs
           | [] => [String c EmptyString]
           end
  end.

(** ['/'.join(comps)]. *)
Fixpoint join_sep (comps : list string) : string :=
  match comps with
  | [] => EmptyString
  | [x] => x
  | x :: xs => x +:+ "/" +:+ join_sep xs
  end.

(** One round of the loop of [os.path.normpath]; [stack] is [new_comps]
    with its last element first. *)
Definition norm_step (rooted : bool) (stack : list string) (comp : string) : list string :=
  if String.eqb comp "" || String.eqb comp "." then stack
  else if negb (String.eqb comp "..")
          || (negb rooted && match stack with [] => true | _ => false end)
          || match stack with top :: _ => String.eqb top ".." | [] => false end
  then comp :: stack
  else match stack with
       | [] => []
       | _ :: rest => rest
       end.

Definition normpath (path : string) : string :=
  if String.eqb path "" then "."
  else
    let initial_slashes :=
      match path with
      | String a (String b (String c _)) =>
          if is_sep a then if is_sep b && negb (is_sep c) then "//" else "/" else ""
      | String a (String b EmptyString) =>
          if is_sep a then if is_sep b then "//" else "/" else ""
      | String a EmptyString => if is_sep a then "/" else ""
      | EmptyString => ""
      end in
    let rooted := negb (String.eqb initial_slashes "") in
    let comps := rev (fold_left (norm_step rooted) (split_sep path) []) in
    let path' := initial_slashes +:+ join_sep comps in
    if String.eqb path' "" then "." else path'.

(** ** The data model: the dataclasses of [main.py] *)

Module ExportRule.
Record t : Type := mk {
  mode : string;
  text : string;
  out_format : string;
  jpeg_quality : Z;
  resize_mode : string;
  resize_value : Z }.
Definition default : t :=
  {| mode := "keep"; text := ""; out_format := "PNG"; jpeg_quality := 90;
     resize_mode := "none"; resize_value := 100 |}.
End ExportRule.

Module TextStyle.
Record t : Type := mk {
  text : string;
  opacity : Z;
  font_path : option string;
  font_size : Z;
  stroke : bool;
  stroke_width : Z;
  stroke_color : Z * Z * Z;
  fill_color : Z * Z * Z;
  shadow : bool;
  shadow_offset : Z * Z }.
Definition default : t :=
  {| text := "Sample Watermark"; opacity := 40; font_path := None; font_size := 36;
     stroke := true; stroke_width := 2; stroke_color := (0, 0, 0);
     fill_color := (255, 255, 255); shadow := true; shadow_offset := (2, 2) |}.
End TextStyle.

Module ImageMark.
Record t : Type := mk {
  path : option string;
  opacity : Z;
  scale_percent : Z }.
Definition default : t := {| path := None; opacity := 40; scale_percent := 30 |}.
End ImageMark.

Module Layout.
Record t : Type := mk {
  anchor : string;
  offset_x : Z;
  offset_y : Z;
  rotation_deg : spec_float;
  allow_drag : bool }.
Definition default : t :=
  {| anchor := "center"; offset_x := 0; offset_y := 0;
     rotation_deg := S754_zero false; allow_drag := true |}.
End Layout.

Module WatermarkConfig.
Record t : Type := mk {
  use_text : bool;
  text : TextStyle.t;
  use_image : bool;
  image : ImageMark.t;
  layout : Layout.t;
  export : ExportRule.t }.
Definition default : t :=
  {| use_text := true; text := TextStyle.default; use_image := false;
     image := ImageMark.default; layout := Layout.default;
     export := ExportRule.default |}.
End WatermarkConfig.

(** ** Pillow images *)

(** A font object: a TrueType file at a size, or the built-in bitmap font
    of [ImageFont.load_default()]. *)
Record Font : Type := { font_file : option string; font_px : Z }.

Definition rgba : Type := Z * Z * Z * Z.

(** The picture an image object holds: either pixel values that are known
    (one list of band values per pixel, row by row), or the result of a
    Pillow operation applied to earlier pictures, kept as the operation
    and its arguments. *)
Inductive raster : Type :=
| Pixels (px : list (list Z))
| Blank (color : rgba)
| Converted (from to : string) (r : raster)
| Resized (w h : Z) (r : raster)
| TextDrawn (r : raster) (xy : Z * Z) (text : string) (font : Font)
    (fill : rgba) (stroke_width : Z) (stroke_fill : option rgba)
| Blurred (radius : Z) (r : raster)
| Rotated (angle : spec_float) (r : raster)
| AlphaScaled (factor : spec_float) (r : raster)
| Pasted (dst src : raster) (dest : Z * Z)
| Composited (dst src : raster).

Module Image.
Record t : Type := mk { mode : string; size : Z * Z; data : raster }.
Definition width (im : t) : Z := fst (size im).
Definition height (im : t) : Z := snd (size im).

(** [Image.new(mode, size, color)]. *)
Definition new (m : string) (sz : Z * Z) (color : rgba) : t :=
  {| mode := m; size := sz; data := Blank color |}.

(** [im.convert(mode)]: a copy when the mode is already the one asked. *)
Definition convert (im : t) (m : string) : t :=
  if String.eqb (mode im) m then im
  else {| mode := m; size := size im; data := Converted (mode im) m (data im) |}.

(** The picture [im.resize((w, h), Image.LANCZOS)] returns: a copy when
    the size is already the one asked. *)
Definition resize (im : t) (sz : Z * Z) : t :=
  if (fst sz =? width im) && (snd sz =? height im) then im
  else {| mode := mode im; size := sz; data := Resized (fst sz) (snd sz) (data im) |}.

(** [im.filter(ImageFilter.GaussianBlur(radius))]: a new image object. *)
Definition gaussian_blur (im : t) (radius : Z) : t :=
  {| mode := mode im; size := size im; data := Blurred radius (data im) |}.

(** [ImageDraw.Draw(im).text(xy, text, font, fill, stroke_width, stroke_fill)]:
    the image object after the call. *)
Definition draw_text (im : t) (xy : Z * Z) (text : string) (font : Font)
    (fill : rgba) (stroke_width : Z) (stroke_fill : option rgba) : t :=
  {| mode := mode im; size := size im;
     data := TextDrawn (data im) xy text font fill stroke_width stroke_fill |}.

(** [dst.alpha_composite(src, dest)]: the destination object after the
    call; its mode and size do not change. *)
Definition paste_composite (dst src : t) (dest : Z * Z) : t :=
  {| mode := mode dst; size := size dst; data := Pasted (data dst) (data src) dest |}.

(** [Image.alpha_composite(im1, im2)]: both images are RGBA and of one
    size, else [ValueError]. *)
Definition alpha_composite (im1 im2 : t) : result t :=
  if String.eqb (mode im1) "RGBA" && String.eqb (mode im2) "RGBA"
     && (width im1 =? width im2) && (height im1 =? height im2)
  then Ok {| mode := "RGBA"; size := size im1; data := Composited (data im1) (data im2) |}
  else Raise ValueError.

(** The alpha band multiplied through [alpha.point(lambda a: int(a * factor))]
    and put back with [putalpha]. *)
Definition scale_alpha (im : t) (factor : spec_float) : t :=
  {| mode := mode im; size := size im; data := AlphaScaled factor (data im) |}.
End Image.


(** Why [im.resize(size, resample)] does not return: a side that is not
    positive ([ValueError]), a side outside the range of a C int
    ([OverflowError]), or a picture of that size that cannot be allocated
    ([MemoryError]). *)
Inductive resize_failure : Type :=
| NonPositiveSide
| SideOutOfRange
| OutOfMemory.

Definition resize_exn (f : resize_failure) : exn :=
  match f with
  | NonPositiveSide => ValueError
  | SideOutOfRange => OverflowError
  | OutOfMemory => MemoryError
  end.

(** What the installed imaging library fixes and the program only reads:
    the bounding box [ImageDraw.textbbox((0,0), text, font, stroke_width)],
    the size of [im.rotate(angle, expand=True)], and whether
    [im.resize(size, resample)] returns for a picture and a target size
    ([None]) or fails, and how. *)
Record Pillow : Type := {
  textbbox : Font -> string -> Z -> Z * Z * Z * Z;
  rotated_size : spec_float -> Z * Z -> Z * Z;
  resize_fails : Image.t -> Z * Z -> option resize_failure }.

(** The call [im.resize((w, h), Image.LANCZOS)]: the resized picture when
    the library returns, its exception when it does not. *)
Definition Image_resize (lib : Pillow) (im : Image.t) (sz : Z * Z) : result Image.t :=
  match resize_fails lib im sz with
  | Some f => Raise (resize_exn f)
  | None => Ok (Image.resize im sz)
  end.

(** The modes Pillow's JPEG and PNG encoders accept; any other mode makes
    [save] fail with [OSError: cannot write mode ... as ...]. *)
Definition jpeg_modes : list string := ["1"; "L"; "RGB"; "RGBX"; "CMYK"; "YCbCr"].
Definition png_modes : list string :=
  ["1"; "L"; "LA"; "I"; "I;16"; "I;16B"; "P"; "RGB"; "RGBA"].

Definition mem_string (s : string) (l : list string) : bool :=
  existsb (String.eqb s) l.

(** ** Python values and JSON documents *)

(** The run-time values the persistence code handles by reflection; a
    dataclass instance is its class name with its fields in declaration
    order. *)
Inductive value : Type :=
| VNone
| VBool (b : bool)
| VInt (z : Z)
| VFloat (f : spec_float)
| VStr (s : string)
| VTuple (l : list value)
| VList (l : list value)
| VDict (d : list (string * value))
| VObj (cls : string) (fields : list (string * value)).

Inductive json : Type :=
| JNull
| JBool (b : bool)
| JInt (z : Z)
| JFloat (f : spec_float)
| JString (s : string)
| JArray (l : list json)
| JObject (d : list (string * json)).

(** ** The world: working directory and file system *)

Inductive file : Type :=
| Picture (format : string) (im : Image.t) (options : list (string * Z))
| FontFile
| JsonFile (doc : json)
| Bytes (content : string).

Inductive node : Type :=
| Dir
| File (f : file).

(** Files and directories are keyed by absolute normalised path; the root
    directory always exists. [disk_full] says that the device takes no
    new data: a call that creates a directory or a file, or writes into a
    file it has opened, fails with [ENOSPC]. *)
Record World : Type := {
  cwd : string;
  fs : gmap string node;
  disk_full : bool }.

Definition abspath (w : World) (p : string) : string :=
  normpath (if startswith_sep p then p else path_join (cwd w) p).

Definition lookup_node (w : World) (p : string) : option node :=
  let q := abspath w p in
  if string_forallb is_sep q then Some Dir else fs w !! q.

Definition path_exists (w : World) (p : string) : bool :=
  match lookup_node w p with Some _ => true | None => false end.

Definition with_node (w : World) (q : string) (n : node) : World :=
  {| cwd := cwd w; fs := <[q := n]> (fs w); disk_full := disk_full w |}.

Definition without_node (w : World) (q : string) : World :=
  {| cwd := cwd w; fs := delete q (fs w); disk_full := disk_full w |}.

(** Computations that read and write the world and may raise. *)
Definition M (A : Type) : Type := World -> result A * World.

Definition ret {A} (a : A) : M A := fun w => (Ok a, w).
Definition raise {A} (e : exn) : M A := fun w => (Raise e, w).
Definition lift {A} (r : result A) : M A := fun w => (r, w).
Definition bind {A B} (m : M A) (k : A -> M B) : M B :=
  fun w => match m w with
           | (Ok a, w') => k a w'
           | (Raise e, w') => (Raise e, w')
           end.
(** [try: m except Exception: h]. *)
Definition try_except {A} (m : M A) (h : exn -> M A) : M A :=
  fun w => match m w with
           | (Ok a, w') => (Ok a, w')
           | (Raise e, w') => h e w'
           end.
Definition read {A} (f : World -> A) : M A := fun w => (Ok (f w), w).

Declare Scope io_scope.
Delimit Scope io_scope with io.
Notation "x <- m ;; k" := (bind m (fun x => k))
  (at level 20, m at level 99, k at level 200, only parsing) : io_scope.
Notation "m ;;; k" := (bind m (fun _ => k))
  (at level 100, k at level 200, right associativity, only parsing) : io_scope.
Local Open Scope io_scope.

(** The chain of directories from just below the root down to [q]. *)
Fixpoint ancestors_upto (fuel : nat) (q : string) : list string :=
  match fuel with
  | O => []
  | S fuel' =>
      let d := dirname q in
      if String.eqb d q then [] else ancestors_upto fuel' d ++ [q]
  end.

Definition ancestors (q : string) : list string := ancestors_upto (String.length q) q.

(** [os.mkdir] where the directory may exist already: an existing
    directory is kept, a file in its place or a full disk is an error. *)
Definition mkdir_step (q : string) : M unit :=
  fun w =>
    match fs w !! q with
    | Some Dir => (Ok tt, w)
    | Some (File _) => (Raise (OSError "path component is a file"), w)
    | None =>
        if disk_full w then (Raise (OSError "no space left on device"), w)
        else (Ok tt, with_node w q Dir)
    end.

Fixpoint mkdir_chain (qs : list string) : M unit :=
  match qs with
  | [] => ret tt
  | q :: rest => mkdir_step q ;;; mkdir_chain rest
  end.

(** [os.makedirs(path, exist_ok=True)]. *)
Definition makedirs (p : string) : M unit :=
  fun w => mkdir_chain (ancestors (abspath w p)) w.

(** [Image.open(path)]. *)
Definition Image_open (p : string) : M Image.t :=
  fun w =>
    match lookup_node w p with
    | Some (File (Picture _ im _)) => (Ok im, w)
    | Some (File _) => (Raise (OSError "cannot identify image file"), w)
    | Some Dir => (Raise (OSError "is a directory"), w)
    | None => (Raise (OSError "no such file or directory"), w)
    end.

(** [im.save(path, format, options)]: the file is opened for writing
    first, then the encoder runs; when the encoder refuses the mode or the
    disk is full, a file that this call created is removed again, and one
    that existed is left empty. *)
Definition Image_save (im : Image.t) (p : string) (format : string)
    (options : list (string * Z)) : M unit :=
  fun w =>
    let q := abspath w p in
    match lookup_node w (dirname q), lookup_node w q with
    | Some Dir, Some Dir => (Raise (OSError "is a directory"), w)
    | Some Dir, existing =>
        let failed := match existing with
                      | Some _ => with_node w q (File (Bytes ""))
                      | None => w
                      end in
        if disk_full w then (Raise (OSError "no space left on device"), failed)
        else if mem_string (Image.mode im)
                  (if String.eqb format "JPEG" then jpeg_modes else png_modes)
        then (Ok tt, with_node w q (File (Picture format im options)))
        else (Raise (OSError "cannot write mode"), failed)
    | _, _ => (Raise (OSError "no such file or directory"), w)
    end.

(** [ImageFont.truetype(path, size)]. *)
Definition truetype (p : string) (size : Z) : M Font :=
  fun w =>
    match lookup_node w p with
    | Some (File FontFile) => (Ok {| font_file := Some (abspath w p); font_px := size |}, w)
    | _ => (Raise (OSError "cannot open resource"), w)
    end.

(** [ImageFont.load_default()]. *)
Definition load_default : Font := {| font_file := None; font_px := 10 |}.

(** ** The resize policy *)

Definition apply_resize (lib : Pillow) (img : Image.t) (rule : ExportRule.t)
    : result Image.t :=
  if String.eqb (ExportRule.resize_mode rule) "none" then Ok img
  else
    let '(w, h) := Image.size img in
    if String.eqb (ExportRule.resize_mode rule) "by_width" then
      let new_w := Z.max 1 (ExportRule.resize_value rule) in
      let? q := int_truediv (h * new_w) w in
      let? t := int_of_float q in
      let new_h := Z.max 1 t in
      Image_resize lib img (new_w, new_h)
    else if String.eqb (ExportRule.resize_mode rule) "by_height" then
      let new_h := Z.max 1 (ExportRule.resize_value rule) in
      let? q := int_truediv (w * new_h) h in
      let? t := int_of_float q in
      let new_w := Z.max 1 t in
      Image_resize lib img (new_w, new_h)
    else if String.eqb (ExportRule.resize_mode rule) "by_percent" then
      let? fv := float_of_int (Z.max 1 (ExportRule.resize_value rule)) in
      let? scale := float_truediv fv f100 in
      let? fw := int_mul_float w scale in
      let? tw := int_of_float fw in
      let new_w := Z.max 1 tw in
      let? fh := int_mul_float h scale in
      let? th := int_of_float fh in
      let new_h := Z.max 1 th in
      Image_resize lib img (new_w, new_h)
    else Ok img.

(** ** The text overlay renderer *)

(** [int(255*cfg.opacity/100)], the alpha of every colour the renderer
    draws with. *)
Definition text_alpha (opacity : Z) : result Z :=
  let? q := int_truediv (255 * opacity) 100 in
  int_of_float q.

(** Image objects by reference: [ImageDraw.Draw(im)] keeps drawing into
    the object it was made for, whatever the variable [text_layer] names
    later. *)
Definition heap : Type := list Image.t.

Definition new_object (h : heap) (im : Image.t) : heap * nat := (h ++ [im], List.length h).

Definition object (h : heap) (r : nat) : Image.t :=
  nth r h (Image.new "RGBA" (0, 0) (0, 0, 0, 0)).

Definition td_text (h : heap) (td : nat) (xy : Z * Z) (text : string) (font : Font)
    (fill : rgba) (stroke_width : Z) (stroke_fill : option rgba) : heap :=
  <[td := Image.draw_text (object h td) xy text font fill stroke_width stroke_fill]> h.

Definition with_alpha (c : Z * Z * Z) (a : Z) : rgba :=
  let '(r, g, b) := c in (r, g, b, a).

(** The font of a text style: the configured file, else [font.ttf] in the
    working directory, else a system font; the built-in font when loading
    fails. *)
Definition load_font (cfg : TextStyle.t) : M Font :=
  try_except
    (configured <- read (fun w =>
                     match TextStyle.font_path cfg with
                     | Some p => negb (String.eqb p "") && path_exists w p
                     | None => false
                     end) ;;
     if configured : bool
     then truetype (default "" (TextStyle.font_path cfg)) (TextStyle.font_size cfg)
     else
       project_font <- read (fun w => path_join (cwd w) "font.ttf") ;;
       bundled <- read (fun w => path_exists w project_font) ;;
       if bundled : bool
       then truetype project_font (TextStyle.font_size cfg)
       else truetype "/System/Library/Fonts/Supplemental/Arial Unicode.ttf"
              (TextStyle.font_size cfg))
    (fun _ => ret load_default).

Section Pipeline.
Variable lib : Pillow.

(** [im.rotate(angle, expand=True, resample=Image.BICUBIC)]: a new image
    object. *)
Definition rotate_expand (im : Image.t) (angle : spec_float) : Image.t :=
  {| Image.mode := Image.mode im;
     Image.size := rotated_size lib angle (Image.size im);
     Image.data := Rotated angle (Image.data im) |}.

(** Lines 145 to 169 of [draw_text_watermark]: the transient text layer.
    The result is the heap of image objects with the reference
    [text_layer] ends up naming; the drawing handle [td] is reference 0
    throughout. *)
Definition draw_text_layer (font : Font) (cfg : TextStyle.t) (layout : Layout.t)
    : result (heap * nat) :=
  let text := TextStyle.text cfg in
  let '(x0, y0, x1, y1) :=
    textbbox lib font text
      (if TextStyle.stroke cfg then TextStyle.stroke_width cfg else 0) in
  let tw := x1 - x0 in
  let th := y1 - y0 in
  let '(h, text_layer) := new_object [] (Image.new "RGBA" (tw + 20, th + 20) (0, 0, 0, 0)) in
  let td := text_layer in
  let? (h, text_layer) :=
    if TextStyle.shadow cfg then
      let '(sx, sy) := TextStyle.shadow_offset cfg in
      let shadow_pos := (10 + sx, 10 + sy) in
      let? a := text_alpha (TextStyle.opacity cfg) in
      let h := td_text h td shadow_pos text font (0, 0, 0, a) 0 None in
      Ok (new_object h (Image.gaussian_blur (object h text_layer) 1))
    else Ok (h, text_layer) in
  let? h :=
    if TextStyle.stroke cfg then
      let? a := text_alpha (TextStyle.opacity cfg) in
      Ok (td_text h td (10, 10) text font
            (with_alpha (TextStyle.fill_color cfg) a)
            (TextStyle.stroke_width cfg)
            (Some (with_alpha (TextStyle.stroke_color cfg) a)))
    else
      let? a := text_alpha (TextStyle.opacity cfg) in
      Ok (td_text h td (10, 10) text font
            (with_alpha (TextStyle.fill_color cfg) a) 0 None) in
  if SFltb f1e_3 (SFabs (Layout.rotation_deg layout))
  then Ok (new_object h (rotate_expand (object h text_layer) (Layout.rotation_deg layout)))
  else Ok (h, text_layer).

Definition draw_text_watermark (base : Image.t) (cfg : TextStyle.t) (layout : Layout.t)
    : M Image.t :=
  let img := Image.convert base "RGBA" in
  let overlay := Image.new "RGBA" (Image.size img) (0, 0, 0, 0) in
  font <- load_font cfg ;;
  drawn <- lift (draw_text_layer font cfg layout) ;;
  let '(h, text_layer) := drawn in
  let layer := object h text_layer in
  let '(bx, by_) :=
    calc_anchor_pos (Image.width img) (Image.height img)
      (Image.width layer) (Image.height layer)
      (Layout.anchor layout) (Layout.offset_x layout) (Layout.offset_y layout) in
  let overlay := Image.paste_composite overlay layer (bx, by_) in
  lift (Image.alpha_composite img overlay).

(** ** The image overlay renderer *)

Definition draw_image_watermark (base : Image.t) (mark : ImageMark.t) (layout : Layout.t)
    : M Image.t :=
  let img := Image.convert base "RGBA" in
  let overlay := Image.new "RGBA" (Image.size img) (0, 0, 0, 0) in
  match ImageMark.path mark with
  | None => ret img
  | Some p =>
      usable <- read (fun w => negb (String.eqb p "") && path_exists w p) ;;
      if negb usable then ret img
      else
        wm <- Image_open p ;;
        let wm := Image.convert wm "RGBA" in
        percent <- lift (float_of_int (Z.max 1 (ImageMark.scale_percent mark))) ;;
        scale <- lift (float_truediv percent f100) ;;
        fw <- lift (int_mul_float (Image.width img) scale) ;;
        tw <- lift (int_of_float fw) ;;
        let target_w := Z.max 1 tw in
        ratio <- lift (int_truediv target_w (Image.width wm)) ;;
        fh <- lift (int_mul_float (Image.height wm) ratio) ;;
        th <- lift (int_of_float fh) ;;
        let target_h := Z.max 1 th in
        wm <- lift (Image_resize lib wm (target_w, target_h)) ;;
        factor <- lift (int_truediv (ImageMark.opacity mark) 100) ;;
        let wm := Image.scale_alpha wm factor in
        let '(bx, by_) :=
          calc_anchor_pos (Image.width img) (Image.height img)
            (Image.width wm) (Image.height wm)
            (Layout.anchor layout) (Layout.offset_x layout) (Layout.offset_y layout) in
        let overlay := Image.paste_composite overlay wm (bx, by_) in
        lift (Image.alpha_composite img overlay)
  end.

(** ** The compositor *)

Definition apply_watermark_once (img_path : string) (cfg : WatermarkConfig.t) : M Image.t :=
  base <- Image_open img_path ;;
  let out := base in
  out <- (if WatermarkConfig.use_text cfg
          then draw_text_watermark out (WatermarkConfig.text cfg) (WatermarkConfig.layout cfg)
          else ret out) ;;
  out <- (if WatermarkConfig.use_image cfg
          then draw_image_watermark out (WatermarkConfig.image cfg) (WatermarkConfig.layout cfg)
          else ret out) ;;
  ret out.

(** ** The exporter *)

Definition export_image (img : Image.t) (src_path export_dir : string)
    (rule : ExportRule.t) : M string :=
  makedirs export_dir ;;;
  let base_name := fst (splitext (basename src_path)) in
  let name :=
    if String.eqb (ExportRule.mode rule) "keep" then base_name
    else if String.eqb (ExportRule.mode rule) "prefix" then ExportRule.text rule +:+ base_name
    else if String.eqb (ExportRule.mode rule) "suffix" then base_name +:+ ExportRule.text rule
    else base_name in
  let out_path :=
    path_join export_dir
      (name +:+ "." +:+
       (if String.eqb (ExportRule.out_format rule) "JPEG" then "jpg" else "png")) in
  final_img <- lift (apply_resize lib img rule) ;;
  (if String.eqb (ExportRule.out_format rule) "JPEG" then
     let final_img :=
       if mem_string (Image.mode final_img) ["RGBA"; "LA"]
       then Image.convert final_img "RGB" else final_img in
     Image_save final_img out_path "JPEG"
       [("quality", ExportRule.jpeg_quality rule); ("subsampling", 0)]
   else Image_save final_img out_path "PNG" []) ;;;
  ret out_path.

(** ** Batch export *)

(** What the batch loop shows or prints, in order. *)
Inductive event : Type :=
| InformationNoImages
| WarningSourceDir (name src_dir : string)
| PrintExportFailed (p : string) (e : exn)
| ProgressSetValue (v : Z)
| InformationDone (n : Z).

(** [int(i/n*100)]. *)
Definition progress_percent (i n : Z) : result Z :=
  let? q := int_truediv i n in
  int_of_float (SFmul prec emax q f100).

(** The body of the loop of [on_export_all] from item [i] on: the events,
    the exception that left the loop if one did, and the world. *)
Fixpoint export_items (export_dir : string) (cfg : WatermarkConfig.t) (n i : Z)
    (paths : list string) (w : World) : list event * result unit * World :=
  match paths with
  | [] => ([], Ok tt, w)
  | p :: rest =>
      let src_dir := dirname p in
      if String.eqb (abspath w src_dir) (abspath w export_dir) then
        let '(evs, r, w') := export_items export_dir cfg n (i + 1) rest w in
        (WarningSourceDir (basename p) src_dir :: evs, r, w')
      else
        let '(tried, w1) :=
          (im <- apply_watermark_once p cfg ;;
           export_image im p export_dir (WatermarkConfig.export cfg)) w in
        let printed :=
          match tried with
          | Ok _ => []
          | Raise e => [PrintExportFailed p e]
          end in
        match progress_percent i n with
        | Ok v =>
            let '(evs, r, w') := export_items export_dir cfg n (i + 1) rest w1 in
            (printed ++ ProgressSetValue v :: evs, r, w')
        | Raise e => (printed, Raise e, w1)
        end
  end.

Definition on_export_all (paths : list string) (export_dir : string)
    (cfg : WatermarkConfig.t) (w : World) : list event * result unit * World :=
  match paths with
  | [] => ([InformationNoImages], Ok tt, w)
  | _ =>
      let n := Z.of_nat (List.length paths) in
      let '(evs, r, w') := export_items export_dir cfg n 1 paths w in
      match r with
      | Ok _ => (evs ++ [InformationDone n], Ok tt, w')
      | Raise e => (evs, Raise e, w')
      end
  end.
End Pipeline.

(** ** Session state and templates: [asdict], [json.dump], [json.load] *)

(** [d[k] = v] on a dictionary: an existing key keeps its place. *)
Fixpoint dict_set (d : list (string * value)) (k : string) (v : value)
    : list (string * value) :=
  match d with
  | [] => [(k, v)]
  | (k', v') :: rest =>
      if String.eqb k' k then (k', v) :: rest else (k', v') :: dict_set rest k v
  end.

(** [dataclasses.asdict]: dataclass instances become dictionaries, lists
    stay lists and tuples stay tuples, all the way down. *)
Fixpoint asdict_inner (v : value) : value :=
  match v with
  | VObj _ fields => VDict (map (fun '(k, x) => (k, asdict_inner x)) fields)
  | VList l => VList (map asdict_inner l)
  | VTuple l => VTuple (map asdict_inner l)
  | VDict d => VDict (map (fun '(k, x) => (k, asdict_inner x)) d)
  | _ => v
  end.

Definition asdict (obj : value) : result value :=
  match obj with
  | VObj _ _ => Ok (asdict_inner obj)
  | _ => Raise TypeError
  end.

(** The document [json.dump] writes: lists and tuples both become arrays;
    an object that is no dictionary, sequence, string, number, boolean or
    [None] is a [TypeError]. *)
Fixpoint to_json (v : value) : result json :=
  match v with
  | VNone => Ok JNull
  | VBool b => Ok (JBool b)
  | VInt z => Ok (JInt z)
  | VFloat f => Ok (JFloat f)
  | VStr s => Ok (JString s)
  | VTuple l | VList l =>
      let? js :=
        (fix items (l : list value) : result (list json) :=
           match l with
           | [] => Ok []
           | x :: r => let? j := to_json x in let? js := items r in Ok (j :: js)
           end) l in
      Ok (JArray js)
  | VDict d =>
      let? js :=
        (fix members (d : list (string * value)) : result (list (string * json)) :=
           match d with
           | [] => Ok []
           | (k, x) :: r => let? j := to_json x in let? js := members r in Ok ((k, j) :: js)
           end) d in
      Ok (JObject js)
  | VObj _ _ => Raise TypeError
  end.

(** The value [json.load] builds: arrays become lists, objects become
    dictionaries (a repeated key keeps its last value). *)
Fixpoint from_json (j : json) : value :=
  match j with
  | JNull => VNone
  | JBool b => VBool b
  | JInt z => VInt z
  | JFloat f => VFloat f
  | JString s => VStr s
  | JArray l => VList (map from_json l)
  | JObject d =>
      VDict (fold_left (fun acc '(k, x) => dict_set acc k x)
               (map (fun '(k, x) => (k, from_json x)) d) [])
  end.

(** [d.get(key, default)]. *)
Definition py_get (d : value) (k : string) (dflt : value) : result value :=
  match d with
  | VDict kv => Ok (dict_get kv k dflt)
  | _ => Raise AttributeError
  end.

(** A dataclass whose fields all have defaults, constructed from a
    dictionary of keyword arguments: an unknown keyword is a [TypeError],
    a missing one takes the default. *)
Definition dataclass_new (cls : string) (defaults : list (string * value))
    (kwargs : value) : result value :=
  match kwargs with
  | VDict kw =>
      if forallb (fun '(k, _) => existsb (fun '(k', _) => String.eqb k' k) defaults) kw
      then Ok (VObj cls (map (fun '(k, dflt) => (k, dict_get kw k dflt)) defaults))
      else Raise TypeError
  | _ => Raise TypeError
  end.

Definition VColor (c : Z * Z * Z) : value :=
  let '(r, g, b) := c in VTuple [VInt r; VInt g; VInt b].

Definition VOptStr (o : option string) : value :=
  match o with Some s => VStr s | None => VNone end.

(** The dataclass instances as the interpreter holds them. *)
Definition TextStyle_value (c : TextStyle.t) : value :=
  VObj "TextStyle"
    [ ("text", VStr (TextStyle.text c));
      ("opacity", VInt (TextStyle.opacity c));
      ("font_path", VOptStr (TextStyle.font_path c));
      ("font_size", VInt (TextStyle.font_size c));
      ("stroke", VBool (TextStyle.stroke c));
      ("stroke_width", VInt (TextStyle.stroke_width c));
      ("stroke_color", VColor (TextStyle.stroke_color c));
      ("fill_color", VColor (TextStyle.fill_color c));
      ("shadow", VBool (TextStyle.shadow c));
      ("shadow_offset",
        VTuple [VInt (fst (TextStyle.shadow_offset c)); VInt (snd (TextStyle.shadow_offset c))]) ].

Definition ImageMark_value (c : ImageMark.t) : value :=
  VObj "ImageMark"
    [ ("path", VOptStr (ImageMark.path c));
      ("opacity", VInt (ImageMark.opacity c));
      ("scale_percent", VInt (ImageMark.scale_percent c)) ].

Definition Layout_value (c : Layout.t) : value :=
  VObj "Layout"
    [ ("anchor", VStr (Layout.anchor c));
      ("offset_x", VInt (Layout.offset_x c));
      ("offset_y", VInt (Layout.offset_y c));
      ("rotation_deg", VFloat (Layout.rotation_deg c));
      ("allow_drag", VBool (Layout.allow_drag c)) ].

Definition ExportRule_value (c : ExportRule.t) : value :=
  VObj "ExportRule"
    [ ("mode", VStr (ExportRule.mode c));
      ("text", VStr (ExportRule.text c));
      ("out_format", VStr (ExportRule.out_format c));
      ("jpeg_quality", VInt (ExportRule.jpeg_quality c));
      ("resize_mode", VStr (ExportRule.resize_mode c));
      ("resize_value", VInt (ExportRule.resize_value c)) ].

Definition WatermarkConfig_value (c : WatermarkConfig.t) : value :=
  VObj "WatermarkConfig"
    [ ("use_text", VBool (WatermarkConfig.use_text c));
      ("text", TextStyle_value (WatermarkConfig.text c));
      ("use_image", VBool (WatermarkConfig.use_image c));
      ("image", ImageMark_value (WatermarkConfig.image c));
      ("layout", Layout_value (WatermarkConfig.layout c));
      ("export", ExportRule_value (WatermarkConfig.export c)) ].

Definition fields_of (v : value) : list (string * value) :=
  match v with
  | VObj _ fields => fields
  | _ => []
  end.

(** The field defaults of each dataclass. *)
Definition TextStyle_defaults : list (string * value) :=
  fields_of (TextStyle_value TextStyle.default).
Definition ImageMark_defaults : list (string * value) :=
  fields_of (ImageMark_value ImageMark.default).
Definition Layout_defaults : list (string * value) :=
  fields_of (Layout_value Layout.default).
Definition ExportRule_defaults : list (string * value) :=
  fields_of (ExportRule_value ExportRule.default).

(** The constructor call shared by [load_last_state] and
    [on_load_template]. *)
Definition config_of_dict (d : value) : result value :=
  let? use_text := py_get d "use_text" (VBool true) in
  let? text_kw := py_get d "text" (VDict []) in
  let? text := dataclass_new "TextStyle" TextStyle_defaults text_kw in
  let? use_image := py_get d "use_image" (VBool false) in
  let? image_kw := py_get d "image" (VDict []) in
  let? image := dataclass_new "ImageMark" ImageMark_defaults image_kw in
  let? layout_kw := py_get d "layout" (VDict []) in
  let? layout := dataclass_new "Layout" Layout_defaults layout_kw in
  let? export_kw := py_get d "export" (VDict []) in
  let? export := dataclass_new "ExportRule" ExportRule_defaults export_kw in
  Ok (VObj "WatermarkConfig"
        [ ("use_text", use_text); ("text", text); ("use_image", use_image);
          ("image", image); ("layout", layout); ("export", export) ]).

(** [serialize] and [deserialize] on the document itself. *)
Definition serialize (cfg : value) : result json :=
  let? d := asdict cfg in to_json d.

Definition deserialize (doc : json) : result value :=
  config_of_dict (from_json doc).

Definition STATE_PATH (w : World) : string := path_join (cwd w) "last_state.json".

(** [open(path, "w")]: the file is created or emptied. *)
Definition open_w (p : string) : M string :=
  fun w =>
    let q := abspath w p in
    match lookup_node w (dirname q), lookup_node w q with
    | Some Dir, Some Dir => (Raise (OSError "is a directory"), w)
    | Some Dir, Some _ => (Ok q, with_node w q (File (Bytes "")))
    | Some Dir, None =>
        if disk_full w then (Raise (OSError "no space left on device"), w)
        else (Ok q, with_node w q (File (Bytes "")))
    | _, _ => (Raise (OSError "no such file or directory"), w)
    end.

Definition write_doc (q : string) (doc : json) : M unit :=
  fun w =>
    if disk_full w then (Raise (OSError "no space left on device"), w)
    else (Ok tt, with_node w q (File (JsonFile doc))).

(** [open(path, "r")] followed by [json.load]. *)
Definition read_json (p : string) : M value :=
  fun w =>
    match lookup_node w p with
    | Some (File (JsonFile doc)) => (Ok (from_json doc), w)
    | Some (File _) => (Raise ValueError, w)
    | Some Dir => (Raise (OSError "is a directory"), w)
    | None => (Raise (OSError "no such file or directory"), w)
    end.

Definition save_last_state (cfg : value) : M unit :=
  try_except
    (path <- read STATE_PATH ;;
     f <- open_w path ;;
     doc <- lift (serialize cfg) ;;
     write_doc f doc)
    (fun _ => ret tt).

Definition load_last_state : M (option value) :=
  path <- read STATE_PATH ;;
  present <- read (fun w => path_exists w path) ;;
  if negb present then ret None
  else
    try_except
      (d <- read_json path ;;
       cfg <- lift (config_of_dict d) ;;
       ret (Some cfg))
      (fun _ => ret None).

(** ** Python's [==] on values *)

(** An integer against a float, compared exactly. *)
Definition int_eq_float (z : Z) (f : spec_float) : bool :=
  match f with
  | S754_zero _ => z =? 0
  | S754_finite s m e =>
      let a := if s then Zneg m else Zpos m in
      match e with
      | Zneg k => z * 2 ^ Zpos k =? a
      | _ => z =? a * 2 ^ e
      end
  | _ => false
  end.

Definition int_of_bool (b : bool) : Z := if b then 1 else 0.

Fixpoint py_eq (a b : value) : bool :=
  let seq_eq :=
    fix seq_eq (l m : list value) : bool :=
      match l, m with
      | [], [] => true
      | x :: l', y :: m' => py_eq x y && seq_eq l' m'
      | _, _ => false
      end in
  let fields_eq :=
    fix fields_eq (l m : list (string * value)) : bool :=
      match l, m with
      | [], [] => true
      | (k, x) :: l', (k', y) :: m' => String.eqb k k' && py_eq x y && fields_eq l' m'
      | _, _ => false
      end in
  let subdict :=
    fix subdict (l m : list (string * value)) : bool :=
      match l with
      | [] => true
      | (k, x) :: l' =>
          match find (fun kv => String.eqb (fst kv) k) m with
          | Some kv => py_eq x (snd kv) && subdict l' m
          | None => false
          end
      end in
  match a, b with
  | VNone, VNone => true
  | VBool x, VBool y => Bool.eqb x y
  | VBool x, VInt y => int_of_bool x =? y
  | VInt x, VBool y => x =? int_of_bool y
  | VBool x, VFloat y => int_eq_float (int_of_bool x) y
  | VFloat x, VBool y => int_eq_float (int_of_bool y) x
  | VInt x, VInt y => x =? y
  | VInt x, VFloat y => int_eq_float x y
  | VFloat x, VInt y => int_eq_float y x
  | VFloat x, VFloat y => SFeqb x y
  | VStr s, VStr t => String.eqb s t
  | VTuple l, VTuple m => seq_eq l m
  | VList l, VList m => seq_eq l m
  | VDict l, VDict m => (List.length l =? List.length m)%nat && subdict l m
  | VObj c l, VObj c' m => String.eqb c c' && fields_eq l m
  | _, _ => false
  end.

(** ** Sample inputs *)

(** A text measure of 8 by 12 pixels per character, a rotation that
    keeps the size, and a resize that takes positive sides within a C int
    up to [2^31] pixels in all: enough to run the pipeline on examples. *)
Definition sample_lib : Pillow :=
  {| textbbox := fun _ text _ => (0, 0, 8 * Z.of_nat (String.length text), 12);
     rotated_size := fun _ sz => sz;
     resize_fails := fun _ sz =>
       if (fst sz <? 1) || (snd sz <? 1) then Some NonPositiveSide
       else if (2 ^ 31 <=? fst sz) || (2 ^ 31 <=? snd sz) then Some SideOutOfRange
       else if 2 ^ 31 <=? fst sz * snd sz then Some OutOfMemory
       else None |}.

Definition transparent_white : Image.t :=
  Image.mk "RGBA" (1, 1) (Pixels [[255; 255; 255; 0]]).

Definition opaque_rgb : Image.t :=
  Image.mk "RGB" (2, 1) (Pixels [[10; 20; 30]; [40; 50; 60]]).

Definition palette_image : Image.t :=
  Image.mk "P" (1, 1) (Pixels [[0]]).

Definition logo : Image.t :=
  Image.mk "RGBA" (4, 2) (Pixels (repeat [200; 0; 0; 255] 8)).

(** A working directory [/app] and a folder of photos. *)
Definition studio : World :=
  {| cwd := "/app";
     fs := {[ "/app" := Dir;
              "/photos" := Dir;
              "/photos/a.png" := File (Picture "PNG" transparent_white []);
              "/photos/b.jpg" := File (Picture "JPEG" opaque_rgb []);
              "/photos/c.png" := File (Picture "PNG" palette_image []);
              "/photos/logo.png" := File (Picture "PNG" logo []) ]};
     disk_full := false |}.


Definition plain_config : WatermarkConfig.t :=
  {| WatermarkConfig.use_text := false;
     WatermarkConfig.text := TextStyle.default;
     WatermarkConfig.use_image := false;
     WatermarkConfig.image := ImageMark.default;
     WatermarkConfig.layout := Layout.default;
     WatermarkConfig.export := ExportRule.default |}.

Definition both_config : WatermarkConfig.t :=
  {| WatermarkConfig.use_text := true;
     WatermarkConfig.text := TextStyle.default;
     WatermarkConfig.use_image := true;
     WatermarkConfig.image :=
       {| ImageMark.path := Some "/photos/logo.png"; ImageMark.opacity := 40;
          ImageMark.scale_percent := 30 |};
     WatermarkConfig.layout := Layout.default;
     WatermarkConfig.export := ExportRule.default |}.

Definition jpeg_rule : ExportRule.t :=
  {| ExportRule.mode := "keep"; ExportRule.text := ""; ExportRule.out_format := "JPEG";
     ExportRule.jpeg_quality := 90; ExportRule.resize_mode := "none";
     ExportRule.resize_value := 100 |}.

(** An export rule that only sets the resize policy. *)
Definition resize_rule (m : string) (v : Z) : ExportRule.t :=
  {| ExportRule.mode := "keep"; ExportRule.text := ""; ExportRule.out_format := "PNG";
     ExportRule.jpeg_quality := 90; ExportRule.resize_mode := m;
     ExportRule.resize_value := v |}.

(** A black RGB picture of a given size. *)
Definition canvas (w h : Z) : Image.t := Image.new "RGB" (w, h) (0, 0, 0, 255).


(** ** The specification's wording, for comparison *)

(** The nearest integer to [n / d] for [d > 0], ties to the even one:
    Python's [round]. *)
Definition round_half_even (n d : Z) : Z :=
  let q := n / d in
  let r := n mod d in
  if 2 * r <? d then q
  else if d <? 2 * r then q + 1
  else if Z.even q then q else q + 1.

(** The alpha the specification states: [round(255 * opacity/100)]. *)
Definition claimed_alpha (opacity : Z) : Z := round_half_even (255 * opacity) 100.

(** One side under [by_percent], as the specification has it: the side
    scaled by [max(1, value) / 100], at least 1. *)
Definition claimed_by_percent (dim value : Z) : Z :=
  Z.max 1 (dim * Z.max 1 value / 100).

(** The output name the specification states. *)
Definition claimed_name (mode text base_name : string) : string :=
  if String.eqb mode "prefix" then text +:+ base_name
  else if String.eqb mode "suffix" then base_name +:+ text
  else base_name.

(** The colours of the text draw calls that made a picture, oldest first:
    for each call its fill colour, then its stroke colour if it has one. *)
Fixpoint colours_drawn (r : raster) : list rgba :=
  match r with
  | TextDrawn r' _ _ _ fill _ stroke_fill =>
      colours_drawn r' ++ fill :: match stroke_fill with Some c => [c] | None => [] end
  | Converted _ _ r' | Resized _ _ r' | Blurred _ r' | Rotated _ r' | AlphaScaled _ r' =>
      colours_drawn r'
  | Pasted dst src _ | Composited dst src => colours_drawn dst ++ colours_drawn src
  | Pixels _ | Blank _ => []
  end.

Definition alpha_of (c : rgba) : Z := snd c.

(** The guard of the batch loop: the image's own directory is the export
    directory. *)
Definition in_export_dir (w : World) (export_dir p : string) : bool :=
  String.eqb (abspath w (dirname p)) (abspath w export_dir).

(** One unguarded round of the batch loop without its display. *)
Definition export_one (lib : Pillow) (export_dir : string) (cfg : WatermarkConfig.t)
    (p : string) : M string :=
  im <- apply_watermark_once lib p cfg ;;
  export_image lib im p export_dir (WatermarkConfig.export cfg).

(** The failures a batch prints, item by item. *)
Fixpoint batch_failures (lib : Pillow) (export_dir : string) (cfg : WatermarkConfig.t)
    (paths : list string) (w : World) : list event :=
  match paths with
  | [] => []
  | p :: rest =>
      if in_export_dir w export_dir p then batch_failures lib export_dir cfg rest w
      else
        let '(r, w1) := export_one lib export_dir cfg p w in
        match r with
        | Ok _ => batch_failures lib export_dir cfg rest w1
        | Raise e => PrintExportFailed p e :: batch_failures lib export_dir cfg rest w1
        end
  end.

Definition is_failure (e : event) : bool :=
  match e with PrintExportFailed _ _ => true | _ => false end.

Definition is_warning (e : event) : bool :=
  match e with WarningSourceDir _ _ => true | _ => false end.

(** A value with every tuple replaced by the list of the same elements:
    what a value looks like after a trip through a JSON document. *)
Fixpoint tuples_to_lists (v : value) : value :=
  match v with
  | VTuple l | VList l => VList (map tuples_to_lists l)
  | VDict d => VDict (map (fun '(k, x) => (k, tuples_to_lists x)) d)
  | VObj cls fields => VObj cls (map (fun '(k, x) => (k, tuples_to_lists x)) fields)
  | _ => v
  end.

(** The field of a dataclass instance. *)
Definition field (obj : value) (k : string) : option value :=
  match obj with
  | VObj _ fields => snd <$> find (fun kv => String.eqb (fst kv) k) fields
  | _ => None
  end.

(** What a pass of either renderer returns: the world is left as it was,
    and a returned picture is RGBA, of the size of its input, and either
    the converted input itself or the converted input with one overlay
    composited over it. *)
Definition overlay_pass (pass : M Image.t) (input : Image.t) (w : World) : Prop :=
  snd (pass w) = w /\
  forall out : Image.t,
    fst (pass w) = Ok out ->
    Image.mode out = "RGBA" /\ Image.size out = Image.size input /\
    (out = Image.convert input "RGBA" \/
     exists overlay : raster,
       Image.data out = Composited (Image.data (Image.convert input "RGBA")) overlay).

(** ** Reading the rounding of [SpecFloat] *)

(** The mantissa and exponent after the right shift that brings a
    mantissa [m] at exponent [e] down to 53 digits (or to the smallest
    exponent). *)
Definition shift_to (m e : Z) : Z * Z :=
  let n := fexp prec emax (Zdigits2 m + e) - e in
  if 0 <? n then (m / 2 ^ n, e + n) else (m, e).

(** The float with a given sign, mantissa and exponent. *)
Definition pack (s : bool) (me : Z * Z) : spec_float :=
  match fst me with
  | Z0 => S754_zero s
  | Zpos p => if snd me <=? emax - prec then S754_finite s p (snd me) else S754_infinity s
  | Zneg _ => S754_nan
  end.

(** The magnitude a finite float stays under: its exponent is at most
    [B], and its digits end below binary position [B + 53]. *)
Definition below (B : Z) (f : spec_float) : Prop :=
  match f with
  | S754_zero _ => True
  | S754_finite _ m e => e <= B /\ Zdigits2 (Zpos m) + e <= B + 53
  | _ => False
  end.


(** [dim * (value / 100.0)], truncated: one dimension under [by_percent]. *)
Definition scaled_by_percent (dim value : Z) : result Z :=
  let? fv := float_of_int value in
  let? scale := float_truediv fv f100 in
  let? f := int_mul_float dim scale in
  int_of_float f.

Definition is_progress (e : event) : bool :=
  match e with ProgressSetValue _ => true | _ => false end.

(** ** Input files *)

(** [c.lower()] on one character of a path. Only the ASCII capitals
    change: a character outside ASCII never lower-cases to letters of the
    supported extensions alone, so leaving it as it is does not change
    what [is_image_file] answers. *)
Definition ascii_lower (c : ascii) : ascii :=
  let n := nat_of_ascii c in
  if (65 <=? n)%nat && (n <=? 90)%nat then ascii_of_nat (n + 32) else c.

Fixpoint lower (s : string) : string :=
  match s with
  | EmptyString => EmptyString
  | String c r => String (ascii_lower c) (lower r)
  end.

Definition SUPPORTED_INPUTS : gset string :=
  {[ ".jpg"; ".jpeg"; ".png"; ".bmp"; ".tiff"; ".tif" ]}.

Definition is_image_file (path : string) : bool :=
  let ext := lower (snd (splitext path)) in
  bool_decide (ext ∈ SUPPORTED_INPUTS).

(** Whether a string has a character that is no dot. *)
Definition has_stem (s : string) : bool := negb (string_forallb is_dot s).

(** [os.path.isdir] and [os.path.isfile]. *)
Definition isdir (w : World) (p : string) : bool :=
  match lookup_node w p with Some Dir => true | _ => false end.

Definition isfile (w : World) (p : string) : bool :=
  match lookup_node w p with Some (File _) => true | _ => false end.

(** ** The thumbnail list *)

(** The state of a [ThumbList]: the imported paths and the rows of the
    item model, each row with its label and its data (the icon is left
    out). *)
Module ThumbList.
Record t : Type := mk { paths : list string; rows : list (string * string) }.
Definition init : t := {| paths := []; rows := [] |}.
End ThumbList.

(** One round of the first loop of [refresh_model]. *)
Definition unique_step (st : gset string * list string) (p : string)
    : gset string * list string :=
  let '(seen, unique) := st in
  if bool_decide (p ∈ seen) then (seen, unique) else ({[p]} ∪ seen, unique ++ [p]).

(** The list [unique] that the first loop of [refresh_model] builds. *)
Definition unique_paths (paths : list string) : list string :=
  snd (fold_left unique_step paths (∅, [])).

(** [refresh_model]: the paths without repetitions, and a row for each of
    them that opens as an image; a failure to open is passed over. *)
Definition refresh_model (w : World) (self : ThumbList.t) : ThumbList.t :=
  let unique := unique_paths (ThumbList.paths self) in
  let rows :=
    fold_left
      (fun rows p =>
         match fst (Image_open p w) with
         | Ok _ => rows ++ [(basename p, p)]
         | Raise _ => rows
         end)
      unique [] in
  {| ThumbList.paths := unique; ThumbList.rows := rows |}.

(** [current_path]: the data of the selected row, or the first path when
    no row is selected. *)
Definition current_path (self : ThumbList.t) (idx : option nat) : option string :=
  match idx ≫= (fun i => ThumbList.rows self !! i) with
  | Some item => Some (snd item)
  | None => head (ThumbList.paths self)
  end.

Section FileList.
(** [os.walk(p)]: the triples [(root, dirs, files)] in the order the
    system lists them. *)
Variable walk : World -> string -> list (string * list string * list string).

Definition add_path_recursive (w : World) (paths : list string) (p : string)
    : list string :=
  if isdir w p then
    fold_left
      (fun paths '(root, _, files) =>
         fold_left
           (fun paths f =>
              let fp := path_join root f in
              if is_image_file fp then paths ++ [fp] else paths)
           files paths)
      (walk w p) paths
  else if isfile w p && is_image_file p then paths ++ [p]
  else paths.

Definition add_files (w : World) (self : ThumbList.t) (files : list string)
    : ThumbList.t :=
  let paths := fold_left (add_path_recursive w) files (ThumbList.paths self) in
  refresh_model w {| ThumbList.paths := paths; ThumbList.rows := ThumbList.rows self |}.
End FileList.

(** ** Eliding a path for a label *)

(** An index of a slice, brought into [0 .. len] as Python does. *)
Definition slice_index (len i : Z) : Z :=
  if i <? 0 then Z.max 0 (len + i) else Z.min i len.

(** [s[start:stop]], with [None] for a bound left out. *)
Definition py_slice {A : Type} (s : list A) (start stop : option Z) : list A :=
  let len := Z.of_nat (List.length s) in
  let a := match start with Some i => slice_index len i | None => 0 end in
  let b := match stop with Some j => slice_index len j | None => len end in
  firstn (Z.to_nat (b - a)) (skipn (Z.to_nat a) s).

(** [MainWindow.elide] on a string as the list of its characters;
    [ellipsis] is the character U+2026. *)
Definition elide {A : Type} (ellipsis : A) (path : list A) (max_len : Z) : list A :=
  if Z.of_nat (List.length path) <=? max_len then path
  else py_slice path None (Some (max_len / 2 - 2))
       ++ [ellipsis]
       ++ py_slice path (Some (- max_len / 2 + 2)) None.

(** ** The folders of the application *)

Definition DEFAULT_EXPORT_DIR (w : World) : string := path_join (cwd w) "exports".
Definition TEMPLATES_DIR (w : World) : string := path_join (cwd w) "templates".

Definition ensure_dirs : M unit :=
  (d <- read DEFAULT_EXPORT_DIR ;; makedirs d) ;;;
  (t <- read TEMPLATES_DIR ;; makedirs t).

(** The path [export_image] writes to and returns: [out_path]. *)
Definition out_path (src_path export_dir : string) (rule : ExportRule.t) : string :=
  path_join export_dir
    (claimed_name (ExportRule.mode rule) (ExportRule.text rule)
       (fst (splitext (basename src_path)))
     +:+ "." +:+
     (if String.eqb (ExportRule.out_format rule) "JPEG" then "jpg" else "png")).

(** A value in the range of the progress bar, when the event sets it. *)
Definition in_bar_range (e : event) : Prop :=
  match e with
  | ProgressSetValue v => 0 <= v <= 100
  | _ => True
  end.

(** ** The preview canvas and the controls *)

(** What the preview label shows: a text, or the pixmap of a picture
    fitted into a box by [thumbnail]. *)
Inductive display : Type :=
| ShowsPrompt
| ShowsFailure (e : exn)
| ShowsPixmap (im : Image.t) (box : Z * Z).

Inductive mouse_button : Type := LeftButton | OtherButton.

(** The state of a [PreviewCanvas]. Its [_cfg] is a reference to the
    configuration object of the main window, not a copy: [has_cfg] says
    whether the reference is set, and the object itself is passed to the
    methods and handed back by those that write to it. *)
Module PreviewCanvas.
Record t : Type := mk {
  width : Z;
  height : Z;
  has_cfg : bool;
  current_img_path : option string;
  dragging : bool;
  last_pos : option (Z * Z);
  shown : option display }.
End PreviewCanvas.

(** The values the controls of the panel hold. *)
Record Widgets : Type := {
  chk_text : bool;
  edt_text : string;
  sld_text_op : Z;
  spn_font : Z;
  chk_stroke : bool;
  spn_stroke_w : Z;
  chk_img : bool;
  sld_img_op : Z;
  spn_img_scale : Z;
  cmb_anchor : string;
  spn_offx : Z;
  spn_offy : Z;
  spn_rotate : Z;
  cmb_mode : string;
  edt_rule : string;
  cmb_format : string;
  spn_quality : Z;
  cmb_resize : string;
  spn_resize : Z }.

Definition with_offsets (l : Layout.t) (x y : Z) : Layout.t :=
  {| Layout.anchor := Layout.anchor l; Layout.offset_x := x; Layout.offset_y := y;
     Layout.rotation_deg := Layout.rotation_deg l; Layout.allow_drag := Layout.allow_drag l |}.

Definition with_layout (c : WatermarkConfig.t) (l : Layout.t) : WatermarkConfig.t :=
  {| WatermarkConfig.use_text := WatermarkConfig.use_text c;
     WatermarkConfig.text := WatermarkConfig.text c;
     WatermarkConfig.use_image := WatermarkConfig.use_image c;
     WatermarkConfig.image := WatermarkConfig.image c;
     WatermarkConfig.layout := l;
     WatermarkConfig.export := WatermarkConfig.export c |}.

Section Preview.
Variable lib : Pillow.

(** [PreviewCanvas.update_preview]. *)
Definition update_preview (cfg : WatermarkConfig.t) (self : PreviewCanvas.t)
    : M PreviewCanvas.t :=
  let show (d : display) : PreviewCanvas.t :=
    {| PreviewCanvas.width := PreviewCanvas.width self;
       PreviewCanvas.height := PreviewCanvas.height self;
       PreviewCanvas.has_cfg := PreviewCanvas.has_cfg self;
       PreviewCanvas.current_img_path := PreviewCanvas.current_img_path self;
       PreviewCanvas.dragging := PreviewCanvas.dragging self;
       PreviewCanvas.last_pos := PreviewCanvas.last_pos self;
       PreviewCanvas.shown := Some d |} in
  match PreviewCanvas.current_img_path self with
  | Some path =>
      if String.eqb path "" || negb (PreviewCanvas.has_cfg self) then ret (show ShowsPrompt)
      else
        try_except
          (im <- apply_watermark_once lib path cfg ;;
           let w := if 10 <? PreviewCanvas.width self then PreviewCanvas.width self else 800 in
           let h := if 10 <? PreviewCanvas.height self then PreviewCanvas.height self else 600 in
           ret (show (ShowsPixmap im (w, h))))
          (fun e => ret (show (ShowsFailure e)))
  | None => ret (show ShowsPrompt)
  end.

(** [PreviewCanvas.mousePressEvent]. *)
Definition mousePressEvent (cfg : WatermarkConfig.t) (self : PreviewCanvas.t)
    (button : mouse_button) (pos : Z * Z) : PreviewCanvas.t :=
  match button with
  | LeftButton =>
      if PreviewCanvas.has_cfg self && Layout.allow_drag (WatermarkConfig.layout cfg) then
        {| PreviewCanvas.width := PreviewCanvas.width self;
           PreviewCanvas.height := PreviewCanvas.height self;
           PreviewCanvas.has_cfg := PreviewCanvas.has_cfg self;
           PreviewCanvas.current_img_path := PreviewCanvas.current_img_path self;
           PreviewCanvas.dragging := true;
           PreviewCanvas.last_pos := Some pos;
           PreviewCanvas.shown := PreviewCanvas.shown self |}
      else self
  | OtherButton => self
  end.

(** What an event handler leaves behind: the configuration object and
    the canvas as they are when it ends, normally or by an exception, and
    the world. *)
Definition handler : Type :=
  World -> (WatermarkConfig.t * PreviewCanvas.t) * result unit * World.

(** A refresh of the preview at the end of a handler. *)
Definition refreshed (cfg : WatermarkConfig.t) (self : PreviewCanvas.t)
    (refresh : M PreviewCanvas.t) : handler :=
  fun w =>
    match refresh w with
    | (Ok self', w') => ((cfg, self'), Ok tt, w')
    | (Raise e, w') => ((cfg, self), Raise e, w')
    end.

(** [PreviewCanvas.mouseMoveEvent]: the configuration object written to
    is the one of the main window. *)
Definition mouseMoveEvent (cfg : WatermarkConfig.t) (self : PreviewCanvas.t)
    (pos : Z * Z) : handler :=
  if PreviewCanvas.dragging self && PreviewCanvas.has_cfg self
     && Layout.allow_drag (WatermarkConfig.layout cfg) then
    match PreviewCanvas.last_pos self with
    | None => fun w => ((cfg, self), Raise TypeError, w)
    | Some last =>
        let delta := (fst pos - fst last, snd pos - snd last) in
        let self :=
          {| PreviewCanvas.width := PreviewCanvas.width self;
             PreviewCanvas.height := PreviewCanvas.height self;
             PreviewCanvas.has_cfg := PreviewCanvas.has_cfg self;
             PreviewCanvas.current_img_path := PreviewCanvas.current_img_path self;
             PreviewCanvas.dragging := PreviewCanvas.dragging self;
             PreviewCanvas.last_pos := Some pos;
             PreviewCanvas.shown := PreviewCanvas.shown self |} in
        let layout := WatermarkConfig.layout cfg in
        let cfg :=
          with_layout cfg
            (with_offsets layout (Layout.offset_x layout + fst delta)
               (Layout.offset_y layout + snd delta)) in
        refreshed cfg self (update_preview cfg self)
    end
  else fun w => ((cfg, self), Ok tt, w).

(** [PreviewCanvas.mouseReleaseEvent]. *)
Definition mouseReleaseEvent (self : PreviewCanvas.t) : PreviewCanvas.t :=
  {| PreviewCanvas.width := PreviewCanvas.width self;
     PreviewCanvas.height := PreviewCanvas.height self;
     PreviewCanvas.has_cfg := PreviewCanvas.has_cfg self;
     PreviewCanvas.current_img_path := PreviewCanvas.current_img_path self;
     PreviewCanvas.dragging := false;
     PreviewCanvas.last_pos := PreviewCanvas.last_pos self;
     PreviewCanvas.shown := PreviewCanvas.shown self |}.

(** [PreviewCanvas.set_config] with the configuration object of the main
    window. *)
Definition set_config (cfg : WatermarkConfig.t) (self : PreviewCanvas.t)
    : M PreviewCanvas.t :=
  update_preview cfg
    {| PreviewCanvas.width := PreviewCanvas.width self;
       PreviewCanvas.height := PreviewCanvas.height self;
       PreviewCanvas.has_cfg := true;
       PreviewCanvas.current_img_path := PreviewCanvas.current_img_path self;
       PreviewCanvas.dragging := PreviewCanvas.dragging self;
       PreviewCanvas.last_pos := PreviewCanvas.last_pos self;
       PreviewCanvas.shown := PreviewCanvas.shown self |}.

(** A run of mouse moves, up to the first that raises. *)
Fixpoint mouse_moves (cfg : WatermarkConfig.t) (self : PreviewCanvas.t)
    (positions : list (Z * Z)) : handler :=
  match positions with
  | [] => fun w => ((cfg, self), Ok tt, w)
  | pos :: rest =>
      fun w =>
        match mouseMoveEvent cfg self pos w with
        | ((cfg', self'), Ok _, w') => mouse_moves cfg' self' rest w'
        | stopped => stopped
        end
  end.

(** [MainWindow.on_change]: the values of the controls are written into
    the configuration object one by one, the preview is refreshed and the
    state is saved. *)
Definition on_change (cfg : WatermarkConfig.t) (preview : PreviewCanvas.t)
    (ui : Widgets) : handler :=
  let text := WatermarkConfig.text cfg in
  let image := WatermarkConfig.image cfg in
  let layout := WatermarkConfig.layout cfg in
  let written (rotation_deg : spec_float) (export : ExportRule.t) : WatermarkConfig.t :=
    {| WatermarkConfig.use_text := chk_text ui;
       WatermarkConfig.text :=
         {| TextStyle.text := edt_text ui;
            TextStyle.opacity := sld_text_op ui;
            TextStyle.font_path := TextStyle.font_path text;
            TextStyle.font_size := spn_font ui;
            TextStyle.stroke := chk_stroke ui;
            TextStyle.stroke_width := spn_stroke_w ui;
            TextStyle.stroke_color := TextStyle.stroke_color text;
            TextStyle.fill_color := TextStyle.fill_color text;
            TextStyle.shadow := TextStyle.shadow text;
            TextStyle.shadow_offset := TextStyle.shadow_offset text |};
       WatermarkConfig.use_image := chk_img ui;
       WatermarkConfig.image :=
         {| ImageMark.path := ImageMark.path image;
            ImageMark.opacity := sld_img_op ui;
            ImageMark.scale_percent := spn_img_scale ui |};
       WatermarkConfig.layout :=
         {| Layout.anchor := cmb_anchor ui;
            Layout.offset_x := spn_offx ui;
            Layout.offset_y := spn_offy ui;
            Layout.rotation_deg := rotation_deg;
            Layout.allow_drag := Layout.allow_drag layout |};
       WatermarkConfig.export := export |} in
  match float_of_int (spn_rotate ui) with
  | Raise e =>
      fun w =>
        ((written (Layout.rotation_deg layout) (WatermarkConfig.export cfg), preview),
         Raise e, w)
  | Ok rotation =>
      let cfg :=
        written rotation
          {| ExportRule.mode := cmb_mode ui;
             ExportRule.text := edt_rule ui;
             ExportRule.out_format := cmb_format ui;
             ExportRule.jpeg_quality := spn_quality ui;
             ExportRule.resize_mode := cmb_resize ui;
             ExportRule.resize_value := spn_resize ui |} in
      fun w =>
        match set_config cfg preview w with
        | (Ok preview', w1) =>
            match save_last_state (WatermarkConfig_value cfg) w1 with
            | (Ok _, w2) => ((cfg, preview'), Ok tt, w2)
            | (Raise e, w2) => ((cfg, preview'), Raise e, w2)
            end
        | (Raise e, w1) => ((cfg, preview), Raise e, w1)
        end
  end.
End Preview.
(** * Properties *)

(** ** The geometry resolver *)

Lemma half_difference (c o : Z) :
  c / 2 - o / 2 = (c - o) / 2 + (if Z.even c && Z.odd o then 1 else 0).
Proof.
  pose proof (Zmod_even c) as Hc. pose proof (Zmod_odd o) as Ho.
  destruct (Z.even c), (Z.odd o); simpl; Z.div_mod_to_equations; lia.
Qed.

Lemma calc_anchor_pos_eq (bw bh mw mh : Z) (anchor : string) (offx offy : Z) :
  calc_anchor_pos bw bh mw mh anchor offx offy =
  match anchor_zone anchor with
  | Some (row, col) => (axis_base bw mw col + offx, axis_base bh mh row + offy)
  | None => (offx, offy)
  end.
Proof.
  unfold calc_anchor_pos, anchor_zone, dict_get. cbn [find fst snd].
  repeat (rewrite (String.eqb_sym _ anchor);
          destruct (String.eqb anchor _); [reflexivity |]).
  reflexivity.
Qed.

(** C1 (as amended). For every canvas size, overlay size, anchor tag and
    offsets, [calc_anchor_pos] returns the anchor's base point plus the raw
    offsets, with no clamping: along each axis the base is [0] for the
    first zone, [canvas - overlay] for the last, and for the middle zone
    [canvas / 2 - overlay / 2], each length halved on its own with floor
    division (the specification's [(canvas - overlay) / 2] plus one when
    the canvas length is even and the overlay length odd); an unrecognised
    tag gives base [(0, 0)]; anchor [tr] on a 1000x800 canvas with a
    100x50 overlay and offsets [(10, 5)] gives [(910, 5)]. *)
Theorem calc_anchor_pos_grid (bw bh mw mh : Z) (anchor : string) (offx offy : Z) :
  calc_anchor_pos bw bh mw mh anchor offx offy =
    match anchor_zone anchor with
    | Some (row, col) => (axis_base bw mw col + offx, axis_base bh mh row + offy)
    | None => (offx, offy)
    end
  /\ (forall canvas overlay : Z,
        axis_base canvas overlay Lo = claimed_base canvas overlay Lo /\
        axis_base canvas overlay Hi = claimed_base canvas overlay Hi /\
        axis_base canvas overlay Mid =
          claimed_base canvas overlay Mid
          + (if Z.even canvas && Z.odd overlay then 1 else 0))
  /\ calc_anchor_pos 1000 800 100 50 "tr" 10 5 = (910, 5).
Proof.
  split; [apply calc_anchor_pos_eq |].
  split; [| reflexivity].
  intros canvas overlay. repeat split. apply half_difference.
Qed.

(** C1, the claim as stated fails: centred on a 2x2 canvas, a 1x1 overlay
    is placed at [(1, 1)], where [(canvas - overlay) / 2] gives [(0, 0)]. *)
Lemma calc_anchor_pos_middle_counterexample :
  calc_anchor_pos 2 2 1 1 "center" 0 0 = (1, 1)
  /\ claimed_anchor_pos 2 2 1 1 "center" 0 0 = (0, 0)
  /\ calc_anchor_pos 2 2 1 1 "center" 0 0 <> claimed_anchor_pos 2 2 1 1 "center" 0 0.
Proof. repeat split. discriminate. Qed.

(** ** The alpha of the text renderer *)

Lemma Z_range_ind (P : Z -> Prop) (n : nat) :
  Forall P (map Z.of_nat (seq 0 n)) ->
  forall z, 0 <= z < Z.of_nat n -> P z.
Proof.
  intros H z Hz. rewrite List.Forall_forall in H. apply H.
  rewrite <- (Z2Nat.id z) by lia. apply in_map, in_seq. lia.
Qed.

Lemma text_alpha_floor (opacity : Z) :
  0 <= opacity <= 100 -> text_alpha opacity = Ok (255 * opacity / 100).
Proof.
  intros H. apply (Z_range_ind (fun z => text_alpha z = Ok (255 * z / 100)) 101); [| lia].
  apply List.Forall_forall. intros z Hz.
  assert (Hb : forallb (fun z => match text_alpha z with
                                 | Ok a => a =? 255 * z / 100
                                 | Raise _ => false
                                 end) (map Z.of_nat (seq 0 101)) = true)
    by (vm_compute; reflexivity).
  rewrite List.forallb_forall in Hb. specialize (Hb z Hz).
  destruct (text_alpha z); [| discriminate].
  apply Z.eqb_eq in Hb. now subst.
Qed.

(** C3 (as amended). For every text style with opacity in [0, 100], the
    alpha the text renderer gives its colours is [int(255*opacity/100)],
    which is the floor of [255 * opacity / 100] (truncation, not
    rounding), and the text draw calls carry this one alpha in the shadow
    colour (when the shadow is on), in the fill colour and in the stroke
    colour (when the stroke is on). *)
Theorem text_colours_share_truncated_alpha
    (lib : Pillow) (font : Font) (cfg : TextStyle.t) (layout : Layout.t) :
  0 <= TextStyle.opacity cfg <= 100 ->
  let a := 255 * TextStyle.opacity cfg / 100 in
  text_alpha (TextStyle.opacity cfg) = Ok a /\
  exists (h : heap) (text_layer : nat),
    draw_text_layer lib font cfg layout = Ok (h, text_layer) /\
    colours_drawn (Image.data (object h 0)) =
      (if TextStyle.shadow cfg then [(0, 0, 0, a)] else [])
      ++ with_alpha (TextStyle.fill_color cfg) a
      :: (if TextStyle.stroke cfg then [with_alpha (TextStyle.stroke_color cfg) a] else []).
Proof.
  intros Hop a. pose proof (text_alpha_floor _ Hop) as Ha. fold a in Ha.
  split; [exact Ha |].
  unfold draw_text_layer. rewrite Ha.
  destruct (textbbox lib font (TextStyle.text cfg) _) as [[[x0 y0] x1] y1].
  destruct (TextStyle.shadow_offset cfg) as [sx sy].
  destruct (TextStyle.shadow cfg), (TextStyle.stroke cfg);
    cbn -[Z.add Z.sub Z.mul Z.div SFltb];
    destruct (SFltb _ _); cbn -[Z.add Z.sub Z.mul Z.div];
    eexists _, _; (split; [reflexivity |]); reflexivity.
Qed.

Lemma text_colours_default_witness :
  text_alpha 40 = Ok 102 /\
  exists (h : heap) (text_layer : nat),
    draw_text_layer sample_lib load_default TextStyle.default Layout.default
      = Ok (h, text_layer) /\
    colours_drawn (Image.data (object h 0)) =
      [(0, 0, 0, 102); (255, 255, 255, 102); (0, 0, 0, 102)].
Proof.
  apply (text_colours_share_truncated_alpha sample_lib load_default
           TextStyle.default Layout.default).
  simpl. lia.
Defined.

(** C3, the claim as stated fails: at opacity 1 the renderer's alpha is 2,
    where [round(255 * 1/100)] is 3. *)
Lemma text_alpha_round_counterexample :
  text_alpha 1 = Ok 2 /\ claimed_alpha 1 = 3 /\ text_alpha 1 <> Ok (claimed_alpha 1).
Proof. repeat split. vm_compute. discriminate. Qed.

(** With the shadow on, [text_layer] is rebound to the blurred copy that
    [filter] returns while the drawing handle stays on the first image
    object: the layer that gets composited holds the shadow draw only, and
    the fill and stroke draw lands on the object left behind. *)
Lemma shadow_layer_holds_shadow_only
    (lib : Pillow) (font : Font) (cfg : TextStyle.t) (layout : Layout.t) :
  TextStyle.shadow cfg = true ->
  match draw_text_layer lib font cfg layout with
  | Ok (h, text_layer) =>
      exists a : Z,
        text_alpha (TextStyle.opacity cfg) = Ok a /\
        text_layer <> 0%nat /\
        colours_drawn (Image.data (object h text_layer)) = [(0, 0, 0, a)] /\
        colours_drawn (Image.data (object h 0)) =
          (0, 0, 0, a) :: with_alpha (TextStyle.fill_color cfg) a
          :: (if TextStyle.stroke cfg
              then [with_alpha (TextStyle.stroke_color cfg) a] else [])
  | Raise e => text_alpha (TextStyle.opacity cfg) = Raise e
  end.
Proof.
  intros Hs. unfold draw_text_layer. rewrite Hs.
  destruct (textbbox lib font (TextStyle.text cfg) _) as [[[x0 y0] x1] y1].
  destruct (TextStyle.shadow_offset cfg) as [sx sy].
  destruct (text_alpha (TextStyle.opacity cfg)) as [a |]; [| reflexivity].
  destruct (TextStyle.stroke cfg);
    cbn -[Z.add Z.sub Z.mul Z.div SFltb];
    destruct (SFltb _ _); cbn -[Z.add Z.sub Z.mul Z.div];
    exists a; repeat split; discriminate.
Qed.

Lemma shadow_layer_default_witness :
  match draw_text_layer sample_lib load_default TextStyle.default Layout.default with
  | Ok (h, text_layer) =>
      exists a : Z,
        text_alpha 40 = Ok a /\
        text_layer <> 0%nat /\
        colours_drawn (Image.data (object h text_layer)) = [(0, 0, 0, a)] /\
        colours_drawn (Image.data (object h 0)) =
          [(0, 0, 0, a); (255, 255, 255, a); (0, 0, 0, a)]
  | Raise e => text_alpha 40 = Raise e
  end.
Proof.
  apply (shadow_layer_holds_shadow_only sample_lib load_default
           TextStyle.default Layout.default); reflexivity.
Defined.

(** ** The compositor *)

Ltac run_io := unfold bind, ret, lift, read, raise, try_except in *.

Lemma Image_open_world (p : string) (w : World) : snd (Image_open p w) = w.
Proof.
  unfold Image_open. destruct (lookup_node w p) as [[| []] |]; reflexivity.
Qed.

Lemma truetype_world (p : string) (size : Z) (w : World) : snd (truetype p size w) = w.
Proof.
  unfold truetype. destruct (lookup_node w p) as [[| []] |]; reflexivity.
Qed.

Lemma load_font_world (cfg : TextStyle.t) (w : World) : snd (load_font cfg w) = w.
Proof.
  unfold load_font. run_io.
  repeat match goal with
         | |- context [if ?b then _ else _] => destruct b
         | |- context [truetype ?p ?s ?w] =>
             let H := fresh in
             pose proof (truetype_world p s w) as H;
             destruct (truetype p s w) as [[] ?]; simpl in H; subst
         end; reflexivity.
Qed.

Lemma convert_mode (im : Image.t) (m : string) : Image.mode (Image.convert im m) = m.
Proof.
  unfold Image.convert. destruct (String.eqb_spec (Image.mode im) m); [assumption | reflexivity].
Qed.

Lemma convert_size (im : Image.t) (m : string) :
  Image.size (Image.convert im m) = Image.size im.
Proof. unfold Image.convert. destruct (String.eqb _ _); reflexivity. Qed.

Lemma alpha_composite_ok (im1 im2 out : Image.t) :
  Image.alpha_composite im1 im2 = Ok out ->
  Image.mode out = "RGBA" /\ Image.size out = Image.size im1
  /\ Image.data out = Composited (Image.data im1) (Image.data im2).
Proof.
  unfold Image.alpha_composite. destruct (_ && _); [| discriminate].
  intros [= <-]. repeat split.
Qed.

Lemma draw_text_watermark_pass (lib : Pillow) (base : Image.t) (cfg : TextStyle.t)
    (layout : Layout.t) (w : World) :
  overlay_pass (draw_text_watermark lib base cfg layout) base w.
Proof.
  unfold overlay_pass, draw_text_watermark. run_io.
  pose proof (load_font_world cfg w) as Hw.
  destruct (load_font cfg w) as [[font |] w']; simpl in Hw; subst w'.
  2: { split; [reflexivity | discriminate]. }
  destruct (draw_text_layer lib font cfg layout) as [[h tl] |].
  2: { split; [reflexivity | discriminate]. }
  destruct (calc_anchor_pos _ _ _ _ _ _ _) as [bx by_].
  split; [reflexivity |]. cbn [fst]. intros out Hout.
  apply alpha_composite_ok in Hout as (Hm & Hs & Hd).
  rewrite convert_size in Hs. repeat split; try assumption.
  right. eexists. exact Hd.
Qed.

Lemma draw_image_watermark_pass (lib : Pillow) (base : Image.t) (mark : ImageMark.t)
    (layout : Layout.t) (w : World) :
  overlay_pass (draw_image_watermark lib base mark layout) base w.
Proof.
  unfold overlay_pass, draw_image_watermark. run_io.
  assert (Hself : forall out, Ok (Image.convert base "RGBA") = Ok out ->
            Image.mode out = "RGBA" /\ Image.size out = Image.size base /\
            (out = Image.convert base "RGBA" \/
             exists overlay, Image.data out
               = Composited (Image.data (Image.convert base "RGBA")) overlay)).
  { intros out [= <-]. rewrite convert_mode, convert_size. auto. }
  destruct (ImageMark.path mark) as [p |]; [| split; [reflexivity | exact Hself]].
  destruct (negb (negb (String.eqb p "") && path_exists w p));
    [split; [reflexivity | exact Hself] |].
  pose proof (Image_open_world p w) as Hw.
  destruct (Image_open p w) as [[wm |] w']; simpl in Hw; subst w'.
  2: { split; [reflexivity | discriminate]. }
  repeat match goal with
         | |- context [match ?r with Ok _ => _ | Raise _ => _ end] =>
             destruct r; [| split; [reflexivity | discriminate]]
         end.
  destruct (calc_anchor_pos _ _ _ _ _ _ _) as [bx by_].
  split; [reflexivity |]. cbn [fst]. intros out Hout.
  apply alpha_composite_ok in Hout as (Hm & Hs & Hd).
  rewrite convert_size in Hs. repeat split; try assumption.
  right. eexists. exact Hd.
Qed.

(** The compositor reads the file system and changes nothing in it. *)
Lemma apply_watermark_once_world (lib : Pillow) (p : string) (cfg : WatermarkConfig.t)
    (w : World) :
  snd (apply_watermark_once lib p cfg w) = w.
Proof.
  unfold apply_watermark_once. run_io.
  pose proof (Image_open_world p w) as Hw.
  destruct (Image_open p w) as [[base |] w0]; simpl in Hw; subst w0; [| reflexivity].
  assert (Himg : forall mid : Image.t,
            snd (let (r, w1) :=
                   (if WatermarkConfig.use_image cfg
                    then draw_image_watermark lib mid (WatermarkConfig.image cfg)
                           (WatermarkConfig.layout cfg)
                    else fun w0 => (Ok mid, w0)) w in
                 match r with
                 | Ok out => (Ok out, w1)
                 | Raise e => (Raise e, w1)
                 end) = w).
  { intros mid. destruct (WatermarkConfig.use_image cfg); [| reflexivity].
    pose proof (proj1 (draw_image_watermark_pass lib mid (WatermarkConfig.image cfg)
                         (WatermarkConfig.layout cfg) w)) as Hs.
    destruct (draw_image_watermark lib mid _ _ w) as [[out |] w1]; exact Hs. }
  destruct (WatermarkConfig.use_text cfg); [| apply Himg].
  pose proof (proj1 (draw_text_watermark_pass lib base (WatermarkConfig.text cfg)
                       (WatermarkConfig.layout cfg) w)) as Hs.
  destruct (draw_text_watermark lib base _ _ w) as [[mid |] w1];
    simpl in Hs; subst w1; [apply Himg | reflexivity].
Qed.

(** C10. With both [use_text] and [use_image] off, the compositor returns
    exactly what opening the base image returns: the same image object,
    in its own colour mode, with no conversion and no overlay pass. *)
Theorem no_overlay_returns_base
    (lib : Pillow) (img_path : string) (cfg : WatermarkConfig.t) (w : World) :
  WatermarkConfig.use_text cfg = false ->
  WatermarkConfig.use_image cfg = false ->
  apply_watermark_once lib img_path cfg w = Image_open img_path w.
Proof.
  intros Ht Hi. unfold apply_watermark_once. rewrite Ht, Hi. run_io.
  destruct (Image_open img_path w) as [[base |] w']; reflexivity.
Qed.

Lemma no_overlay_rgb_witness :
  apply_watermark_once sample_lib "/photos/b.jpg" plain_config studio
  = (Ok opaque_rgb, studio).
Proof.
  exact (no_overlay_returns_base sample_lib "/photos/b.jpg" plain_config studio
           eq_refl eq_refl).
Defined.

(** C6 (as amended). For every base image path and configuration the
    compositor leaves the world, and so the source file, as it was; when it
    returns a picture, that picture has the size of the opened base image
    (no resizing) and was made by the text pass, if [use_text] is set,
    followed by the image pass on the text pass's result, if [use_image]
    is set, so that an image overlay lies over the text; the picture is
    RGBA whenever at least one of the two passes ran. *)
Theorem compositor_text_then_image
    (lib : Pillow) (img_path : string) (cfg : WatermarkConfig.t) (w : World) :
  snd (apply_watermark_once lib img_path cfg w) = w /\
  match fst (apply_watermark_once lib img_path cfg w) with
  | Raise _ => True
  | Ok out =>
      exists base mid : Image.t,
        fst (Image_open img_path w) = Ok base /\
        (if WatermarkConfig.use_text cfg
         then fst (draw_text_watermark lib base (WatermarkConfig.text cfg)
                     (WatermarkConfig.layout cfg) w) = Ok mid
              /\ exists overlay : raster,
                   Image.data mid
                   = Composited (Image.data (Image.convert base "RGBA")) overlay
         else mid = base) /\
        (if WatermarkConfig.use_image cfg
         then fst (draw_image_watermark lib mid (WatermarkConfig.image cfg)
                     (WatermarkConfig.layout cfg) w) = Ok out
              /\ (out = Image.convert mid "RGBA" \/
                  exists overlay : raster,
                    Image.data out
                    = Composited (Image.data (Image.convert mid "RGBA")) overlay)
         else out = mid) /\
        Image.size out = Image.size base /\
        (if WatermarkConfig.use_text cfg || WatermarkConfig.use_image cfg
         then Image.mode out = "RGBA"
         else Image.mode out = Image.mode base)
  end.
Proof.
  unfold apply_watermark_once. run_io.
  pose proof (Image_open_world img_path w) as Hw.
  destruct (Image_open img_path w) as [[base |] w0]; simpl in Hw; subst w0;
    [| split; [reflexivity | exact I]].
  cbn [fst].
  assert (Hmid : exists r,
             (if WatermarkConfig.use_text cfg
              then draw_text_watermark lib base (WatermarkConfig.text cfg)
                     (WatermarkConfig.layout cfg)
              else fun w0 => (Ok base, w0)) w = (r, w) /\
             forall mid, r = Ok mid ->
               Image.size mid = Image.size base /\
               (if WatermarkConfig.use_text cfg
                then fst (draw_text_watermark lib base (WatermarkConfig.text cfg)
                            (WatermarkConfig.layout cfg) w) = Ok mid
                     /\ Image.mode mid = "RGBA"
                     /\ exists overlay : raster,
                          Image.data mid
                          = Composited (Image.data (Image.convert base "RGBA")) overlay
                else mid = base)).
  { destruct (WatermarkConfig.use_text cfg).
    - destruct (draw_text_watermark_pass lib base (WatermarkConfig.text cfg)
                  (WatermarkConfig.layout cfg) w) as [Hs Ho].
      unfold draw_text_watermark in *. run_io.
      destruct (load_font (WatermarkConfig.text cfg) w) as [[font |] w1].
      2: { simpl in Hs. subst. eexists. split; [reflexivity | discriminate]. }
      destruct (draw_text_layer lib font _ _) as [[h tl] |].
      2: { simpl in Hs. subst. eexists. split; [reflexivity | discriminate]. }
      destruct (calc_anchor_pos _ _ _ _ _ _ _) as [bx by_].
      simpl in Hs. subst w1. eexists. split; [reflexivity |].
      intros mid Hm. cbn [fst] in Ho. destruct (Ho mid Hm) as (Hmode & Hsize & Hd).
      repeat split; try assumption.
      destruct Hd as [-> | Hd]; [| exact Hd].
      apply alpha_composite_ok in Hm as (_ & _ & Hd). eexists. exact Hd.
    - eexists. split; [reflexivity |]. intros mid [= <-]. split; reflexivity. }
  destruct Hmid as (r & -> & Hr).
  destruct r as [mid |]; [| split; [reflexivity | exact I]].
  destruct (Hr mid eq_refl) as (Hsize & Htext). clear Hr.
  destruct (WatermarkConfig.use_image cfg) eqn:Hi.
  - destruct (draw_image_watermark_pass lib mid (WatermarkConfig.image cfg)
                (WatermarkConfig.layout cfg) w) as [Hs Ho].
    destruct (draw_image_watermark lib mid _ _ w) as [[out |] w1] eqn:Hrun;
      simpl in Hs; subst w1; [| split; [reflexivity | exact I]].
    split; [reflexivity |]. cbn [fst] in *.
    destruct (Ho out eq_refl) as (Hmode & Hsz & Hd).
    exists base, mid. split; [reflexivity |].
    split.
    { destruct (WatermarkConfig.use_text cfg); [| exact Htext].
      destruct Htext as (? & _ & ?). split; assumption. }
    split; [split; [now rewrite Hrun | exact Hd] |].
    split; [congruence |].
    rewrite orb_true_r. exact Hmode.
  - split; [reflexivity |]. cbn [fst].
    exists base, mid. split; [reflexivity |].
    split.
    { destruct (WatermarkConfig.use_text cfg); [| exact Htext].
      destruct Htext as (? & _ & ?). split; assumption. }
    split; [reflexivity |]. split; [exact Hsize |].
    rewrite orb_false_r.
    destruct (WatermarkConfig.use_text cfg).
    + destruct Htext as (_ & ? & _). assumption.
    + now subst.
Qed.

(** C6, the claim as stated fails: with both overlays off a JPEG source
    comes back as the RGB image it is, not as an RGBA image. *)
Lemma compositor_rgb_counterexample :
  fst (apply_watermark_once sample_lib "/photos/b.jpg" plain_config studio) = Ok opaque_rgb
  /\ Image.mode opaque_rgb = "RGB"
  /\ Image.mode opaque_rgb <> "RGBA".
Proof. repeat split. discriminate. Qed.

(** Both passes run on a sample photo: text first, the logo over it. *)
Lemma compositor_both_example :
  exists text_overlay logo_overlay : raster,
    fst (apply_watermark_once sample_lib "/photos/a.png" both_config studio)
    = Ok {| Image.mode := "RGBA"; Image.size := (1, 1);
            Image.data :=
              Composited
                (Composited (Image.data transparent_white) text_overlay)
                logo_overlay |}.
Proof. eexists _, _. vm_compute. reflexivity. Qed.

(** ** Paths *)

Lemma append_nil_l (s : string) : "" +:+ s = s.
Proof. reflexivity. Qed.

Lemma append_cons (c : ascii) (a b : string) : String c a +:+ b = String c (a +:+ b).
Proof. reflexivity. Qed.

Lemma append_empty_r (s : string) : s +:+ "" = s.
Proof. induction s; rewrite ?append_nil_l, ?append_cons; congruence. Qed.

Lemma append_assoc (a b c : string) : (a +:+ b) +:+ c = a +:+ (b +:+ c).
Proof. induction a; rewrite ?append_nil_l, ?append_cons; congruence. Qed.

Lemma forallb_append (f : ascii -> bool) (a b : string) :
  string_forallb f (a +:+ b) = string_forallb f a && string_forallb f b.
Proof.
  induction a; rewrite ?append_nil_l, ?append_cons; cbn [string_forallb]; [reflexivity |].
  now rewrite IHa, andb_assoc.
Qed.

Lemma cut_last_sep_app (p : string) :
  fst (cut_last_sep p) +:+ snd (cut_last_sep p) = p.
Proof.
  induction p as [| c r IH]; [reflexivity |].
  cbn [cut_last_sep]. destruct (cut_last_sep r) as [h t]. cbn [fst snd] in IH.
  destruct h as [| c' h'].
  - rewrite append_nil_l in IH. subst t. destruct (is_sep c); reflexivity.
  - cbn [fst snd]. rewrite append_cons. now rewrite IH.
Qed.

Lemma cut_last_sep_tail (p : string) :
  string_forallb (fun c => negb (is_sep c)) (snd (cut_last_sep p)) = true.
Proof.
  induction p as [| c r IH]; [reflexivity |].
  cbn [cut_last_sep]. destruct (cut_last_sep r) as [h t] eqn:E. cbn [snd] in IH.
  destruct h as [| c' h']; [| exact IH].
  pose proof (cut_last_sep_app r) as Happ. rewrite E in Happ.
  cbn [fst snd] in Happ. rewrite append_nil_l in Happ. subst t.
  destruct (is_sep c) eqn:Hc; cbn [snd]; [exact IH |].
  cbn [string_forallb]. now rewrite Hc, IH.
Qed.

Lemma cut_last_dot_app (s pre ext : string) :
  cut_last_dot s = Some (pre, ext) ->
  pre +:+ ext = s /\ exists rest, ext = String "." rest.
Proof.
  revert pre ext. induction s as [| c r IH]; intros pre ext; [discriminate |].
  cbn [cut_last_dot]. destruct (cut_last_dot r) as [[pre' ext'] |].
  - intros [= <- <-]. destruct (IH _ _ eq_refl) as [Happ Hext].
    split; [rewrite append_cons; now rewrite Happ | exact Hext].
  - destruct (is_dot c) eqn:Hc; [| discriminate].
    intros [= <- <-]. split; [reflexivity |].
    unfold is_dot in Hc. apply Ascii.eqb_eq in Hc. subst c. now eexists.
Qed.

Lemma splitext_app (p : string) : fst (splitext p) +:+ snd (splitext p) = p.
Proof.
  unfold splitext. pose proof (cut_last_sep_app p) as Hp.
  destruct (cut_last_sep p) as [head tail]. cbn [fst snd] in Hp.
  destruct (cut_last_dot tail) as [[pre ext] |] eqn:Hd; cbn [fst snd].
  - destruct (string_forallb is_dot pre); cbn [fst snd].
    + apply append_empty_r.
    + apply cut_last_dot_app in Hd as [Hd _]. now rewrite append_assoc, Hd.
  - apply append_empty_r.
Qed.

(** The name stem of a source path: its last component up to the
    extension; it holds no separator. *)
Lemma stem_no_sep (src_path : string) :
  string_forallb (fun c => negb (is_sep c)) (fst (splitext (basename src_path))) = true.
Proof.
  pose proof (cut_last_sep_tail src_path) as Hb. fold (basename src_path) in Hb.
  rewrite <- (splitext_app (basename src_path)), forallb_append in Hb.
  now apply andb_true_iff in Hb.
Qed.

(** ** The exporter *)

Lemma mkdir_chain_cwd (qs : list string) (w : World) :
  cwd (snd (mkdir_chain qs w)) = cwd w.
Proof.
  revert w. induction qs as [| q rest IH]; intros w; [reflexivity |].
  cbn [mkdir_chain]. unfold bind, mkdir_step.
  destruct (fs w !! q) as [[| f] |]; try reflexivity; [apply IH |].
  destruct (disk_full w); [reflexivity |]. rewrite IH. reflexivity.
Qed.

Lemma makedirs_cwd (p : string) (w : World) : cwd (snd (makedirs p w)) = cwd w.
Proof. apply mkdir_chain_cwd. Qed.

Lemma abspath_cwd (w w' : World) (p : string) : cwd w = cwd w' -> abspath w p = abspath w' p.
Proof. unfold abspath. now intros ->. Qed.

Lemma Image_save_ok (im : Image.t) (p format : string) (options : list (string * Z))
    (w w' : World) :
  Image_save im p format options w = (Ok tt, w') ->
  w' = with_node w (abspath w p) (File (Picture format im options))
  /\ mem_string (Image.mode im)
       (if String.eqb format "JPEG" then jpeg_modes else png_modes) = true.
Proof.
  unfold Image_save.
  destruct (lookup_node w (dirname (abspath w p))) as [[| ?] |]; try discriminate.
  destruct (lookup_node w (abspath w p)) as [[| ?] |]; try discriminate;
    destruct (disk_full w); try discriminate;
    destruct (mem_string _ _); try discriminate; intros [= <-]; auto.
Qed.

Lemma Image_save_refusal (im : Image.t) (p format : string) (options : list (string * Z))
    (w : World) :
  fst (Image_save im p format options w) = Raise (OSError "cannot write mode") ->
  mem_string (Image.mode im)
    (if String.eqb format "JPEG" then jpeg_modes else png_modes) = false.
Proof.
  unfold Image_save.
  destruct (lookup_node w (dirname (abspath w p))) as [[| ?] |]; try discriminate.
  destruct (lookup_node w (abspath w p)) as [[| ?] |]; try discriminate;
    destruct (disk_full w); try discriminate;
    destruct (mem_string _ _); try discriminate; reflexivity.
Qed.

Lemma mkdir_chain_error (qs : list string) (w : World) (e : exn) :
  fst (mkdir_chain qs w) = Raise e -> e <> OSError "cannot write mode".
Proof.
  revert w. induction qs as [| q rest IH]; intros w; [discriminate |].
  cbn [mkdir_chain]. unfold bind, mkdir_step.
  destruct (fs w !! q) as [[| f] |].
  - apply IH.
  - intros [= <-]. discriminate.
  - destruct (disk_full w); [intros [= <-]; discriminate | apply IH].
Qed.

Lemma resize_mode_kept (im : Image.t) (sz : Z * Z) :
  Image.mode (Image.resize im sz) = Image.mode im.
Proof. unfold Image.resize. destruct (_ && _); reflexivity. Qed.


Lemma Image_resize_error (lib : Pillow) (im : Image.t) (sz : Z * Z) (e : exn) :
  Image_resize lib im sz = Raise e ->
  e = ValueError \/ e = OverflowError \/ e = MemoryError.
Proof.
  unfold Image_resize. destruct (resize_fails lib im sz) as [[| |] |];
    try discriminate; intros [= <-]; auto.
Qed.

Ltac case_resize :=
  unfold apply_resize;
  destruct (Image.size _) as [iw ih];
  repeat match goal with
         | |- context [if String.eqb ?a ?b then _ else _] => destruct (String.eqb a b)
         end.



Lemma arith_error (e : exn) :
  e = ZeroDivisionError \/ e = OverflowError \/ e = ValueError \/ e = MemoryError ->
  e <> OSError "cannot write mode".
Proof. intros [-> | [-> | [-> | ->]]]; discriminate. Qed.

Lemma int_truediv_error (a b : Z) (e : exn) :
  int_truediv a b = Raise e -> e = ZeroDivisionError \/ e = OverflowError \/ e = ValueError.
Proof.
  unfold int_truediv. destruct (b =? 0); [intros [= <-]; auto |].
  destruct (SF_is_finite _); [discriminate | intros [= <-]; auto].
Qed.

Lemma int_of_float_error (x : spec_float) (e : exn) :
  int_of_float x = Raise e -> e = ZeroDivisionError \/ e = OverflowError \/ e = ValueError.
Proof. destruct x; cbn; try discriminate; intros [= <-]; auto. Qed.

Lemma float_of_int_error (z : Z) (e : exn) :
  float_of_int z = Raise e -> e = ZeroDivisionError \/ e = OverflowError \/ e = ValueError.
Proof.
  unfold float_of_int. destruct (SF_is_finite _); [discriminate | intros [= <-]; auto].
Qed.

Lemma float_truediv_error (x y : spec_float) (e : exn) :
  float_truediv x y = Raise e -> e = ZeroDivisionError \/ e = OverflowError \/ e = ValueError.
Proof. destruct y; cbn; try discriminate; intros [= <-]; auto. Qed.

Lemma int_mul_float_error (z : Z) (x : spec_float) (e : exn) :
  int_mul_float z x = Raise e -> e = ZeroDivisionError \/ e = OverflowError \/ e = ValueError.
Proof.
  unfold int_mul_float. destruct (float_of_int z) eqn:E; cbn [rbind]; [discriminate |].
  intros [= <-]. eapply float_of_int_error; eassumption.
Qed.

Lemma apply_resize_error (lib : Pillow) (img : Image.t) (rule : ExportRule.t) (e : exn) :
  apply_resize lib img rule = Raise e ->
  e = ZeroDivisionError \/ e = OverflowError \/ e = ValueError \/ e = MemoryError.
Proof.
  assert (Harith : forall e' : exn,
            e' = ZeroDivisionError \/ e' = OverflowError \/ e' = ValueError ->
            e' = ZeroDivisionError \/ e' = OverflowError \/ e' = ValueError
            \/ e' = MemoryError) by (intros e' [-> | [-> | ->]]; auto).
  case_resize; try discriminate;
    repeat match goal with
           | |- context [rbind ?r _] => destruct r eqn:?; cbn [rbind]
           end;
    try discriminate;
    try (intros [= <-]; apply Harith;
         eauto using int_truediv_error, int_of_float_error, float_of_int_error,
           float_truediv_error, int_mul_float_error);
    intros Hrs; apply Image_resize_error in Hrs as [-> | [-> | ->]]; auto.
Qed.

Lemma exn_eq_dec (a b : exn) : {a = b} + {a <> b}.
Proof. decide equality. apply string_dec. Defined.

Lemma claimed_name_eq (rule : ExportRule.t) (base_name : string) :
  (if String.eqb (ExportRule.mode rule) "keep" then base_name
   else if String.eqb (ExportRule.mode rule) "prefix" then ExportRule.text rule +:+ base_name
   else if String.eqb (ExportRule.mode rule) "suffix" then base_name +:+ ExportRule.text rule
   else base_name)
  = claimed_name (ExportRule.mode rule) (ExportRule.text rule) base_name.
Proof.
  unfold claimed_name.
  destruct (String.eqb_spec (ExportRule.mode rule) "keep") as [-> |]; reflexivity.
Qed.

(** What a run of [export_image] comes to: on success the returned path,
    the resized picture and the file written; on failure either an error
    other than the encoder's refusal, or a mode the encoder does not
    take. *)
Lemma export_image_run (lib : Pillow) (img : Image.t) (src_path export_dir : string)
    (rule : ExportRule.t) (w : World) :
  let name := claimed_name (ExportRule.mode rule) (ExportRule.text rule)
                (fst (splitext (basename src_path))) in
  let jpeg := String.eqb (ExportRule.out_format rule) "JPEG" in
  let out_path := path_join export_dir (name +:+ "." +:+ (if jpeg then "jpg" else "png")) in
  let handed (final_img : Image.t) :=
    if jpeg && mem_string (Image.mode final_img) ["RGBA"; "LA"]
    then Image.convert final_img "RGB" else final_img in
  match export_image lib img src_path export_dir rule w with
  | (Ok p, w') =>
      p = out_path /\
      exists (w1 : World) (final_img : Image.t),
        makedirs export_dir w = (Ok tt, w1) /\
        apply_resize lib img rule = Ok final_img /\
        mem_string (Image.mode (handed final_img))
          (if jpeg then jpeg_modes else png_modes) = true /\
        w' = with_node w1 (abspath w out_path)
               (File (Picture (if jpeg then "JPEG" else "PNG") (handed final_img)
                        (if jpeg
                         then [("quality", ExportRule.jpeg_quality rule); ("subsampling", 0)]
                         else [])))
  | (Raise e, _) =>
      e <> OSError "cannot write mode" \/
      exists final_img : Image.t,
        apply_resize lib img rule = Ok final_img /\
        mem_string (Image.mode (handed final_img))
          (if jpeg then jpeg_modes else png_modes) = false
  end.
Proof.
  intros name jpeg out_path handed.
  unfold export_image. rewrite claimed_name_eq. fold name. fold jpeg. fold out_path.
  run_io.
  destruct (makedirs export_dir w) as [[[] | e] w1] eqn:Hmk.
  2: { left. eapply mkdir_chain_error. unfold makedirs in Hmk. now rewrite Hmk. }
  assert (Hcwd : cwd w1 = cwd w) by (rewrite <- (makedirs_cwd export_dir w); now rewrite Hmk).
  destruct (apply_resize lib img rule) as [final_img | e] eqn:Hrs.
  2: { left. apply arith_error. eapply apply_resize_error; eassumption. }
  assert (Hsave : exists format options,
            (if jpeg
             then Image_save
                    (if mem_string (Image.mode final_img) ["RGBA"; "LA"]
                     then Image.convert final_img "RGB" else final_img)
                    out_path "JPEG"
                    [("quality", ExportRule.jpeg_quality rule); ("subsampling", 0)]
             else Image_save final_img out_path "PNG" []) w1
            = Image_save (handed final_img) out_path format options w1
            /\ format = (if jpeg then "JPEG" else "PNG")
            /\ options = (if jpeg
                          then [("quality", ExportRule.jpeg_quality rule); ("subsampling", 0)]
                          else [])
            /\ (if String.eqb format "JPEG" then jpeg_modes else png_modes)
               = (if jpeg then jpeg_modes else png_modes)).
  { unfold handed. destruct jpeg; eexists _, _; repeat split. }
  destruct Hsave as (format & options & -> & Hf & Ho & Hmodes).
  destruct (Image_save (handed final_img) out_path format options w1) as [[[] | e] w2] eqn:Hsv.
  - split; [reflexivity |]. exists w1, final_img.
    apply Image_save_ok in Hsv as [-> Hm]. rewrite Hmodes in Hm.
    rewrite (abspath_cwd w1 w) by exact Hcwd. subst format options. auto.
  - destruct (exn_eq_dec e (OSError "cannot write mode")) as [-> | Hne]; [| now left].
    right. exists final_img. split; [reflexivity |].
    rewrite <- Hmodes. eapply Image_save_refusal. now rewrite Hsv.
Qed.

Lemma with_node_lookup (w : World) (q : string) (n : node) :
  fs (with_node w q n) !! q = Some n.
Proof. unfold with_node. cbn [fs]. apply lookup_insert_eq. Qed.



(** A photo exported with suffix [_wm] as PNG. *)
Lemma export_suffix_example :
  fst (export_image sample_lib opaque_rgb "/photos/b.jpg" "/out"
         {| ExportRule.mode := "suffix"; ExportRule.text := "_wm";
            ExportRule.out_format := "PNG"; ExportRule.jpeg_quality := 90;
            ExportRule.resize_mode := "none"; ExportRule.resize_value := 100 |} studio)
  = Ok "/out/b_wm.png".
Proof. vm_compute. reflexivity. Qed.



(** A palette picture handed over unchanged (both overlays off) is
    refused by the JPEG encoder: only the modes RGBA and LA are converted
    before saving. *)
Lemma export_jpeg_palette_refused :
  fst (apply_watermark_once sample_lib "/photos/c.png" plain_config studio) = Ok palette_image
  /\ fst (export_image sample_lib palette_image "/photos/c.png" "exports" jpeg_rule studio)
     = Raise (OSError "cannot write mode").
Proof. split; vm_compute; reflexivity. Qed.

(** ** Session state and templates *)

Lemma py_eq_obj_field (c c' : string) (l m : list (string * value)) (i : nat)
    (k k' : string) (x y : value) :
  l !! i = Some (k, x) -> m !! i = Some (k', y) -> py_eq x y = false ->
  py_eq (VObj c l) (VObj c' m) = false.
Proof.
  intros Hl Hm Hxy. cbn [py_eq]. apply andb_false_iff. right.
  revert m i Hl Hm. induction l as [| [k0 x0] l IH]; intros m i Hl Hm; [discriminate |].
  destruct m as [| [k1 y1] m]; [discriminate |].
  destruct i as [| i]; cbn in Hl, Hm.
  - injection Hl as -> ->. injection Hm as -> ->.
    rewrite Hxy, andb_false_r. reflexivity.
  - rewrite (IH m i Hl Hm). apply andb_false_r.
Qed.

Lemma roundtrip_value (c : WatermarkConfig.t) :
  rbind (serialize (WatermarkConfig_value c)) deserialize
  = Ok (tuples_to_lists (WatermarkConfig_value c)).
Proof.
  destruct c as [use_text [t o fp fsz st sw [[sr sg] sb] [[fr fg] fb] sh [sx sy]]
                   use_image [ip io isc] [an ox oy rot drag] [m tx fmt q rm rv]].
  destruct fp, ip; vm_compute; reflexivity.
Qed.

(** C2, evaluated on the code. Writing any configuration and reading it
    back succeeds, but the configuration read holds a list wherever the
    one written held a tuple (the two colours and the shadow offset of the
    text style), so Python's [==] between the two is false; a document
    with missing keys does load with each missing field at its default. *)
Theorem roundtrip_not_equal (c : WatermarkConfig.t) :
  exists loaded : value,
    rbind (serialize (WatermarkConfig_value c)) deserialize = Ok loaded
    /\ loaded = tuples_to_lists (WatermarkConfig_value c)
    /\ (exists r g b : Z,
          (field (WatermarkConfig_value c) "text" ≫= fun t => field t "stroke_color")
          = Some (VTuple [VInt r; VInt g; VInt b])
          /\ (field loaded "text" ≫= fun t => field t "stroke_color")
             = Some (VList [VInt r; VInt g; VInt b]))
    /\ py_eq loaded (WatermarkConfig_value c) = false
    /\ deserialize (JObject []) = Ok (WatermarkConfig_value WatermarkConfig.default).
Proof.
  exists (tuples_to_lists (WatermarkConfig_value c)).
  split; [apply roundtrip_value |]. split; [reflexivity |].
  destruct c as [use_text [t o fp fsz st sw [[sr sg] sb] [[fr fg] fb] sh [sx sy]]
                   use_image im la ex].
  split; [exists sr, sg, sb; split; reflexivity |].
  split; [| reflexivity].
  eapply (py_eq_obj_field _ _ _ _ 1%nat); [reflexivity | reflexivity |].
  eapply (py_eq_obj_field _ _ _ _ 6%nat); reflexivity.
Qed.

(** The same through the session-state file of a sample world. *)
Lemma save_then_load_default :
  exists loaded : value,
    fst (load_last_state
           (snd (save_last_state (WatermarkConfig_value WatermarkConfig.default) studio)))
    = Ok (Some loaded)
    /\ py_eq loaded (WatermarkConfig_value WatermarkConfig.default) = false.
Proof. eexists. split; vm_compute; reflexivity. Qed.

(** A dataclass built from keyword arguments takes the default for every
    field the arguments do not name. *)
Lemma dataclass_new_default (cls : string) (defaults kw : list (string * value))
    (obj : value) (k : string) :
  dataclass_new cls defaults (VDict kw) = Ok obj ->
  find (fun kv => String.eqb (fst kv) k) kw = None ->
  field obj k = snd <$> find (fun kv => String.eqb (fst kv) k) defaults.
Proof.
  unfold dataclass_new. destruct (forallb _ kw); [| discriminate].
  intros [= <-] Hmiss. cbn [field]. f_equal.
  induction defaults as [| [k0 d0] defaults IH]; [reflexivity |].
  cbn [map find fst]. destruct (String.eqb_spec k0 k) as [-> |].
  - unfold dict_get. rewrite Hmiss. reflexivity.
  - exact IH.
Qed.

(** ** Binary64 arithmetic *)

Lemma fexp_eq (x : Z) : fexp prec emax x = Z.max (x - 53) (-1074).
Proof. reflexivity. Qed.

Lemma Zdigits2_log2 (p : positive) : Zdigits2 (Zpos p) = Z.log2 (Zpos p) + 1.
Proof.
  assert (H : forall q, digits2_pos q = Pos.size q)
    by (induction q; cbn; congruence).
  cbn [Zdigits2]. rewrite H. destruct p; cbn; lia.
Qed.

Lemma Zdigits2_bounds (z : Z) :
  0 < z -> 2 ^ (Zdigits2 z - 1) <= z < 2 ^ Zdigits2 z.
Proof.
  intros Hz. destruct z as [| p |]; try lia.
  rewrite Zdigits2_log2. replace (Z.log2 (Zpos p) + 1 - 1) with (Z.log2 (Zpos p)) by lia.
  apply Z.log2_spec. lia.
Qed.

Lemma Zdigits2_unique (z d : Z) :
  0 < d -> 2 ^ (d - 1) <= z < 2 ^ d -> Zdigits2 z = d.
Proof.
  intros Hd Hz. assert (0 < z) by (pose proof (Z.pow_pos_nonneg 2 (d - 1)); lia).
  destruct z as [| p |]; try lia.
  rewrite Zdigits2_log2. rewrite (Z.log2_unique (Zpos p) (d - 1)); try lia.
  replace (Z.succ (d - 1)) with d by lia. exact Hz.
Qed.

Lemma Zdigits2_nonneg (z : Z) : 0 <= Zdigits2 z.
Proof. destruct z; cbn; lia. Qed.

Lemma Zdigits2_le (z d : Z) : 0 <= d -> 0 <= z < 2 ^ d -> Zdigits2 z <= d.
Proof.
  intros Hd Hz. destruct (Z.eq_dec z 0) as [-> | Hne]; [cbn; lia |].
  pose proof (Zdigits2_bounds z ltac:(lia)) as Hb.
  destruct (Z_lt_le_dec d (Zdigits2 z)) as [Hlt |]; [| assumption].
  assert (2 ^ d <= 2 ^ (Zdigits2 z - 1)) by (apply Z.pow_le_mono_r; lia). lia.
Qed.

Lemma Zdigits2_ge (z d : Z) : 2 ^ (d - 1) <= z -> 0 < z -> d <= Zdigits2 z.
Proof.
  intros Hz Hpos. pose proof (Zdigits2_bounds z Hpos) as Hb.
  destruct (Z_lt_le_dec (Zdigits2 z) d) as [Hlt |]; [| assumption].
  pose proof (Zdigits2_nonneg z).
  assert (2 ^ Zdigits2 z <= 2 ^ (d - 1)) by (apply Z.pow_le_mono_r; lia). lia.
Qed.

(** Shifting right keeps the integer part. *)
Lemma shr_1_m (mrs : shr_record) :
  0 <= shr_m mrs -> shr_m (shr_1 mrs) = shr_m mrs / 2.
Proof.
  destruct mrs as [m r s]. cbn [shr_m]. intros Hm.
  destruct m as [| [p | p |] |]; cbn [shr_1 shr_m]; try lia; try reflexivity.
  - change (Zpos p~1) with (2 * Zpos p + 1). Z.div_mod_to_equations. lia.
  - change (Zpos p~0) with (2 * Zpos p). Z.div_mod_to_equations. lia.
Qed.

Lemma shr_1_nonneg (mrs : shr_record) : 0 <= shr_m mrs -> 0 <= shr_m (shr_1 mrs).
Proof. intros H. rewrite shr_1_m by exact H. apply Z.div_pos; lia. Qed.

Lemma pow2_double (k : Z) : 0 <= k -> 2 ^ (2 * k) = 2 ^ k * 2 ^ k.
Proof. intros Hk. rewrite <- Z.pow_add_r by lia. f_equal. lia. Qed.

Lemma pow2_double_succ (k : Z) : 0 <= k -> 2 ^ (2 * k + 1) = 2 * (2 ^ k * 2 ^ k).
Proof.
  intros Hk. rewrite Z.pow_add_r, pow2_double by lia. lia.
Qed.

Lemma pow2_pos (k : Z) : 0 <= k -> 0 < 2 ^ k.
Proof. intros Hk. apply Z.pow_pos_nonneg; lia. Qed.

Lemma iter_shr_1_m (p : positive) (mrs : shr_record) :
  0 <= shr_m mrs ->
  shr_m (SpecFloat.iter_pos shr_1 p mrs) = shr_m mrs / 2 ^ Zpos p
  /\ 0 <= shr_m (SpecFloat.iter_pos shr_1 p mrs).
Proof.
  revert mrs. induction p as [p IH | p IH |]; intros mrs Hm; cbn [SpecFloat.iter_pos].
  - pose proof (shr_1_nonneg mrs Hm) as H1.
    destruct (IH (shr_1 mrs) H1) as [E1 P1].
    destruct (IH _ P1) as [E2 P2]. split; [| exact P2].
    pose proof (pow2_pos (Zpos p) ltac:(lia)) as Hp.
    rewrite E2, E1, shr_1_m by exact Hm.
    change (Zpos p~1) with (2 * Zpos p + 1). rewrite pow2_double_succ by lia.
    rewrite !Z.div_div by lia. reflexivity.
  - destruct (IH mrs Hm) as [E1 P1].
    destruct (IH _ P1) as [E2 P2]. split; [| exact P2].
    pose proof (pow2_pos (Zpos p) ltac:(lia)) as Hp.
    rewrite E2, E1. change (Zpos p~0) with (2 * Zpos p). rewrite pow2_double by lia.
    rewrite Z.div_div by lia. reflexivity.
  - split; [apply shr_1_m; exact Hm | apply shr_1_nonneg; exact Hm].
Qed.

Lemma shr_record_of_loc_m (m : Z) (l : location) : shr_m (shr_record_of_loc m l) = m.
Proof. destruct l as [| []]; reflexivity. Qed.

(** The mantissa and exponent after [shr_fexp]. *)
Lemma shr_fexp_spec (m e : Z) (l : location) :
  0 <= m ->
  let n := fexp prec emax (Zdigits2 m + e) - e in
  shr_m (fst (shr_fexp prec emax m e l)) = (if 0 <? n then m / 2 ^ n else m)
  /\ snd (shr_fexp prec emax m e l) = (if 0 <? n then e + n else e).
Proof.
  intros Hm n. unfold shr_fexp. fold n. unfold shr.
  destruct n as [| p | p]; cbn [fst snd Z.ltb Z.compare].
  - split; [apply shr_record_of_loc_m | reflexivity].
  - split; [| reflexivity].
    pose proof (iter_shr_1_m p (shr_record_of_loc m l)) as H.
    rewrite shr_record_of_loc_m in H. apply H. exact Hm.
  - split; [apply shr_record_of_loc_m | reflexivity].
Qed.

Lemma round_nearest_even_cases (m : Z) (l : location) :
  round_nearest_even m l = m \/ round_nearest_even m l = m + 1.
Proof.
  destruct l as [| []]; cbn; auto. destruct (Z.even m); auto.
Qed.

(** [binary_round_aux] shifts, rounds to the mantissa below or the one
    above, and shifts again. *)
Lemma binary_round_aux_cases (s : bool) (m e : Z) (l : location) :
  0 <= m ->
  exists m2 : Z,
    (m2 = fst (shift_to m e) \/ m2 = fst (shift_to m e) + 1)
    /\ (l = loc_Exact -> fexp prec emax (Zdigits2 m + e) - e <= 0 -> m2 = m)
    /\ binary_round_aux prec emax s m e l = pack s (shift_to m2 (snd (shift_to m e))).
Proof.
  intros Hm. unfold binary_round_aux.
  destruct (shr_fexp_spec m e l Hm) as [E1 E2]. cbv zeta in E1, E2.
  destruct (shr_fexp prec emax m e l) as [mrs' e'] eqn:Hs1. cbn [fst snd] in E1, E2.
  assert (Hsh : shift_to m e = (shr_m mrs', e')).
  { unfold shift_to. rewrite E1, E2. destruct (0 <? _); reflexivity. }
  set (m2 := round_nearest_even (shr_m mrs') (loc_of_shr_record mrs')).
  assert (Hm1 : 0 <= shr_m mrs').
  { rewrite E1. destruct (Z.ltb_spec 0 (fexp prec emax (Zdigits2 m + e) - e)); [| lia].
    apply Z.div_pos; [lia | apply pow2_pos; lia]. }
  assert (Hm2 : 0 <= m2).
  { destruct (round_nearest_even_cases (shr_m mrs') (loc_of_shr_record mrs')) as [H | H];
      unfold m2; rewrite H; lia. }
  exists m2. rewrite Hsh. cbn [fst snd].
  split; [apply round_nearest_even_cases |].
  split.
  { intros -> Hn. unfold m2. unfold shr_fexp, shr in Hs1. cbn [shr_record_of_loc] in Hs1.
    destruct (fexp prec emax (Zdigits2 m + e) - e) as [| p | p]; try lia;
      injection Hs1 as <- _; reflexivity. }
  destruct (shr_fexp_spec m2 e' loc_Exact Hm2) as [F1 F2]. cbv zeta in F1, F2.
  destruct (shr_fexp prec emax m2 e' loc_Exact) as [mrs'' e''] eqn:Hs2.
  cbn [fst snd] in F1, F2.
  unfold pack, shift_to. rewrite F1, F2.
  destruct (0 <? fexp prec emax (Zdigits2 m2 + e') - e'); reflexivity.
Qed.

Lemma div_pow2_lower (m a k : Z) : 0 <= k <= a -> 2 ^ a <= m -> 2 ^ (a - k) <= m / 2 ^ k.
Proof.
  intros Hk Hm. apply Z.div_le_lower_bound; [apply pow2_pos; lia |].
  rewrite <- Z.pow_add_r by lia. replace (k + (a - k)) with a by lia. exact Hm.
Qed.

Lemma div_pow2_upper (m b k : Z) : 0 <= k <= b -> m < 2 ^ b -> m / 2 ^ k < 2 ^ (b - k).
Proof.
  intros Hk Hm. apply Z.div_lt_upper_bound; [apply pow2_pos; lia |].
  rewrite <- Z.pow_add_r by lia. replace (k + (b - k)) with b by lia. exact Hm.
Qed.

Lemma Zdigits2_shift (m n : Z) : 0 <= m -> 0 <= n -> Zdigits2 (m / 2 ^ n) <= Z.max 0 (Zdigits2 m - n).
Proof.
  intros Hm Hn. destruct (Z.eq_dec m 0) as [-> | Hne].
  { rewrite Z.div_0_l by (pose proof (pow2_pos n Hn); lia).
    change (Zdigits2 0) with 0. lia. }
  pose proof (Zdigits2_bounds m ltac:(lia)) as [_ Hb].
  pose proof (Zdigits2_nonneg m) as Hd.
  destruct (Z_le_gt_dec n (Zdigits2 m)) as [Hle | Hgt].
  - apply Zdigits2_le; [lia |]. split; [apply Z.div_pos; [lia | apply pow2_pos; lia] |].
    rewrite Z.max_r by lia. apply div_pow2_upper; [lia | exact Hb].
  - rewrite Z.div_small; [change (Zdigits2 0) with 0; lia |]. split; [lia |].
    assert (2 ^ Zdigits2 m <= 2 ^ n) by (apply Z.pow_le_mono_r; lia). lia.
Qed.

Lemma Zdigits2_succ (m : Z) : 0 <= m -> Zdigits2 (m + 1) <= Zdigits2 m + 1.
Proof.
  intros Hm. destruct (Z.eq_dec m 0) as [-> | Hne]; [vm_compute; discriminate |].
  pose proof (Zdigits2_bounds m ltac:(lia)) as [_ Hb].
  pose proof (Zdigits2_nonneg m) as Hd.
  apply Zdigits2_le; [lia |]. split; [lia |].
  rewrite Z.pow_add_r by lia. change (2 ^ 1) with 2. lia.
Qed.

Lemma shift_to_below (m e B : Z) :
  0 <= m -> e <= B -> Zdigits2 m + e <= B + 53 -> -1074 <= B ->
  0 <= fst (shift_to m e)
  /\ snd (shift_to m e) <= B
  /\ Zdigits2 (fst (shift_to m e)) + snd (shift_to m e) <= Z.max (Zdigits2 m + e) (snd (shift_to m e)).
Proof.
  intros Hm He Hd HB. unfold shift_to. rewrite fexp_eq.
  set (n := Z.max (Zdigits2 m + e - 53) (-1074) - e).
  destruct (Z.ltb_spec 0 n) as [Hn | Hn]; cbn [fst snd].
  - split; [apply Z.div_pos; [lia | apply pow2_pos; lia] |].
    split; [lia |].
    pose proof (Zdigits2_shift m n Hm ltac:(lia)). lia.
  - split; [lia |]. split; lia.
Qed.

(** Rounding a mantissa that ends below position [B + 53], with [B] under
    the largest exponent, gives zero or a finite float one step higher at
    most. *)
Lemma binary_round_aux_below (s : bool) (m e : Z) (l : location) (B : Z) :
  0 <= m -> e <= B -> Zdigits2 m + e <= B + 53 -> -1074 <= B -> B + 1 <= 971 ->
  below (B + 1) (binary_round_aux prec emax s m e l).
Proof.
  intros Hm He Hd HB Hmax.
  destruct (binary_round_aux_cases s m e l Hm) as (m2 & Hm2 & _ & ->).
  destruct (shift_to_below m e B Hm He Hd HB) as (H1 & H2 & H3).
  set (m1 := fst (shift_to m e)) in *. set (e1 := snd (shift_to m e)) in *.
  assert (Hm2' : 0 <= m2 /\ Zdigits2 m2 <= Zdigits2 m1 + 1).
  { destruct Hm2 as [-> | ->]; [lia |]. split; [lia | apply Zdigits2_succ; exact H1]. }
  destruct Hm2' as [Hp Hdig].
  destruct (shift_to_below m2 e1 (B + 1) Hp ltac:(lia) ltac:(lia) ltac:(lia)) as (G1 & G2 & G3).
  unfold pack. destruct (fst (shift_to m2 e1)) as [| p | p] eqn:Hf; cbn [below]; try lia; try exact I.
  change (emax - prec) with 971.
  destruct (Z.leb_spec (snd (shift_to m2 e1)) 971) as [Hle | Hgt]; [| lia].
  cbn [below]. lia.
Qed.

Lemma div_eucl_div_mod (a b : Z) : Z.div_eucl a b = (a / b, a mod b).
Proof. unfold Z.div, Z.modulo. destruct (Z.div_eucl a b); reflexivity. Qed.

(** The quotient of two positive integers, as [SFdiv] sets it up for
    rounding. *)
Lemma SFdiv_pos (a b : positive) :
  let e' := Z.min (fexp prec emax (Zdigits2 (Zpos a) - Zdigits2 (Zpos b))) 0 in
  SFdiv prec emax (S754_finite false a 0) (S754_finite false b 0)
  = binary_round_aux prec emax false (Zpos a * 2 ^ (- e') / Zpos b) e'
      (new_location (Zpos b) ((Zpos a * 2 ^ (- e')) mod Zpos b)).
Proof.
  intros e'. unfold SFdiv, SFdiv_core_binary. cbn [xorb].
  rewrite !Z.add_0_r. change (0 - 0) with 0. fold e'.
  assert (He : e' <= 0) by (unfold e'; lia).
  replace (match 0 - e' with
           | 0 => Zpos a
           | Zpos _ => Z.shiftl (Zpos a) (0 - e')
           | Zneg _ => 0
           end) with (Zpos a * 2 ^ (- e')).
  2: { replace (0 - e') with (- e') by lia.
       destruct (- e') as [| p | p] eqn:Hs; [lia | | lia].
       now rewrite Z.shiftl_mul_pow2 by lia. }
  rewrite div_eucl_div_mod. reflexivity.
Qed.

Lemma Zdigits2_mul (x y : Z) : 0 <= x -> 0 <= y -> Zdigits2 (x * y) <= Zdigits2 x + Zdigits2 y.
Proof.
  intros Hx Hy. pose proof (Zdigits2_nonneg x). pose proof (Zdigits2_nonneg y).
  destruct (Z.eq_dec x 0) as [-> | Hx0];
    [rewrite Z.mul_0_l; change (Zdigits2 0) with 0; lia |].
  destruct (Z.eq_dec y 0) as [-> | Hy0];
    [rewrite Z.mul_0_r; change (Zdigits2 0) with 0; lia |].
  pose proof (Zdigits2_bounds x ltac:(lia)) as [_ Bx].
  pose proof (Zdigits2_bounds y ltac:(lia)) as [_ By].
  apply Zdigits2_le; [lia |]. split; [nia |].
  rewrite Z.pow_add_r by lia. nia.
Qed.

Lemma Zdigits2_div (a b s : Z) :
  0 < a -> 0 < b -> 0 <= s ->
  Zdigits2 (a * 2 ^ s / b) <= Z.max 0 (Zdigits2 a + s - Zdigits2 b + 1).
Proof.
  intros Ha Hb Hs.
  pose proof (Zdigits2_bounds a Ha) as [_ Ba].
  pose proof (Zdigits2_bounds b Hb) as [Bb _].
  pose proof (Zdigits2_nonneg a). pose proof (Zdigits2_nonneg b).
  assert (Hdb : 1 <= Zdigits2 b) by (destruct b; cbn in *; lia).
  pose proof (pow2_pos s Hs) as Ps.
  pose proof (pow2_pos (Zdigits2 b - 1) ltac:(lia)) as Pb.
  set (k := Zdigits2 a + s - Zdigits2 b + 1).
  assert (Hq : 0 <= a * 2 ^ s / b) by (apply Z.div_pos; nia).
  destruct (Z_lt_le_dec k 0) as [Hk | Hk].
  - (* the quotient is zero *)
    rewrite Z.div_small; [change (Zdigits2 0) with 0; lia |]. split; [nia |].
    assert (a * 2 ^ s < 2 ^ (Zdigits2 a + s)) by (rewrite Z.pow_add_r by lia; nia).
    assert (2 ^ (Zdigits2 a + s) <= 2 ^ (Zdigits2 b - 1)) by (apply Z.pow_le_mono_r; lia).
    lia.
  - rewrite Z.max_r by lia. apply Zdigits2_le; [lia |]. split; [lia |].
    apply Z.div_lt_upper_bound; [lia |].
    assert (a * 2 ^ s < 2 ^ (Zdigits2 a + s)) by (rewrite Z.pow_add_r by lia; nia).
    assert (2 ^ (Zdigits2 a + s) = 2 ^ (Zdigits2 b - 1) * 2 ^ k)
      by (rewrite <- Z.pow_add_r by lia; f_equal; lia).
    nia.
Qed.

(** The quotient of two positive integers is zero or finite when the
    dividend is not astronomically larger than the divisor. *)
Lemma int_truediv_below (a b B : Z) :
  0 < a -> 0 < b -> -1074 <= B -> B + 1 <= 971 ->
  Zdigits2 a - Zdigits2 b <= B + 52 ->
  exists f : spec_float, int_truediv a b = Ok f /\ below (B + 1) f.
Proof.
  intros Ha Hb HB Hmax Hd. unfold int_truediv.
  destruct (Z.eqb_spec b 0) as [-> | _]; [lia |].
  destruct a as [| a |]; try lia. destruct b as [| b |]; try lia.
  cbn [Z2SF]. rewrite SFdiv_pos. cbv zeta.
  set (e' := Z.min (fexp prec emax (Zdigits2 (Zpos a) - Zdigits2 (Zpos b))) 0).
  assert (He : e' <= 0 /\ e' <= B /\ -1074 <= e').
  { unfold e'. rewrite fexp_eq. lia. }
  pose proof (Zdigits2_div (Zpos a) (Zpos b) (- e') ltac:(lia) ltac:(lia) ltac:(lia)) as Hq.
  assert (Hq0 : 0 <= Zpos a * 2 ^ (- e') / Zpos b).
  { apply Z.div_pos; [| lia]. pose proof (pow2_pos (- e') ltac:(lia)). nia. }
  pose proof (binary_round_aux_below false (Zpos a * 2 ^ (- e') / Zpos b) e'
                (new_location (Zpos b) ((Zpos a * 2 ^ (- e')) mod Zpos b)) B
                Hq0 ltac:(lia) ltac:(lia) HB Hmax) as Hbelow.
  destruct (binary_round_aux prec emax false _ e' _) as [ | | | s m e];
    cbn [below] in Hbelow; try contradiction; cbn [SF_is_finite];
    eexists; (split; [reflexivity |]); exact Hbelow.
Qed.

Lemma SFmul_below (x y : spec_float) (Bx By : Z) :
  below Bx x -> below By y -> -1074 <= Bx + By + 53 -> Bx + By + 54 <= 971 ->
  below (Bx + By + 54) (SFmul prec emax x y).
Proof.
  intros Hx Hy HB Hmax.
  destruct x as [sx | | | sx mx ex], y as [sy | | | sy my ey];
    cbn [below] in Hx, Hy; try contradiction; cbn [SFmul below]; try exact I.
  replace (Bx + By + 54) with (Bx + By + 53 + 1) by lia.
  apply binary_round_aux_below; try lia.
  change (Zpos (mx * my)) with (Zpos mx * Zpos my).
  pose proof (Zdigits2_mul (Zpos mx) (Zpos my) ltac:(lia) ltac:(lia)). lia.
Qed.

Lemma int_of_float_below (f : spec_float) (B : Z) :
  below B f -> exists v : Z, int_of_float f = Ok v.
Proof.
  destruct f; cbn [below int_of_float]; try contradiction; intros _; eexists; reflexivity.
Qed.

(** The percentage shown after item [i] of [n] is always computed. *)
Lemma progress_percent_ok (i n : Z) :
  1 <= i <= n -> exists v : Z, progress_percent i n = Ok v.
Proof.
  intros H. unfold progress_percent.
  assert (Hd : Zdigits2 i - Zdigits2 n <= -52 + 52).
  { pose proof (Zdigits2_bounds n ltac:(lia)) as [_ Hn].
    pose proof (Zdigits2_nonneg n).
    pose proof (Zdigits2_le i (Zdigits2 n) ltac:(lia) ltac:(lia)). lia. }
  destruct (int_truediv_below i n (-52) ltac:(lia) ltac:(lia) ltac:(lia) ltac:(lia) Hd)
    as (q & -> & Hq).
  cbn [rbind].
  assert (H100 : below (-46) f100) by (cbn; lia).
  pose proof (SFmul_below q f100 (-52 + 1) (-46) Hq H100 ltac:(lia) ltac:(lia)) as Hm.
  eapply int_of_float_below. exact Hm.
Qed.

(** Rounding in the normal range: a mantissa of 53 digits or more is cut
    to 53 digits and taken as it is or one higher, and a carry into a
    54th digit is shifted out again, so that [m3 * 2 ^ (e3 - e1)] is
    the chosen mantissa at the exponent [e1] of the cut. *)
Lemma binary_round_aux_normal (s : bool) (m e : Z) (l : location) :
  53 <= Zdigits2 m -> 0 < m ->
  -1074 <= Zdigits2 m + e - 53 -> Zdigits2 m + e <= 1023 ->
  let k := Zdigits2 m - 53 in
  let e1 := e + k in
  let m1 := m / 2 ^ k in
  exists m2 m3 e3 : Z,
    (m2 = m1 \/ m2 = m1 + 1)
    /\ (l = loc_Exact -> k = 0 -> m2 = m)
    /\ binary_round_aux prec emax s m e l = S754_finite s (Z.to_pos m3) e3
    /\ 0 < m3 /\ e1 <= e3 <= e1 + 1 /\ m3 * 2 ^ (e3 - e1) = m2
    /\ 2 ^ 52 <= m1 < 2 ^ 53 /\ 2 ^ 52 <= m3 < 2 ^ 53.
Proof.
  intros Hd Hpos Hlo Hhi k e1 m1.
  destruct (binary_round_aux_cases s m e l ltac:(lia)) as (m2 & Hm2 & Hex & ->).
  assert (Hsh : shift_to m e = (m1, e1)).
  { unfold shift_to. rewrite fexp_eq.
    replace (Z.max (Zdigits2 m + e - 53) (-1074) - e) with k by (unfold k; lia).
    destruct (Z.ltb_spec 0 k) as [Hk | Hk]; [reflexivity |].
    assert (k = 0) as Hk0 by (unfold k in *; lia).
    unfold m1, e1. rewrite Hk0, Z.div_1_r, Z.add_0_r. reflexivity. }
  rewrite Hsh in *. cbn [fst snd] in *.
  pose proof (Zdigits2_bounds m Hpos) as [Blo Bhi].
  assert (Hm1 : 2 ^ 52 <= m1 < 2 ^ 53).
  { unfold m1, k. split.
    - replace 52 with (Zdigits2 m - 1 - (Zdigits2 m - 53)) by lia.
      apply div_pow2_lower; [lia | exact Blo].
    - replace 53 with (Zdigits2 m - (Zdigits2 m - 53)) at 2 by lia.
      apply div_pow2_upper; [lia | exact Bhi]. }
  assert (He1 : -1074 <= e1 <= 970) by (unfold e1, k; lia).
  exists m2.
  destruct (Z_lt_le_dec m2 (2 ^ 53)) as [Hlt | Hge].
  - (* no carry *)
    assert (Hd2 : Zdigits2 m2 = 53) by (apply Zdigits2_unique; [lia |]; change (53 - 1) with 52; lia).
    exists m2, e1.
    assert (Hs2 : shift_to m2 e1 = (m2, e1)).
    { unfold shift_to. rewrite fexp_eq, Hd2.
      replace (Z.max (53 + e1 - 53) (-1074) - e1) with 0 by lia. reflexivity. }
    rewrite Hs2. unfold pack. cbn [fst snd].
    destruct m2 as [| p |]; try lia.
    change (emax - prec) with 971.
    destruct (Z.leb_spec e1 971); [| lia].
    replace (e1 - e1) with 0 by lia. cbn [Z.to_pos].
    repeat split; try lia; try assumption.
    intros HE Hk. apply Hex; [exact HE |].
    rewrite fexp_eq. unfold k in Hk. lia.
  - (* the carry gives 2^53 *)
    assert (Hm2eq : m2 = 2 ^ 53) by lia.
    assert (Hd2 : Zdigits2 m2 = 54) by (rewrite Hm2eq; reflexivity).
    exists (2 ^ 52), (e1 + 1).
    assert (Hs2 : shift_to m2 e1 = (2 ^ 52, e1 + 1)).
    { unfold shift_to. rewrite fexp_eq, Hd2.
      replace (Z.max (54 + e1 - 53) (-1074) - e1) with 1 by lia.
      cbn [Z.ltb Z.compare]. rewrite Hm2eq. reflexivity. }
    rewrite Hs2. unfold pack. cbn [fst snd].
    change (emax - prec) with 971.
    destruct (Z.leb_spec (e1 + 1) 971); [| lia].
    replace (e1 + 1 - e1) with 1 by lia.
    repeat split; try lia; try assumption; try (rewrite Hm2eq; reflexivity).
    intros HE Hk. apply Hex; [exact HE |].
    rewrite fexp_eq. unfold k in Hk. lia.
Qed.

Lemma int_of_float_finite (s : bool) (p : positive) (e : Z) :
  e <= 0 ->
  int_of_float (S754_finite s p e) = Ok ((if s then -1 else 1) * (Zpos p / 2 ^ (- e))).
Proof.
  intros He. cbn [int_of_float]. f_equal.
  destruct e as [| q | q]; try lia.
  - rewrite Z.shiftl_0_r. change (2 ^ (- 0)) with 1. rewrite Z.div_1_r. destruct s; lia.
  - rewrite Z.shiftr_div_pow2 by lia. change (- Zneg q) with (Zpos q).
    generalize (Zpos p / 2 ^ Zpos q). intros z. destruct s; lia.
Qed.

(** [int(a / b)] is the floor quotient for a non-negative dividend below
    [2^52] and a positive divisor. *)
Lemma int_truediv_floor (a b : Z) :
  0 <= a < 2 ^ 52 -> 0 < b < 2 ^ 1000 ->
  exists f : spec_float, int_truediv a b = Ok f /\ int_of_float f = Ok (a / b).
Proof.
  intros Ha Hb. unfold int_truediv.
  destruct (Z.eqb_spec b 0) as [-> | _]; [lia |].
  destruct (Z.eq_dec a 0) as [-> | Ha0].
  { destruct b as [| b |]; try lia. eexists. split; [reflexivity |].
    rewrite Z.div_0_l by lia. reflexivity. }
  destruct a as [| a |]; try lia. destruct b as [| b |]; try lia.
  cbn [Z2SF]. rewrite SFdiv_pos. cbv zeta.
  set (d1 := Zdigits2 (Zpos a)). set (d2 := Zdigits2 (Zpos b)).
  pose proof (Zdigits2_bounds (Zpos a) ltac:(lia)) as [A1 A2]. fold d1 in A1, A2.
  pose proof (Zdigits2_bounds (Zpos b) ltac:(lia)) as [B1 B2]. fold d2 in B1, B2.
  assert (Hd1 : 1 <= d1 <= 52).
  { split; [unfold d1; cbn; lia |].
    apply Zdigits2_le; lia. }
  assert (Hd2 : 1 <= d2 <= 1000).
  { split; [unfold d2; cbn; lia |]. apply Zdigits2_le; lia. }
  rewrite fexp_eq.
  replace (Z.min (Z.max (d1 - d2 - 53) (-1074)) 0) with (d1 - d2 - 53) by lia.
  set (s := 53 + d2 - d1).
  replace (- (d1 - d2 - 53)) with s by (unfold s; lia).
  replace (d1 - d2 - 53) with (- s) by (unfold s; lia).
  set (q := Zpos a * 2 ^ s / Zpos b).
  assert (Hs : 2 <= s) by (unfold s; lia).
  pose proof (pow2_pos s ltac:(lia)) as Ps.
  assert (Hq52 : 2 ^ 52 <= q).
  { unfold q. apply Z.div_le_lower_bound; [lia |].
    assert (2 ^ (52 + d2) <= Zpos a * 2 ^ s).
    { replace (52 + d2) with (d1 - 1 + s) by (unfold s; lia).
      rewrite Z.pow_add_r by lia. nia. }
    assert (Zpos b * 2 ^ 52 < 2 ^ (52 + d2)).
    { replace (52 + d2) with (d2 + 52) by lia. rewrite Z.pow_add_r by lia.
      pose proof (pow2_pos 52 ltac:(lia)). nia. }
    lia. }
  assert (Hqpos : 0 < q) by (pose proof (pow2_pos 52 ltac:(lia)); lia).
  assert (Hdq : 53 <= Zdigits2 q <= 54).
  { split.
    - apply Zdigits2_ge; [exact Hq52 | exact Hqpos].
    - pose proof (Zdigits2_div (Zpos a) (Zpos b) s ltac:(lia) ltac:(lia) ltac:(lia)) as H.
      fold q d1 d2 in H. unfold s in H. lia. }
  destruct (binary_round_aux_normal false q (- s)
              (new_location (Zpos b) ((Zpos a * 2 ^ s) mod Zpos b))
              ltac:(lia) Hqpos ltac:(unfold s; lia) ltac:(unfold s; lia))
    as (m2 & m3 & e3 & Hm2 & _ & -> & Hm3 & He3 & Hval & _ & _).
  cbn [SF_is_finite]. eexists. split; [reflexivity |].
  set (k := Zdigits2 q - 53) in *.
  set (t := s - k).
  assert (Ht : d2 <= t) by (unfold t, s, k; lia).
  replace (- s + k) with (- t) in * by (unfold t; lia).
  rewrite int_of_float_finite by lia.
  rewrite Z2Pos.id by lia. rewrite Z.mul_1_l. f_equal.
  pose proof (pow2_pos t ltac:(lia)) as Pt.
  pose proof (pow2_pos k ltac:(unfold k; lia)) as Pk.
  (* the truncated value is the chosen mantissa over 2^t *)
  assert (Hv : m3 / 2 ^ (- e3) = m2 / 2 ^ t).
  { rewrite <- Hval.
    replace (2 ^ t) with (2 ^ (- e3) * 2 ^ (e3 - - t))
      by (rewrite <- Z.pow_add_r by lia; f_equal; lia).
    pose proof (pow2_pos (e3 - - t) ltac:(lia)).
    rewrite Z.div_mul_cancel_r by lia. reflexivity. }
  rewrite Hv.
  (* the cut mantissa is the quotient scaled by 2^t *)
  assert (Hm1 : q / 2 ^ k = Zpos a * 2 ^ t / Zpos b).
  { unfold q. rewrite Z.div_div by lia.
    replace (2 ^ s) with (2 ^ t * 2 ^ k)
      by (rewrite <- Z.pow_add_r by (unfold k; lia); f_equal; unfold t; lia).
    rewrite Z.mul_assoc. rewrite Z.div_mul_cancel_r by lia. reflexivity. }
  rewrite Hm1 in Hm2.
  assert (Hbt : Zpos b < 2 ^ t).
  { assert (2 ^ d2 <= 2 ^ t) by (apply Z.pow_le_mono_r; lia). lia. }
  pose proof (Z.div_mod (Zpos a) (Zpos b) ltac:(lia)) as Hdm.
  pose proof (Z.mod_pos_bound (Zpos a) (Zpos b) ltac:(lia)) as Hr.
  set (K := Zpos a / Zpos b) in *. set (R := Zpos a mod Zpos b) in *.
  assert (Hsplit : Zpos a * 2 ^ t / Zpos b = K * 2 ^ t + R * 2 ^ t / Zpos b).
  { rewrite Hdm at 1.
    replace ((Zpos b * K + R) * 2 ^ t) with (K * 2 ^ t * Zpos b + R * 2 ^ t) by lia.
    rewrite Z.div_add_l by lia. reflexivity. }
  set (u := R * 2 ^ t / Zpos b) in *.
  assert (Hu : 0 <= u /\ u + 1 < 2 ^ t).
  { split; [apply Z.div_pos; nia |].
    assert (u * Zpos b <= R * 2 ^ t).
    { unfold u. rewrite Z.mul_comm. apply Z.mul_div_le. lia. }
    nia. }
  rewrite Hsplit in Hm2.
  destruct Hm2 as [-> | ->].
  - rewrite Z.div_add_l by lia. rewrite Z.div_small by lia. lia.
  - replace (K * 2 ^ t + u + 1) with (K * 2 ^ t + (u + 1)) by lia.
    rewrite Z.div_add_l by lia. rewrite Z.div_small by lia. lia.
Qed.

(** ** Batch export *)

Lemma with_node_cwd (w : World) (q : string) (n : node) : cwd (with_node w q n) = cwd w.
Proof. reflexivity. Qed.

Lemma Image_save_cwd (im : Image.t) (p format : string) (options : list (string * Z))
    (w : World) :
  cwd (snd (Image_save im p format options w)) = cwd w.
Proof.
  unfold Image_save.
  destruct (lookup_node w (dirname (abspath w p))) as [[| ?] |]; try reflexivity.
  destruct (lookup_node w (abspath w p)) as [[| ?] |]; try reflexivity;
    destruct (disk_full w); try reflexivity;
    destruct (mem_string _ _); reflexivity.
Qed.

Lemma export_image_cwd (lib : Pillow) (img : Image.t) (src_path export_dir : string)
    (rule : ExportRule.t) (w : World) :
  cwd (snd (export_image lib img src_path export_dir rule w)) = cwd w.
Proof.
  unfold export_image. run_io.
  pose proof (makedirs_cwd export_dir w) as Hmk.
  destruct (makedirs export_dir w) as [[[] | e] w1]; cbn [snd] in Hmk; [| exact Hmk].
  destruct (apply_resize lib img rule) as [final_img | e]; [| exact Hmk].
  match goal with
  | |- cwd (snd (match ?s w1 with _ => _ end)) = _ =>
      assert (Hs : cwd (snd (s w1)) = cwd w1)
        by (destruct (String.eqb _ "JPEG"); apply Image_save_cwd);
      destruct (s w1) as [[[] | e] w2]; cbn [snd] in *; congruence
  end.
Qed.

Lemma export_one_cwd (lib : Pillow) (export_dir : string) (cfg : WatermarkConfig.t)
    (p : string) (w : World) :
  cwd (snd (export_one lib export_dir cfg p w)) = cwd w.
Proof.
  unfold export_one. run_io.
  pose proof (apply_watermark_once_world lib p cfg w) as Hw.
  destruct (apply_watermark_once lib p cfg w) as [[im | e] w1]; cbn [snd] in Hw; subst w1;
    [apply export_image_cwd | reflexivity].
Qed.

Lemma in_export_dir_cwd (w w' : World) (export_dir p : string) :
  cwd w' = cwd w -> in_export_dir w' export_dir p = in_export_dir w export_dir p.
Proof. unfold in_export_dir, abspath. now intros ->. Qed.

(** The loop, unfolded one round, in terms of [export_one]. *)
Lemma export_items_cons (lib : Pillow) (export_dir : string) (cfg : WatermarkConfig.t)
    (n i : Z) (p : string) (rest : list string) (w : World) :
  export_items lib export_dir cfg n i (p :: rest) w =
    if in_export_dir w export_dir p then
      let '(evs, r, w') := export_items lib export_dir cfg n (i + 1) rest w in
      (WarningSourceDir (basename p) (dirname p) :: evs, r, w')
    else
      let '(tried, w1) := export_one lib export_dir cfg p w in
      let printed := match tried with
                     | Ok _ => []
                     | Raise e => [PrintExportFailed p e]
                     end in
      match progress_percent i n with
      | Ok v =>
          let '(evs, r, w') := export_items lib export_dir cfg n (i + 1) rest w1 in
          (printed ++ ProgressSetValue v :: evs, r, w')
      | Raise e => (printed, Raise e, w1)
      end.
Proof. reflexivity. Qed.

(** What a run of the loop comes to, for items numbered within [1..n]:
    it ends normally; the warnings are those of the guarded items, in
    order; the failures printed are those of the unguarded items whose
    processing raised; every unguarded item sets the progress bar once;
    and the world is the one the unguarded items leave, one after the
    other. *)
Lemma export_items_run (lib : Pillow) (export_dir : string) (cfg : WatermarkConfig.t)
    (n : Z) (paths : list string) (i : Z) (w : World) :
  1 <= i -> i + Z.of_nat (List.length paths) - 1 <= n ->
  let '(evs, r, w') := export_items lib export_dir cfg n i paths w in
  r = Ok tt
  /\ List.filter is_warning evs
     = map (fun p => WarningSourceDir (basename p) (dirname p))
         (List.filter (in_export_dir w export_dir) paths)
  /\ List.filter is_failure evs = batch_failures lib export_dir cfg paths w
  /\ List.length (List.filter is_progress evs)
     = List.length (List.filter (fun p => negb (in_export_dir w export_dir p)) paths)
  /\ w' = fold_left (fun w0 p => snd (export_one lib export_dir cfg p w0))
            (List.filter (fun p => negb (in_export_dir w export_dir p)) paths) w
  /\ cwd w' = cwd w.
Proof.
  revert i w. induction paths as [| p rest IH]; intros i w Hi Hn.
  { cbn. repeat split. }
  rewrite export_items_cons. cbn [List.length] in Hn.
  cbn [List.filter batch_failures].
  destruct (in_export_dir w export_dir p) eqn:Hg; cbn [negb].
  - specialize (IH (i + 1) w ltac:(lia) ltac:(lia)).
    destruct (export_items lib export_dir cfg n (i + 1) rest w) as [[evs r] w'].
    destruct IH as (Hr & Hwarn & Hfail & Hprog & Hw & Hc).
    cbn [List.filter is_warning is_failure is_progress map].
    repeat split; try assumption. now rewrite Hwarn.
  - pose proof (export_one_cwd lib export_dir cfg p w) as Hcwd.
    destruct (export_one lib export_dir cfg p w) as [tried w1] eqn:Hone. cbn [snd] in Hcwd.
    destruct (progress_percent_ok i n ltac:(lia)) as [v ->].
    specialize (IH (i + 1) w1 ltac:(lia) ltac:(lia)).
    destruct (export_items lib export_dir cfg n (i + 1) rest w1) as [[evs r] w'].
    destruct IH as (Hr & Hwarn & Hfail & Hprog & Hw & Hc).
    assert (Hsame : forall q, in_export_dir w1 export_dir q = in_export_dir w export_dir q)
      by (intros q; now apply in_export_dir_cwd).
    rewrite (List.filter_ext _ _ Hsame) in Hwarn.
    rewrite (List.filter_ext (fun q => negb (in_export_dir w1 export_dir q))
               (fun q => negb (in_export_dir w export_dir q))) in Hprog, Hw
      by (intros q; now rewrite Hsame).
    rewrite !List.filter_app. cbn [List.filter is_warning is_failure is_progress].
    cbn [fold_left List.length]. rewrite Hone. cbn [snd].
    repeat split; try assumption; try congruence.
    + destruct tried; cbn [List.filter is_warning app]; exact Hwarn.
    + destruct tried; cbn [List.filter is_failure app]; [exact Hfail | now rewrite Hfail].
    + destruct tried; cbn [List.filter is_progress app List.length]; now rewrite Hprog.
Qed.

Lemma on_export_all_run (lib : Pillow) (paths : list string) (export_dir : string)
    (cfg : WatermarkConfig.t) (w : World) :
  let '(evs, r, w') := on_export_all lib paths export_dir cfg w in
  r = Ok tt
  /\ List.filter is_warning evs
     = map (fun p => WarningSourceDir (basename p) (dirname p))
         (List.filter (in_export_dir w export_dir) paths)
  /\ List.filter is_failure evs = batch_failures lib export_dir cfg paths w
  /\ List.length (List.filter is_progress evs)
     = List.length (List.filter (fun p => negb (in_export_dir w export_dir p)) paths)
  /\ w' = fold_left (fun w0 p => snd (export_one lib export_dir cfg p w0))
            (List.filter (fun p => negb (in_export_dir w export_dir p)) paths) w
  /\ (paths <> [] ->
      List.last evs InformationNoImages = InformationDone (Z.of_nat (List.length paths))).
Proof.
  unfold on_export_all. destruct paths as [| p rest] eqn:Hp.
  { cbn. repeat split. congruence. }
  rewrite <- Hp. clear Hp.
  pose proof (export_items_run lib export_dir cfg (Z.of_nat (List.length paths)) paths 1 w
                ltac:(lia) ltac:(lia)) as Hrun.
  destruct (export_items lib export_dir cfg _ 1 paths w) as [[evs r] w'].
  destruct Hrun as (-> & Hwarn & Hfail & Hprog & Hw & _).
  rewrite !List.filter_app. cbn [List.filter is_warning is_failure is_progress].
  rewrite !app_nil_r. repeat split; try assumption.
  intros _. apply List.last_last.
Qed.

(** C9. In every batch, each image whose own directory is the export
    directory (compared as absolute paths) gets a warning and nothing
    else: the warnings shown are exactly those of the guarded images, in
    order, and the files written are those the other images write, each of
    which is processed in turn and sets the progress bar; the batch itself
    always runs to its end. *)
Theorem export_guard_skips_item (lib : Pillow) (paths : list string) (export_dir : string)
    (cfg : WatermarkConfig.t) (w : World) :
  let guarded := in_export_dir w export_dir in
  let '(evs, r, w') := on_export_all lib paths export_dir cfg w in
  r = Ok tt
  /\ List.filter is_warning evs
     = map (fun p => WarningSourceDir (basename p) (dirname p)) (List.filter guarded paths)
  /\ List.length (List.filter is_progress evs)
     = List.length (List.filter (fun p => negb (guarded p)) paths)
  /\ w' = fold_left (fun w0 p => snd (export_one lib export_dir cfg p w0))
            (List.filter (fun p => negb (guarded p)) paths) w.
Proof.
  intros guarded. pose proof (on_export_all_run lib paths export_dir cfg w) as H.
  destruct (on_export_all lib paths export_dir cfg w) as [[evs r] w'].
  destruct H as (Hr & Hwarn & _ & Hprog & Hw & _). auto.
Qed.

(** A batch of three photos exported into the folder the first and the
    last one live in: two warnings, one file. *)
Lemma export_guard_example :
  let '(evs, r, w') :=
    on_export_all sample_lib ["/photos/a.png"; "/app/b.png"; "/photos/b.jpg"]
      "/photos" plain_config
      (with_node studio "/app/b.png" (File (Picture "PNG" opaque_rgb []))) in
  evs = [ WarningSourceDir "a.png" "/photos"; ProgressSetValue 66;
          WarningSourceDir "b.jpg" "/photos"; InformationDone 3 ]
  /\ r = Ok tt
  /\ fs w' !! "/photos/b.png" = Some (File (Picture "PNG" opaque_rgb []))
  /\ fs w' !! "/photos/a.png" = fs studio !! "/photos/a.png"
  /\ fs w' !! "/photos/b.jpg" = fs studio !! "/photos/b.jpg".
Proof. vm_compute. repeat split. Qed.



(** ** The resize policy *)

Lemma pos_iter_xO (p d : positive) : Zpos (Pos.iter xO p d) = Zpos p * 2 ^ Zpos d.
Proof.
  induction d as [| d IH] using Pos.peano_ind.
  - cbn [Pos.iter]. change (2 ^ 1) with 2. lia.
  - rewrite Pos.iter_succ. change (Zpos (Pos.iter xO p d)~0) with (2 * Zpos (Pos.iter xO p d)).
    rewrite IH, Pos2Z.inj_succ, Z.pow_succ_r by lia. lia.
Qed.

(** [float(z)] is exact for a positive integer below [2^53]: the mantissa
    is [z] shifted up to 53 digits. *)
Lemma float_of_int_exact (z : Z) :
  0 < z < 2 ^ 53 ->
  float_of_int z
  = Ok (S754_finite false (Z.to_pos (z * 2 ^ (53 - Zdigits2 z))) (Zdigits2 z - 53))
  /\ 2 ^ 52 <= z * 2 ^ (53 - Zdigits2 z) < 2 ^ 53
  /\ 1 <= Zdigits2 z <= 53.
Proof.
  intros Hz. destruct z as [| p |]; try lia.
  pose proof (Zdigits2_bounds (Zpos p) ltac:(lia)) as [Blo Bhi].
  set (d := Zdigits2 (Zpos p)) in *.
  assert (Hd : 1 <= d <= 53).
  { split; [unfold d; cbn; lia |]. apply Zdigits2_le; lia. }
  pose proof (pow2_pos (53 - d) ltac:(lia)) as Pd.
  assert (Hmz : 2 ^ 52 <= Zpos p * 2 ^ (53 - d) < 2 ^ 53).
  { split.
    - replace 52 with (d - 1 + (53 - d)) by lia. rewrite Z.pow_add_r by lia. nia.
    - replace 53 with (d + (53 - d)) at 2 by lia. rewrite Z.pow_add_r by lia. nia. }
  split; [| split; [exact Hmz | exact Hd]].
  unfold float_of_int. cbn [binary_normalize]. unfold binary_round, shl_align.
  change (Zpos (digits2_pos p)) with d. rewrite Z.add_0_r, fexp_eq.
  replace (Z.max (d - 53) (-1074) - 0) with (d - 53) by lia.
  replace (Z.max (d - 53) (-1074)) with (d - 53) by lia.
  set (mz := Zpos p * 2 ^ (53 - d)) in *.
  assert (Hal : (let '(m0, e0) := match d - 53 with
                                  | Zneg k => (Pos.iter xO p k, d - 53)
                                  | _ => (p, 0)
                                  end in (Zpos m0, e0)) = (mz, d - 53)).
  { destruct (d - 53) as [| k | k] eqn:Hk; try lia.
    - unfold mz. replace (53 - d) with 0 by lia. f_equal. lia.
    - rewrite pos_iter_xO. unfold mz. replace (53 - d) with (Zpos k) by lia. reflexivity. }
  destruct (match d - 53 with
            | Zneg k => (Pos.iter xO p k, d - 53)
            | _ => (p, 0)
            end) as [m0 e0].
  injection Hal as Hm0 He0. rewrite Hm0, He0.
  assert (Hdm : Zdigits2 mz = 53) by (apply Zdigits2_unique; [lia | exact Hmz]).
  destruct (binary_round_aux_normal false mz (d - 53) loc_Exact
              ltac:(lia) ltac:(lia) ltac:(lia) ltac:(lia))
    as (m2 & m3 & e3 & _ & Hex & -> & Hm3 & He3 & Hval & _ & Hr3).
  rewrite Hdm in *. replace (d - 53 + (53 - 53)) with (d - 53) in * by lia.
  specialize (Hex eq_refl eq_refl). subst m2.
  assert (e3 = d - 53).
  { destruct (Z.eq_dec e3 (d - 53)) as [| Hne]; [assumption |].
    exfalso. replace (e3 - (d - 53)) with 1 in Hval by lia. change (2 ^ 1) with 2 in Hval. lia. }
  subst e3. replace (d - 53 - (d - 53)) with 0 in Hval by lia.
  change (2 ^ 0) with 1 in Hval. rewrite Z.mul_1_r in Hval. subst m3.
  reflexivity.
Qed.

(** The error budget of [int(dim * (value / 100.0))]: the quotient is
    held to one unit of [1 / (A * B * C)], the product to one unit of
    [1 / A]; together they stay under a hundredth. *)
Lemma percent_arith (w v E m1 M m3 m1' m2' tw A B C : Z) :
  0 < w < 2 ^ 24 -> 0 < v ->
  1024 <= A -> 0 < B -> 0 < C -> 2 ^ 35 <= A * B * C ->
  100 * m1 <= v * (A * B * C) < 100 * m1 + 100 ->
  (M = m1 \/ M = m1 + 1) -> m3 * C = M ->
  B * m1' <= w * m3 < B * (m1' + 1) ->
  (m2' = m1' \/ m2' = m1' + 1) ->
  A * tw <= m2' < A * (tw + 1) ->
  100 * E <= w * v < 100 * E + 100 ->
  E - 1 <= tw <= E /\ (100 * E < w * v -> tw = E).
Proof.
  intros Hw Hv HA HB HC HOm Hq HM Hm3 Hp Hm2 Ht HE.
  change (2 ^ 35) with 34359738368 in HOm. change (2 ^ 24) with 16777216 in Hw.
  assert (HQ : 0 < B * C) by (apply Z.mul_pos_pos; lia).
  assert (HO : 0 < A * B * C) by lia.
  (* the quotient, times [w] *)
  assert (H1 : v * (A * B * C) - 100 <= 100 * M <= v * (A * B * C) + 100)
    by (destruct HM as [-> | ->]; lia).
  assert (Ha1 : w * (v * (A * B * C) - 100) <= w * (100 * M))
    by (apply Z.mul_le_mono_nonneg_l; lia).
  assert (Ha2 : w * (100 * M) <= w * (v * (A * B * C) + 100))
    by (apply Z.mul_le_mono_nonneg_l; lia).
  (* the product, rounded *)
  assert (Hb1 : C * (B * m1') <= C * (w * m3)) by (apply Z.mul_le_mono_nonneg_l; lia).
  assert (Hb2 : C * (w * m3 + 1) <= C * (B * (m1' + 1)))
    by (apply Z.mul_le_mono_nonneg_l; lia).
  assert (Hb : B * C * m2' - B * C <= w * M <= B * C * m2' + B * C)
    by (subst M; destruct Hm2 as [-> | ->]; lia).
  (* the truncation *)
  assert (Hc1 : B * C * (A * tw) <= B * C * m2') by (apply Z.mul_le_mono_nonneg_l; lia).
  assert (Hc2 : B * C * (m2' + 1) <= B * C * (A * (tw + 1)))
    by (apply Z.mul_le_mono_nonneg_l; lia).
  assert (Hs1 : 1024 * (B * C) <= A * (B * C)) by (apply Z.mul_le_mono_nonneg_r; lia).
  assert (Hsmall : 100 * w + 100 * (B * C) < A * B * C) by lia.
  assert (He1 : A * B * C * (100 * E) <= A * B * C * (w * v))
    by (apply Z.mul_le_mono_nonneg_l; lia).
  assert (He2 : A * B * C * (w * v) <= A * B * C * (100 * E + 99))
    by (apply Z.mul_le_mono_nonneg_l; lia).
  assert (Hup : tw <= E).
  { destruct (Z_le_gt_dec tw E) as [| Hgt]; [assumption | exfalso].
    assert (A * B * C * (E + 1) <= A * B * C * tw) by (apply Z.mul_le_mono_nonneg_l; lia).
    lia. }
  assert (Hlo : E - 1 <= tw).
  { destruct (Z_le_gt_dec (E - 1) tw) as [| Hgt]; [assumption | exfalso].
    assert (A * B * C * (tw + 1) <= A * B * C * (E - 1))
      by (apply Z.mul_le_mono_nonneg_l; lia).
    lia. }
  split; [lia |]. intros Hex.
  destruct (Z_le_gt_dec E tw) as [| Hgt]; [lia | exfalso].
  assert (A * B * C * (tw + 1) <= A * B * C * E) by (apply Z.mul_le_mono_nonneg_l; lia).
  assert (A * B * C * (100 * E + 1) <= A * B * C * (w * v))
    by (apply Z.mul_le_mono_nonneg_l; lia).
  lia.
Qed.

(** The quotient of two positive finite floats, as [SFdiv] sets it up for
    rounding. *)
Lemma SFdiv_finite (mx my : positive) (ex ey : Z) :
  let e' := Z.min (fexp prec emax (Zdigits2 (Zpos mx) + ex - (Zdigits2 (Zpos my) + ey)))
                  (ex - ey) in
  let s := ex - ey - e' in
  SFdiv prec emax (S754_finite false mx ex) (S754_finite false my ey)
  = binary_round_aux prec emax false (Zpos mx * 2 ^ s / Zpos my) e'
      (new_location (Zpos my) ((Zpos mx * 2 ^ s) mod Zpos my)).
Proof.
  intros e' s. unfold SFdiv, SFdiv_core_binary. cbn [xorb]. fold e'. fold s.
  assert (Hs : 0 <= s) by (unfold s, e'; lia).
  replace (match s with
           | 0 => Zpos mx
           | Zpos _ => Z.shiftl (Zpos mx) s
           | Zneg _ => 0
           end) with (Zpos mx * 2 ^ s).
  2: { destruct s as [| p | p] eqn:E; [lia | | lia].
       now rewrite Z.shiftl_mul_pow2 by lia. }
  rewrite div_eucl_div_mod. reflexivity.
Qed.

(** [value / 100.0] for a positive value below [2^24]: a normal float
    [m3 * 2^e3] whose mantissa, brought to the binary position [T], is the
    floor of [value * 2^T / 100] or the next integer. *)
Lemma percent_scale (v : Z) :
  0 < v < 2 ^ 24 ->
  exists (fv : spec_float) (m3 e3 m1 M T c : Z),
    float_of_int v = Ok fv
    /\ float_truediv fv f100 = Ok (S754_finite false (Z.to_pos m3) e3)
    /\ 2 ^ 52 <= m3 < 2 ^ 53 /\ 35 <= T <= 59 /\ 0 <= c <= 1 /\ e3 = c - T
    /\ 100 * m1 <= v * 2 ^ T < 100 * m1 + 100
    /\ (M = m1 \/ M = m1 + 1) /\ m3 * 2 ^ c = M.
Proof.
  intros Hv.
  assert (Hv53 : 0 < v < 2 ^ 53) by (change (2 ^ 24) with 16777216 in Hv;
                                     change (2 ^ 53) with 9007199254740992; lia).
  destruct (float_of_int_exact v Hv53) as (Hfv & Hmv & Hdv).
  set (dv := Zdigits2 v) in *. set (mv := v * 2 ^ (53 - dv)) in *.
  assert (Hdv24 : dv <= 24) by (apply Zdigits2_le; lia).
  eexists. rewrite Hfv.
  unfold float_truediv, f100.
  pose proof (SFdiv_finite (Z.to_pos mv) 7036874417766400 (dv - 53) (-46)) as Hdiv.
  cbv zeta in Hdiv. rewrite Z2Pos.id in Hdiv by lia.
  assert (Hdm : Zdigits2 mv = 53) by (apply Zdigits2_unique; [lia | exact Hmv]).
  rewrite Hdm in Hdiv. change (Zdigits2 7036874417766400) with 53 in Hdiv.
  rewrite fexp_eq in Hdiv.
  replace (Z.min (Z.max (53 + (dv - 53) - (53 + -46) - 53) (-1074)) (dv - 53 - -46))
    with (dv - 60) in Hdiv by lia.
  replace (dv - 53 - -46 - (dv - 60)) with 53 in Hdiv by lia.
  set (x := v * 2 ^ (60 - dv)).
  assert (Hx : 2 ^ 59 <= x < 2 ^ 60).
  { pose proof (Zdigits2_bounds v ltac:(lia)) as [Blo Bhi]. fold dv in Blo, Bhi.
    pose proof (pow2_pos (60 - dv) ltac:(lia)) as P.
    unfold x. split.
    - replace 59 with (dv - 1 + (60 - dv)) by lia. rewrite Z.pow_add_r by lia.
      apply Z.mul_le_mono_nonneg_r; lia.
    - replace 60 with (dv + (60 - dv)) at 2 by lia. rewrite Z.pow_add_r by lia.
      apply Z.mul_lt_mono_pos_r; lia. }
  assert (Hq : mv * 2 ^ 53 / 7036874417766400 = x / 100).
  { change 7036874417766400 with (100 * 2 ^ 46).
    replace (mv * 2 ^ 53) with (x * 2 ^ 46).
    - apply Z.div_mul_cancel_r; [lia | apply Z.pow_nonzero; lia].
    - unfold mv, x. replace (60 - dv) with (53 - dv + 7) by lia.
      rewrite Z.pow_add_r by lia.
      change (2 ^ 53) with (2 ^ 7 * 2 ^ 46). ring. }
  rewrite Hq in Hdiv. rewrite Hdiv. clear Hdiv.
  set (q := x / 100) in *.
  change (2 ^ 59) with 576460752303423488 in Hx.
  change (2 ^ 60) with 1152921504606846976 in Hx.
  assert (Hqb : 2 ^ 52 <= q < 2 ^ 54).
  { change (2 ^ 52) with 4503599627370496. change (2 ^ 54) with 18014398509481984.
    unfold q. split.
    - apply Z.div_le_lower_bound; lia.
    - apply Z.div_lt_upper_bound; lia. }
  assert (Hdq : Zdigits2 q = 53 \/ Zdigits2 q = 54).
  { destruct (Z_lt_le_dec q (2 ^ 53)).
    - left. apply Zdigits2_unique; [lia |]. change (53 - 1) with 52. lia.
    - right. apply Zdigits2_unique; [lia |]. change (54 - 1) with 53. lia. }
  assert (Hqpos : 0 < q) by (change (2 ^ 52) with 4503599627370496 in Hqb; lia).
  match goal with
  | |- context [binary_round_aux prec emax false q (dv - 60) ?l] =>
      destruct (binary_round_aux_normal false q (dv - 60) l
                  ltac:(lia) Hqpos ltac:(lia) ltac:(lia))
        as (m2 & m3 & e3 & Hm2 & _ & -> & Hm3 & He3 & Hval & _ & Hm3b)
  end.
  set (k := Zdigits2 q - 53) in *.
  exists m3, e3, (q / 2 ^ k), m2, (60 - dv - k), (e3 - (dv - 60 + k)).
  assert (Hmod : 100 * q <= x < 100 * q + 100).
  { unfold q. pose proof (Z.mul_div_le x 100 ltac:(lia)).
    pose proof (Z.mul_succ_div_gt x 100 ltac:(lia)). lia. }
  repeat split; try lia; try assumption.
  - (* the floor, at position [T] *)
    destruct Hdq as [Hd | Hd]; unfold k; rewrite Hd.
    + change (53 - 53) with 0. rewrite Z.div_1_r, Z.sub_0_r. fold x. lia.
    + change (54 - 53) with 1. change (2 ^ 1) with 2.
      assert (Hx2 : x = 2 * (v * 2 ^ (60 - dv - 1))).
      { unfold x. replace (60 - dv) with (60 - dv - 1 + 1) at 1 by lia.
        rewrite Z.pow_add_r by lia. change (2 ^ 1) with 2. ring. }
      pose proof (Z.mul_div_le q 2 ltac:(lia)).
      pose proof (Z.mul_succ_div_gt q 2 ltac:(lia)). lia.
  - destruct Hdq as [Hd | Hd]; unfold k; rewrite Hd.
    + change (53 - 53) with 0. rewrite Z.div_1_r, Z.sub_0_r. fold x. lia.
    + change (54 - 53) with 1. change (2 ^ 1) with 2.
      assert (Hx2 : x = 2 * (v * 2 ^ (60 - dv - 1))).
      { unfold x. replace (60 - dv) with (60 - dv - 1 + 1) at 1 by lia.
        rewrite Z.pow_add_r by lia. change (2 ^ 1) with 2. ring. }
      pose proof (Z.mul_div_le q 2 ltac:(lia)).
      pose proof (Z.mul_succ_div_gt q 2 ltac:(lia)). lia.
Qed.

(** [int(dim * scale)] for a dimension below [2^24] and a normal scale
    factor [m3 * 2^e3]: the product is cut to 53 digits at the binary
    position [J], rounded, and truncated at the binary point, [A] places
    further up. *)
Lemma scaled_dimension (w m3 e3 : Z) :
  0 < w < 2 ^ 24 -> 2 ^ 52 <= m3 < 2 ^ 53 -> -59 <= e3 <= -34 ->
  exists (f : spec_float) (tw m1' m2' J A : Z),
    int_mul_float w (S754_finite false (Z.to_pos m3) e3) = Ok f
    /\ int_of_float f = Ok tw
    /\ 0 <= J /\ 10 <= A /\ A + J = - e3
    /\ 2 ^ J * m1' <= w * m3 < 2 ^ J * (m1' + 1)
    /\ (m2' = m1' \/ m2' = m1' + 1)
    /\ 2 ^ A * tw <= m2' < 2 ^ A * (tw + 1).
Proof.
  intros Hw Hm3 He3.
  assert (Hw53 : 0 < w < 2 ^ 53) by (change (2 ^ 24) with 16777216 in Hw;
                                     change (2 ^ 53) with 9007199254740992; lia).
  destruct (float_of_int_exact w Hw53) as (Hfw & Hmw & Hdw).
  set (dw := Zdigits2 w) in *. set (P := 2 ^ (53 - dw)) in *.
  assert (Hdw24 : dw <= 24) by (apply Zdigits2_le; lia).
  assert (HP : 0 < P) by (apply pow2_pos; lia).
  assert (Hm3pos : 0 < m3) by (change (2 ^ 52) with 4503599627370496 in Hm3; lia).
  assert (Hmwpos : 0 < w * P) by (apply Z.mul_pos_pos; lia).
  unfold int_mul_float. rewrite Hfw. cbn [rbind SFmul xorb].
  rewrite Pos2Z.inj_mul, !Z2Pos.id by lia.
  set (m := w * P * m3).
  assert (Hmb : 2 ^ 104 <= m < 2 ^ 106).
  { unfold m. split.
    - change (2 ^ 104) with (2 ^ 52 * 2 ^ 52). apply Z.mul_le_mono_nonneg; lia.
    - change (2 ^ 106) with (2 ^ 53 * 2 ^ 53). apply Z.mul_lt_mono_nonneg; lia. }
  assert (Hmpos : 0 < m) by (unfold m; apply Z.mul_pos_pos; lia).
  assert (Hdm : Zdigits2 m = 105 \/ Zdigits2 m = 106).
  { destruct (Z_lt_le_dec m (2 ^ 105)).
    - left. apply Zdigits2_unique; [lia |]. change (105 - 1) with 104. lia.
    - right. apply Zdigits2_unique; [lia |]. change (106 - 1) with 105. lia. }
  destruct (binary_round_aux_normal false m (dw - 53 + e3) loc_Exact
              ltac:(lia) Hmpos ltac:(lia) ltac:(lia))
    as (m2 & mr & er & Hm2 & _ & -> & Hmr & Her & Hval & _ & _).
  set (k := Zdigits2 m - 53) in *.
  assert (Hk : 52 <= k <= 53) by (unfold k; lia).
  exists (S754_finite false (Z.to_pos mr) er),
    (mr / 2 ^ (- er)), (m / 2 ^ k), m2, (k - (53 - dw)), (- (dw - 53 + e3 + k)).
  split; [reflexivity |].
  split; [rewrite int_of_float_finite by lia; now rewrite Z2Pos.id, Z.mul_1_l by lia |].
  split; [lia |]. split; [lia |]. split; [lia |].
  split; [| split; [exact Hm2 |]].
  - (* the cut of the product *)
    set (J := k - (53 - dw)).
    assert (H2k : 2 ^ k = P * 2 ^ J).
    { unfold P, J. rewrite <- Z.pow_add_r by lia. f_equal. lia. }
    pose proof (pow2_pos k ltac:(lia)) as Pk.
    pose proof (Z.mul_div_le m (2 ^ k) Pk) as L1.
    pose proof (Z.mul_succ_div_gt m (2 ^ k) Pk) as L2.
    rewrite H2k in L1, L2. rewrite H2k.
    set (m1' := m / (P * 2 ^ J)) in *.
    split.
    + apply (Z.mul_le_mono_pos_l _ _ P HP).
      replace (P * (w * m3)) with m by (unfold m; ring). lia.
    + apply (Z.mul_lt_mono_pos_l P _ _ HP).
      replace (P * (w * m3)) with m by (unfold m; ring).
      unfold Z.succ in L2. lia.
  - (* the truncation *)
    set (e1 := dw - 53 + e3 + k) in *.
    destruct (Z.eq_dec er e1) as [-> | Hne].
    + replace (e1 - e1) with 0 in Hval by lia. change (2 ^ 0) with 1 in Hval.
      rewrite Z.mul_1_r in Hval. subst mr.
      pose proof (pow2_pos (- e1) ltac:(lia)) as Pa.
      pose proof (Z.mul_div_le m2 (2 ^ (- e1)) Pa).
      pose proof (Z.mul_succ_div_gt m2 (2 ^ (- e1)) Pa). lia.
    + assert (er = e1 + 1) by lia. subst er.
      replace (e1 + 1 - e1) with 1 in Hval by lia. change (2 ^ 1) with 2 in Hval.
      assert (H2a : 2 ^ (- e1) = 2 * 2 ^ (- (e1 + 1))).
      { replace (- e1) with (1 + - (e1 + 1)) at 1 by lia.
        rewrite Z.pow_add_r by lia. reflexivity. }
      rewrite H2a.
      pose proof (pow2_pos (- (e1 + 1)) ltac:(lia)) as Pa.
      set (PA := 2 ^ (- (e1 + 1))) in *.
      pose proof (Z.mul_div_le mr PA Pa).
      pose proof (Z.mul_succ_div_gt mr PA Pa).
      set (tw := mr / PA) in *.
      replace (2 * PA * tw) with (2 * (PA * tw)) by ring.
      replace (2 * PA * (tw + 1)) with (2 * (PA * Z.succ tw)) by (unfold Z.succ; ring).
      lia.
Qed.

(** One dimension under [by_percent], for a dimension and a percentage
    below [2^24]: the floor of [dim * value / 100], or one less; the floor
    itself whenever [dim * value] is not a multiple of 100. *)
Lemma scaled_by_percent_spec (dim value : Z) :
  0 < dim < 2 ^ 24 -> 0 < value < 2 ^ 24 ->
  exists t : Z,
    scaled_by_percent dim value = Ok t
    /\ dim * value / 100 - 1 <= t <= dim * value / 100
    /\ ((dim * value) mod 100 <> 0 -> t = dim * value / 100).
Proof.
  intros Hd Hv.
  destruct (percent_scale value Hv)
    as (fv & m3 & e3 & m1 & M & T & c & Hfv & Hdiv & Hm3 & HT & Hc & He3 & Hq & HM & HmC).
  destruct (scaled_dimension dim m3 e3 Hd Hm3 ltac:(lia))
    as (f & tw & m1' & m2' & J & A & Hmul & Hint & HJ & HA & HAJ & Hcut & Hm2 & Htr).
  exists tw. unfold scaled_by_percent. rewrite Hfv. cbn [rbind]. rewrite Hdiv. cbn [rbind].
  rewrite Hmul. cbn [rbind]. split; [exact Hint |].
  assert (HOm : 2 ^ A * 2 ^ J * 2 ^ c = 2 ^ T).
  { rewrite <- !Z.pow_add_r by lia. f_equal. lia. }
  assert (H1024 : 1024 <= 2 ^ A).
  { change 1024 with (2 ^ 10). apply Z.pow_le_mono_r; lia. }
  assert (H35 : 2 ^ 35 <= 2 ^ A * 2 ^ J * 2 ^ c).
  { rewrite HOm. apply Z.pow_le_mono_r; lia. }
  rewrite <- HOm in Hq.
  pose proof (Z.mul_div_le (dim * value) 100 ltac:(lia)) as E1.
  pose proof (Z.mul_succ_div_gt (dim * value) 100 ltac:(lia)) as E2.
  destruct (percent_arith dim value (dim * value / 100) m1 M m3 m1' m2' tw
              (2 ^ A) (2 ^ J) (2 ^ c) Hd ltac:(lia) H1024
              (pow2_pos J HJ) (pow2_pos c ltac:(lia)) H35 Hq HM HmC Hcut Hm2 Htr
              ltac:(unfold Z.succ in E2; lia)) as [Hb Hex].
  split; [exact Hb |]. intros Hmod. apply Hex.
  pose proof (Z.div_mod (dim * value) 100 ltac:(lia)).
  pose proof (Z.mod_pos_bound (dim * value) 100 ltac:(lia)). lia.
Qed.

Lemma apply_resize_by_width (lib : Pillow) (img : Image.t) (rule : ExportRule.t)
    (q : spec_float) (t : Z) :
  ExportRule.resize_mode rule = "by_width" ->
  int_truediv (Image.height img * Z.max 1 (ExportRule.resize_value rule)) (Image.width img)
    = Ok q ->
  int_of_float q = Ok t ->
  apply_resize lib img rule
  = Image_resize lib img (Z.max 1 (ExportRule.resize_value rule), Z.max 1 t).
Proof.
  intros Hm Hq Ht. unfold apply_resize. rewrite Hm.
  unfold Image.height, Image.width in Hq. destruct (Image.size img) as [w h].
  cbn [fst snd] in Hq. change (String.eqb "by_width" "none") with false.
  change (String.eqb "by_width" "by_width") with true. cbv iota.
  rewrite Hq. cbn [rbind]. rewrite Ht. reflexivity.
Qed.

Lemma apply_resize_by_height (lib : Pillow) (img : Image.t) (rule : ExportRule.t)
    (q : spec_float) (t : Z) :
  ExportRule.resize_mode rule = "by_height" ->
  int_truediv (Image.width img * Z.max 1 (ExportRule.resize_value rule)) (Image.height img)
    = Ok q ->
  int_of_float q = Ok t ->
  apply_resize lib img rule
  = Image_resize lib img (Z.max 1 t, Z.max 1 (ExportRule.resize_value rule)).
Proof.
  intros Hm Hq Ht. unfold apply_resize. rewrite Hm.
  unfold Image.height, Image.width in Hq. destruct (Image.size img) as [w h].
  cbn [fst snd] in Hq. change (String.eqb "by_height" "none") with false.
  change (String.eqb "by_height" "by_width") with false.
  change (String.eqb "by_height" "by_height") with true. cbv iota.
  rewrite Hq. cbn [rbind]. rewrite Ht. reflexivity.
Qed.

Lemma apply_resize_by_percent (lib : Pillow) (img : Image.t) (rule : ExportRule.t)
    (tw th : Z) :
  ExportRule.resize_mode rule = "by_percent" ->
  scaled_by_percent (Image.width img) (Z.max 1 (ExportRule.resize_value rule)) = Ok tw ->
  scaled_by_percent (Image.height img) (Z.max 1 (ExportRule.resize_value rule)) = Ok th ->
  apply_resize lib img rule = Image_resize lib img (Z.max 1 tw, Z.max 1 th).
Proof.
  intros Hm Hw Hh. unfold apply_resize. rewrite Hm.
  unfold Image.height, Image.width, scaled_by_percent in Hw, Hh.
  destruct (Image.size img) as [w h]. cbn [fst snd] in Hw, Hh.
  change (String.eqb "by_percent" "none") with false.
  change (String.eqb "by_percent" "by_width") with false.
  change (String.eqb "by_percent" "by_height") with false.
  change (String.eqb "by_percent" "by_percent") with true. cbv iota.
  destruct (float_of_int _) as [fv |]; cbn [rbind] in *; [| discriminate].
  destruct (float_truediv fv f100) as [scale |]; cbn [rbind] in *; [| discriminate].
  destruct (int_mul_float w scale) as [fw |]; cbn [rbind] in *; [| discriminate].
  rewrite Hw. cbn [rbind].
  destruct (int_mul_float h scale) as [fh |]; cbn [rbind] in *; [| discriminate].
  rewrite Hh. reflexivity.
Qed.

Lemma apply_resize_other (lib : Pillow) (img : Image.t) (rule : ExportRule.t) :
  ExportRule.resize_mode rule <> "by_width" ->
  ExportRule.resize_mode rule <> "by_height" ->
  ExportRule.resize_mode rule <> "by_percent" ->
  apply_resize lib img rule = Ok img.
Proof.
  intros H1 H2 H3. unfold apply_resize.
  destruct (String.eqb_spec (ExportRule.resize_mode rule) "none"); [reflexivity |].
  destruct (Image.size img) as [w h].
  destruct (String.eqb_spec (ExportRule.resize_mode rule) "by_width"); [contradiction |].
  destruct (String.eqb_spec (ExportRule.resize_mode rule) "by_height"); [contradiction |].
  destruct (String.eqb_spec (ExportRule.resize_mode rule) "by_percent"); [contradiction |].
  reflexivity.
Qed.

Lemma resize_size (im : Image.t) (sz : Z * Z) : Image.size (Image.resize im sz) = sz.
Proof.
  unfold Image.resize, Image.width, Image.height.
  destruct sz as [a b], (Image.size im) as [c d] eqn:Hs. cbn [fst snd].
  destruct (Z.eqb_spec a c) as [-> |]; [| reflexivity].
  destruct (Z.eqb_spec b d) as [-> |]; [exact Hs | reflexivity].
Qed.

(** The call of the library: it returns exactly when the library does not
    refuse the size, and then with a picture of the size asked, in the
    mode of the picture given; what it raises otherwise is a
    [ValueError], an [OverflowError] or a [MemoryError]. *)
Lemma Image_resize_spec (lib : Pillow) (im : Image.t) (sz : Z * Z) :
  match Image_resize lib im sz with
  | Ok out =>
      resize_fails lib im sz = None
      /\ Image.size out = sz /\ Image.mode out = Image.mode im
  | Raise e =>
      resize_fails lib im sz <> None
      /\ (e = ValueError \/ e = OverflowError \/ e = MemoryError)
  end.
Proof.
  unfold Image_resize. destruct (resize_fails lib im sz) as [[| |] |].
  - split; [discriminate | auto].
  - split; [discriminate | auto].
  - split; [discriminate | auto].
  - split; [reflexivity |]. split; [apply resize_size | apply resize_mode_kept].
Qed.

(** C4 (as amended). For every image and export rule, [apply_resize]
    returns the image itself under mode [none] and under any mode it does
    not know, without error and without a call of the library. For an
    image whose sides are positive and below [2^24], and a value below
    [2^24], it returns what Pillow's [resize] returns for the target
    size: under [by_width] the width [max(1, value)] and the height
    [max(1, h * width / w)] with floor division; under [by_height] the
    symmetric size; under [by_percent], for each side [d], [max(1, t)]
    where [t] is [int(d * (max(1, value) / 100.0))] in binary64
    arithmetic, which is the floor of [d * max(1, value) / 100] or one
    less, and is that floor whenever [d * max(1, value)] is not a multiple
    of 100. [by_width] on an image of width 0 and [by_height] on one of
    height 0 raise [ZeroDivisionError]. The library's [resize] returns
    exactly when it does not refuse the size, with a picture of the size
    asked in the mode of the image; else [apply_resize] raises its
    error. [by_percent] with value 50 on a 200x100 image asks for exactly
    100x50, and [by_width] with value 300 on a 600x400 image for
    300x200. *)
Theorem apply_resize_policy (lib : Pillow) (img : Image.t) (rule : ExportRule.t) :
  let w := Image.width img in
  let h := Image.height img in
  let mode := ExportRule.resize_mode rule in
  let v := Z.max 1 (ExportRule.resize_value rule) in
  (mode = "none" -> apply_resize lib img rule = Ok img)
  /\ (mode <> "by_width" -> mode <> "by_height" -> mode <> "by_percent" ->
      apply_resize lib img rule = Ok img)
  /\ (0 < w < 2 ^ 24 -> 0 < h < 2 ^ 24 -> v < 2 ^ 24 ->
      (mode = "by_width" ->
       apply_resize lib img rule = Image_resize lib img (v, Z.max 1 (h * v / w)))
      /\ (mode = "by_height" ->
          apply_resize lib img rule = Image_resize lib img (Z.max 1 (w * v / h), v))
      /\ (mode = "by_percent" ->
          exists tw th : Z,
            apply_resize lib img rule = Image_resize lib img (Z.max 1 tw, Z.max 1 th)
            /\ scaled_by_percent w v = Ok tw
            /\ scaled_by_percent h v = Ok th
            /\ w * v / 100 - 1 <= tw <= w * v / 100
            /\ ((w * v) mod 100 <> 0 -> tw = w * v / 100)
            /\ h * v / 100 - 1 <= th <= h * v / 100
            /\ ((h * v) mod 100 <> 0 -> th = h * v / 100)))
  /\ (mode = "by_width" -> w = 0 -> apply_resize lib img rule = Raise ZeroDivisionError)
  /\ (mode = "by_height" -> h = 0 -> apply_resize lib img rule = Raise ZeroDivisionError)
  /\ (forall sz : Z * Z,
        match Image_resize lib img sz with
        | Ok out =>
            resize_fails lib img sz = None
            /\ Image.size out = sz /\ Image.mode out = Image.mode img
        | Raise e =>
            resize_fails lib img sz <> None
            /\ (e = ValueError \/ e = OverflowError \/ e = MemoryError)
        end)
  /\ (forall (im : Image.t) (r : ExportRule.t),
        Image.size im = (200, 100) ->
        ExportRule.resize_mode r = "by_percent" -> ExportRule.resize_value r = 50 ->
        apply_resize lib im r = Image_resize lib im (100, 50))
  /\ (forall (im : Image.t) (r : ExportRule.t),
        Image.size im = (600, 400) ->
        ExportRule.resize_mode r = "by_width" -> ExportRule.resize_value r = 300 ->
        apply_resize lib im r = Image_resize lib im (300, 200)).
Proof.
  intros w h mode v.
  split; [intros Hm; unfold apply_resize; fold mode; rewrite Hm; reflexivity |].
  split; [apply apply_resize_other |].
  split; [| split; [| split; [| split; [| split]]]].
  - intros Hw Hh Hv.
    assert (Hv1 : 1 <= v) by (unfold v; lia).
    change (2 ^ 24) with 16777216 in Hw, Hh, Hv.
    assert (Hp : forall a b : Z, 0 < a < 16777216 -> 0 < b < 16777216 -> 0 <= a * b < 2 ^ 52).
    { intros a b Ha Hb. change (2 ^ 52) with (67108864 * 67108864).
      split; [apply Z.mul_nonneg_nonneg; lia |].
      apply Z.mul_lt_mono_nonneg; lia. }
    assert (Hbig : forall a : Z, 0 < a < 16777216 -> 0 < a < 2 ^ 1000).
    { intros a Ha. split; [lia |].
      apply Z.lt_trans with (2 ^ 24); [change (2 ^ 24) with 16777216; lia |].
      apply Z.pow_lt_mono_r; lia. }
    split; [| split].
    + intros Hm.
      destruct (int_truediv_floor (h * v) w (Hp h v Hh ltac:(lia)) (Hbig w Hw))
        as (q & Hq & Ht).
      apply (apply_resize_by_width lib img rule q _ Hm Hq Ht).
    + intros Hm.
      destruct (int_truediv_floor (w * v) h (Hp w v Hw ltac:(lia)) (Hbig h Hh))
        as (q & Hq & Ht).
      apply (apply_resize_by_height lib img rule q _ Hm Hq Ht).
    + intros Hm.
      destruct (scaled_by_percent_spec w v ltac:(change (2 ^ 24) with 16777216; lia)
                  ltac:(change (2 ^ 24) with 16777216; lia)) as (tw & Hsw & Hbw & Hew).
      destruct (scaled_by_percent_spec h v ltac:(change (2 ^ 24) with 16777216; lia)
                  ltac:(change (2 ^ 24) with 16777216; lia)) as (th & Hsh & Hbh & Heh).
      exists tw, th.
      split; [apply (apply_resize_by_percent lib img rule tw th Hm Hsw Hsh) |].
      repeat split; try lia; assumption.
  - intros Hm Hw0. unfold apply_resize. fold mode. rewrite Hm.
    unfold w, Image.width in Hw0. destruct (Image.size img) as [iw ih].
    cbn [fst] in Hw0. subst iw. reflexivity.
  - intros Hm Hh0. unfold apply_resize. fold mode. rewrite Hm.
    unfold h, Image.height in Hh0. destruct (Image.size img) as [iw ih].
    cbn [snd] in Hh0. subst ih. reflexivity.
  - apply Image_resize_spec.
  - intros im r Hs Hm Hval.
    rewrite (apply_resize_by_percent lib im r 100 50 Hm).
    + reflexivity.
    + unfold Image.width. rewrite Hs, Hval. vm_compute. reflexivity.
    + unfold Image.height. rewrite Hs, Hval. vm_compute. reflexivity.
  - intros im r Hs Hm Hval.
    assert (Hq : int_truediv (Image.height im * Z.max 1 (ExportRule.resize_value r))
                   (Image.width im) = Ok (S754_finite false 7036874417766400 (-45))).
    { unfold Image.height, Image.width. rewrite Hs, Hval. vm_compute. reflexivity. }
    rewrite (apply_resize_by_width lib im r _ 200 Hm Hq); [| reflexivity].
    rewrite Hval. reflexivity.
Qed.

(** C4 at a 600x400 picture resized to a width of 300, with a library
    that takes the size. *)
Lemma apply_resize_policy_witness :
  apply_resize sample_lib (canvas 600 400) (resize_rule "by_width" 300)
  = Image_resize sample_lib (canvas 600 400) (300, 200)
  /\ Image_resize sample_lib (canvas 600 400) (300, 200)
     = Ok (Image.resize (canvas 600 400) (300, 200)).
Proof.
  destruct (apply_resize_policy sample_lib (canvas 600 400) (resize_rule "by_width" 300))
    as (_ & _ & H & _).
  destruct (H ltac:(vm_compute; split; reflexivity) ltac:(vm_compute; split; reflexivity)
              ltac:(vm_compute; reflexivity)) as (Hw & _).
  split; [exact (Hw eq_refl) | reflexivity].
Defined.

(** C4, the claim as stated fails: 29 percent of a 100x100 picture is
    28x28, not 29x29, because [29 / 100.0] rounds below twenty-nine
    hundredths and [int] truncates the product. *)
Lemma apply_resize_percent_counterexample :
  apply_resize sample_lib (canvas 100 100) (resize_rule "by_percent" 29)
  = Ok (Image.resize (canvas 100 100) (28, 28))
  /\ claimed_by_percent 100 29 = 29
  /\ Image.size (Image.resize (canvas 100 100) (28, 28))
     <> (claimed_by_percent 100 29, claimed_by_percent 100 29).
Proof. repeat split. vm_compute. discriminate. Qed.

(** A size within the ranges above that the library refuses: a 1x1
    picture at a width of 16777215 asks for 16777215 squared pixels, and
    [apply_resize] raises the library's error. *)
Lemma apply_resize_refused_example :
  apply_resize sample_lib (canvas 1 1) (resize_rule "by_width" 16777215)
  = Raise MemoryError.
Proof. vm_compute. reflexivity. Qed.

(** * Further properties of the code *)

(** ** The list of imported paths *)

Lemma unique_step_fold (l : list string) :
  forall (seen : gset string) (acc : list string),
    snd (fold_left unique_step l (seen, acc))
    = acc ++ filter (fun p => p ∉ seen) (unique_paths l).
Proof.
  unfold unique_paths. induction l as [| x r IH]; intros seen acc.
  - cbn. now rewrite app_nil_r.
  - cbn [fold_left unique_step].
    rewrite (bool_decide_eq_false_2 (x ∈ (∅ : gset string))) by apply not_elem_of_empty.
    rewrite (IH ({[x]} ∪ ∅) ([] ++ [x])). cbn [app].
    destruct (bool_decide_reflect (x ∈ seen)) as [Hin | Hout].
    + rewrite IH. f_equal. rewrite filter_cons_False by set_solver.
      rewrite list_filter_filter. apply list_filter_iff. intros y. set_solver.
    + rewrite IH. rewrite <- app_assoc. cbn [app]. f_equal.
      rewrite filter_cons_True by exact Hout. f_equal.
      rewrite list_filter_filter. apply list_filter_iff. intros y. set_solver.
Qed.

Lemma unique_paths_cons (x : string) (l : list string) :
  unique_paths (x :: l) = x :: filter (fun p => p ≠ x) (unique_paths l).
Proof.
  unfold unique_paths at 1. cbn [fold_left unique_step].
  rewrite (bool_decide_eq_false_2 (x ∈ (∅ : gset string))) by apply not_elem_of_empty.
  rewrite unique_step_fold. cbn [app]. f_equal.
  apply list_filter_iff. intros y. set_solver.
Qed.

Lemma unique_paths_elem (l : list string) (p : string) : p ∈ unique_paths l <-> p ∈ l.
Proof.
  induction l as [| x r IH]; [reflexivity |].
  rewrite unique_paths_cons, !elem_of_cons, list_elem_of_filter, IH.
  destruct (decide (p = x)); naive_solver.
Qed.

Lemma unique_paths_NoDup (l : list string) : NoDup (unique_paths l).
Proof.
  induction l as [| x r IH]; [constructor |].
  rewrite unique_paths_cons. constructor.
  - rewrite list_elem_of_filter. naive_solver.
  - now apply NoDup_filter.
Qed.

Lemma filter_all {A : Type} (P : A -> Prop) `{!forall x, Decision (P x)} (l : list A) :
  Forall P l -> filter P l = l.
Proof.
  induction 1 as [| x r Hx Hr IH]; [reflexivity |].
  rewrite filter_cons_True by exact Hx. now rewrite IH.
Qed.

Lemma unique_paths_fixed (l : list string) : NoDup l -> unique_paths l = l.
Proof.
  induction 1 as [| x r Hx Hr IH]; [reflexivity |].
  rewrite unique_paths_cons, IH. f_equal.
  apply filter_all. apply Forall_forall. intros y Hy ->. contradiction.
Qed.

(** ** Which paths count as images *)

Lemma cut_last_sep_plain (b : string) :
  string_forallb (fun c => negb (is_sep c)) b = true -> cut_last_sep b = ("", b).
Proof.
  induction b as [| c r IH]; [reflexivity |].
  cbn [string_forallb cut_last_sep]. intros [Hc Hr]%andb_true_iff.
  rewrite (IH Hr). apply negb_true_iff in Hc. now rewrite Hc.
Qed.

Lemma cut_last_sep_append (a b : string) :
  string_forallb (fun c => negb (is_sep c)) b = true ->
  cut_last_sep (a +:+ b) = (fst (cut_last_sep a), snd (cut_last_sep a) +:+ b).
Proof.
  intros Hb. induction a as [| c r IH].
  - rewrite append_nil_l. now rewrite (cut_last_sep_plain b Hb).
  - rewrite append_cons. cbn [cut_last_sep]. rewrite IH.
    destruct (cut_last_sep r) as [h t]. cbn [fst snd].
    pose proof (cut_last_sep_app r) as Hr.
    destruct h as [| c' h']; [| reflexivity].
    destruct (is_sep c); cbn [fst snd]; [| now rewrite append_cons].
    reflexivity.
Qed.

Lemma cut_last_sep_head (p : string) :
  snd (cut_last_sep (fst (cut_last_sep p))) = "".
Proof.
  induction p as [| c r IH]; [reflexivity |].
  cbn [cut_last_sep]. destruct (cut_last_sep r) as [h t]. cbn [fst] in IH.
  destruct h as [| c' h'].
  - destruct (is_sep c) eqn:Hc; cbn [fst]; [| reflexivity].
    cbn [cut_last_sep]. now rewrite Hc.
  - cbn [fst]. remember (String c' h') as h eqn:Hh.
    cbn [cut_last_sep]. pose proof (cut_last_sep_app h) as Happ.
    destruct (cut_last_sep h) as [h1 t1]. cbn [fst snd] in *. subst t1.
    rewrite append_empty_r in Happ. subst h1 h. reflexivity.
Qed.

Lemma cut_last_dot_plain (e : string) :
  string_forallb (fun c => negb (is_dot c)) e = true -> cut_last_dot e = None.
Proof.
  induction e as [| c r IH]; [reflexivity |].
  cbn [string_forallb cut_last_dot]. intros [Hc Hr]%andb_true_iff.
  rewrite (IH Hr). apply negb_true_iff in Hc. now rewrite Hc.
Qed.

Lemma cut_last_dot_append (a e : string) (d : ascii) :
  is_dot d = true ->
  string_forallb (fun c => negb (is_dot c)) e = true ->
  cut_last_dot (a +:+ String d e) = Some (a, String d e).
Proof.
  intros Hd He. induction a as [| c r IH].
  - rewrite append_nil_l. cbn [cut_last_dot]. now rewrite (cut_last_dot_plain e He), Hd.
  - rewrite append_cons. cbn [cut_last_dot]. now rewrite IH.
Qed.

Lemma ascii_lower_dot (c : ascii) : is_dot (ascii_lower c) = is_dot c.
Proof. destruct c as [[] [] [] [] [] [] [] []]; reflexivity. Qed.

Lemma ascii_lower_sep (c : ascii) : is_sep (ascii_lower c) = is_sep c.
Proof. destruct c as [[] [] [] [] [] [] [] []]; reflexivity. Qed.

(** The shape of an extension: a dot, then characters that are neither a
    dot nor a separator. *)
Lemma extension_shape (ext : string) :
  lower ext ∈ SUPPORTED_INPUTS ->
  exists (d : ascii) (e : string),
    ext = String d e /\ is_dot d = true
    /\ string_forallb (fun c => negb (is_dot c)) e = true
    /\ string_forallb (fun c => negb (is_sep c)) ext = true.
Proof.
  intros Hin.
  assert (Hdot : forall s, string_forallb (fun c => negb (is_dot c)) (lower s)
                           = string_forallb (fun c => negb (is_dot c)) s).
  { induction s as [| c r IH]; [reflexivity |].
    cbn [lower string_forallb]. now rewrite ascii_lower_dot, IH. }
  assert (Hsep : forall s, string_forallb (fun c => negb (is_sep c)) (lower s)
                           = string_forallb (fun c => negb (is_sep c)) s).
  { induction s as [| c r IH]; [reflexivity |].
    cbn [lower string_forallb]. now rewrite ascii_lower_sep, IH. }
  destruct ext as [| d e].
  { exfalso. cbn [lower] in Hin. unfold SUPPORTED_INPUTS in Hin.
    rewrite !elem_of_union, !elem_of_singleton in Hin.
    repeat destruct Hin as [Hin | Hin]; discriminate. }
  exists d, e. split; [reflexivity |].
  rewrite <- (ascii_lower_dot d), <- (Hdot e), <- (Hsep (String d e)).
  cbn [lower] in *. unfold SUPPORTED_INPUTS in Hin.
  rewrite !elem_of_union, !elem_of_singleton in Hin.
  repeat destruct Hin as [Hin | Hin];
    injection Hin as -> ->; repeat split; reflexivity.
Qed.

(** [splitext] of a path written as a stem followed by an extension of
    that shape. *)
Lemma splitext_append (stem e : string) (d : ascii) :
  is_dot d = true ->
  string_forallb (fun c => negb (is_dot c)) e = true ->
  string_forallb (fun c => negb (is_sep c)) (String d e) = true ->
  splitext (stem +:+ String d e)
  = if has_stem (basename stem) then (stem, String d e) else (stem +:+ String d e, "").
Proof.
  intros Hd He Hs. unfold splitext, has_stem, basename.
  rewrite (cut_last_sep_append stem _ Hs).
  pose proof (cut_last_sep_app stem) as Happ.
  destruct (cut_last_sep stem) as [h t]. cbn [fst snd] in *.
  rewrite (cut_last_dot_append t e d Hd He).
  destruct (string_forallb is_dot t); cbn [negb]; [reflexivity |].
  now rewrite Happ.
Qed.

(** A path is taken for an image exactly when it is a stem followed by
    one of the supported extensions, in any mix of upper and lower case,
    and the last component of the stem has a character that is no dot: a
    file named [.png] or [..png] is no image, nor is anything inside a
    folder named [x.png]. *)
Theorem is_image_file_spec (path : string) :
  is_image_file path = true <->
  exists stem ext : string,
    path = stem +:+ ext
    /\ lower ext ∈ SUPPORTED_INPUTS
    /\ has_stem (basename stem) = true.
Proof.
  unfold is_image_file. cbv zeta. rewrite bool_decide_eq_true. split.
  - intros Hin.
    exists (fst (splitext path)), (snd (splitext path)).
    split; [symmetry; apply splitext_app |]. split; [exact Hin |].
    destruct (extension_shape _ Hin) as (d & e & Hext & _).
    unfold splitext in *. pose proof (cut_last_sep_tail path) as Htail.
    pose proof (cut_last_sep_head path) as Hhead.
    destruct (cut_last_sep path) as [head tail]. cbn [fst snd] in *.
    destruct (cut_last_dot tail) as [[pre ext] |] eqn:Hcut; [| discriminate].
    destruct (string_forallb is_dot pre) eqn:Hpre; [discriminate |].
    cbn [fst snd] in *. unfold has_stem, basename.
    apply cut_last_dot_app in Hcut as [Hcut _]. subst tail.
    rewrite forallb_append in Htail. apply andb_true_iff in Htail as [Htail _].
    rewrite (cut_last_sep_append head pre Htail), Hhead. cbn [snd].
    rewrite append_nil_l, Hpre. reflexivity.
  - intros (stem & ext & -> & Hin & Hstem).
    destruct (extension_shape _ Hin) as (d & e & -> & Hd & He & Hs).
    rewrite (splitext_append stem e d Hd He Hs), Hstem. exact Hin.
Qed.

(** Extensions in any case are taken; a hidden file that is only an
    extension, and a file in a folder whose name ends like an image, are
    not. *)
Lemma is_image_file_examples :
  is_image_file "/photos/Holiday.JPeG" = true
  /\ is_image_file "scan.tar.TIFF" = true
  /\ is_image_file "/photos/.png" = false
  /\ is_image_file "album.png/notes" = false
  /\ is_image_file "/photos/a.gif" = false.
Proof. repeat split; vm_compute; reflexivity. Qed.

(** ** The thumbnail list *)

(** [refresh_model] keeps each imported path once, at the place of its
    first occurrence: the new list has no repetition and the same
    members, a path at the front stays at the front with its later
    copies dropped, and a list without repetitions is left as it is. *)
Theorem refresh_model_paths (w : World) (self : ThumbList.t) :
  let out := ThumbList.paths (refresh_model w self) in
  NoDup out
  /\ (forall p : string, p ∈ out <-> p ∈ ThumbList.paths self)
  /\ (forall (x : string) (l : list string) (rows : list (string * string)),
        ThumbList.paths (refresh_model w (ThumbList.mk (x :: l) rows))
        = x :: filter (fun p => p ≠ x)
                 (ThumbList.paths (refresh_model w (ThumbList.mk l rows))))
  /\ (NoDup (ThumbList.paths self) -> out = ThumbList.paths self).
Proof.
  cbn [refresh_model ThumbList.paths].
  split; [apply unique_paths_NoDup |].
  split; [apply unique_paths_elem |].
  split; [intros x l _; apply unique_paths_cons | apply unique_paths_fixed].
Qed.

Lemma rows_fold (w : World) (l : list string) :
  forall acc : list (string * string),
    fold_left
      (fun rows p =>
         match fst (Image_open p w) with
         | Ok _ => rows ++ [(basename p, p)]
         | Raise _ => rows
         end) l acc
    = acc ++ map (fun p => (basename p, p))
               (filter (fun p => is_ok (fst (Image_open p w)) = true) l).
Proof.
  induction l as [| x r IH]; intros acc; [cbn; now rewrite app_nil_r |].
  cbn [fold_left]. rewrite IH, filter_cons.
  destruct (fst (Image_open x w)) as [im | e]; cbn [is_ok].
  - rewrite decide_True by reflexivity. cbn [map]. now rewrite <- app_assoc.
  - rewrite decide_False by discriminate. reflexivity.
Qed.

(** The rows [refresh_model] builds are those of the listed paths that
    open as images, in the order of the list, each labelled with the last
    component of its path; a path that does not open has no row and stays
    in the list. With no row selected, the current path is the first of
    the list, whether it has a row or not, and there is no current path
    only when the list is empty. *)
Theorem refresh_model_rows (w : World) (self : ThumbList.t) (idx : option nat) :
  let out := refresh_model w self in
  ThumbList.rows out
  = map (fun p => (basename p, p))
      (filter (fun p => is_ok (fst (Image_open p w)) = true) (ThumbList.paths out))
  /\ (forall p : string,
        current_path out idx = Some p -> p ∈ ThumbList.paths self)
  /\ current_path out None = head (ThumbList.paths out)
  /\ (current_path out idx = None <-> ThumbList.paths self = []).
Proof.
  intros out.
  assert (Hrows : ThumbList.rows out
                  = map (fun p => (basename p, p))
                      (filter (fun p => is_ok (fst (Image_open p w)) = true)
                         (ThumbList.paths out))).
  { unfold out, refresh_model. cbn [ThumbList.rows ThumbList.paths].
    now rewrite rows_fold. }
  assert (Hmem : forall p, p ∈ ThumbList.paths out <-> p ∈ ThumbList.paths self)
    by apply unique_paths_elem.
  assert (Hhead : forall p, head (ThumbList.paths out) = Some p -> p ∈ ThumbList.paths self).
  { intros p Hp. apply Hmem. destruct (ThumbList.paths out); [discriminate |].
    injection Hp as ->. apply list_elem_of_here. }
  assert (Hempty : ThumbList.paths out = [] <-> ThumbList.paths self = []).
  { split; intros Hnil.
    - destruct (ThumbList.paths self) as [| x l] eqn:E; [reflexivity |].
      assert (Hx : x ∈ ThumbList.paths out) by (apply Hmem; apply list_elem_of_here).
      rewrite Hnil in Hx. inversion Hx.
    - destruct (ThumbList.paths out) as [| x l] eqn:E; [reflexivity |].
      assert (Hx : x ∈ ThumbList.paths self) by (apply Hmem; apply list_elem_of_here).
      rewrite Hnil in Hx. inversion Hx. }
  split; [exact Hrows |]. split; [| split; [reflexivity |]].
  - intros p. unfold current_path.
    destruct (idx ≫= fun i => ThumbList.rows out !! i) as [item |] eqn:Hsel; [| apply Hhead].
    intros [= <-]. destruct idx as [i |]; [| discriminate].
      change (ThumbList.rows out !! i = Some item) in Hsel.
    apply list_elem_of_lookup_2 in Hsel. rewrite Hrows in Hsel.
    apply list_elem_of_fmap in Hsel as (q & -> & Hq).
    apply list_elem_of_filter in Hq as [_ Hq]. cbn [snd]. now apply Hmem.
  - unfold current_path.
    destruct (idx ≫= fun i => ThumbList.rows out !! i) as [item |] eqn:Hsel.
    + split; [discriminate |]. intros Hnil. exfalso.
      destruct idx as [i |]; [| discriminate].
      change (ThumbList.rows out !! i = Some item) in Hsel.
      apply list_elem_of_lookup_2 in Hsel. rewrite Hrows in Hsel.
      apply list_elem_of_fmap in Hsel as (q & _ & Hq).
      apply list_elem_of_filter in Hq as [_ Hq].
      apply Hempty in Hnil. rewrite Hnil in Hq. inversion Hq.
    + rewrite <- Hempty. destruct (ThumbList.paths out); split; try discriminate; reflexivity.
Qed.

Lemma unique_paths_app (l1 l2 : list string) :
  unique_paths (l1 ++ l2)
  = unique_paths l1 ++ filter (fun p => p ∉ l1) (unique_paths l2).
Proof.
  induction l1 as [| x r IH].
  - cbn [app]. symmetry. apply filter_all, Forall_forall. intros y _ Hy. inversion Hy.
  - cbn [app]. rewrite !unique_paths_cons, IH, filter_app. cbn [app]. do 2 f_equal.
    rewrite list_filter_filter. apply list_filter_iff. intros y.
    rewrite not_elem_of_cons. naive_solver.
Qed.

Section FileListFacts.
Variable walk : World -> string -> list (string * list string * list string).

Lemma add_path_recursive_app (w : World) (paths : list string) (p : string) :
  exists new : list string,
    add_path_recursive walk w paths p = paths ++ new
    /\ Forall (fun q => is_image_file q = true) new.
Proof.
  unfold add_path_recursive. cbv zeta. destruct (isdir w p).
  - generalize (walk w p). intros triples. revert paths.
    induction triples as [| [[root dirs] files] rest IH]; intros paths.
    + exists []. now rewrite app_nil_r.
    + cbn [fold_left].
      assert (Hfiles : forall acc, exists new,
                 fold_left
                   (fun paths f =>
                      if is_image_file (path_join root f)
                      then paths ++ [path_join root f] else paths) files acc
                 = acc ++ new /\ Forall (fun q => is_image_file q = true) new).
      { induction files as [| f fs IHf]; intros acc.
        - exists []. now rewrite app_nil_r.
        - cbn [fold_left].
          destruct (is_image_file (path_join root f)) eqn:Himg.
          + destruct (IHf (acc ++ [path_join root f])) as (new & -> & Hnew).
            exists (path_join root f :: new). rewrite <- app_assoc. split; [reflexivity |].
            now constructor.
          + apply IHf. }
      destruct (Hfiles paths) as (new1 & -> & Hnew1).
      destruct (IH (paths ++ new1)) as (new2 & -> & Hnew2).
      exists (new1 ++ new2). rewrite <- app_assoc. split; [reflexivity |].
      now apply Forall_app.
  - destruct (isfile w p && is_image_file p) eqn:Hp.
    + exists [p]. split; [reflexivity |]. apply andb_true_iff in Hp as [_ Hp].
      now repeat constructor.
    + exists []. now rewrite app_nil_r.
Qed.

Lemma add_paths_app (w : World) (files paths : list string) :
  exists new : list string,
    fold_left (add_path_recursive walk w) files paths = paths ++ new
    /\ Forall (fun q => is_image_file q = true) new.
Proof.
  revert paths. induction files as [| f fs IH]; intros paths.
  - exists []. now rewrite app_nil_r.
  - cbn [fold_left].
    destruct (add_path_recursive_app w paths f) as (new1 & -> & Hnew1).
    destruct (IH (paths ++ new1)) as (new2 & -> & Hnew2).
    exists (new1 ++ new2). rewrite <- app_assoc. split; [reflexivity |].
    now apply Forall_app.
Qed.

(** Importing files or folders never lets in a path that is no image by
    its extension, whatever the folders hold: if every listed path is an
    image file and none is repeated, then after [add_files] this is still
    so, and the paths listed before come first, in their order. *)
Theorem add_files_invariant (w : World) (self : ThumbList.t) (files : list string) :
  Forall (fun q => is_image_file q = true) (ThumbList.paths self) ->
  NoDup (ThumbList.paths self) ->
  let out := ThumbList.paths (add_files walk w self files) in
  Forall (fun q => is_image_file q = true) out
  /\ NoDup out
  /\ ThumbList.paths self `prefix_of` out.
Proof.
  intros Himg Hnd out. unfold out, add_files, refresh_model. cbn [ThumbList.paths].
  destruct (add_paths_app w files (ThumbList.paths self)) as (new & -> & Hnew).
  split; [| split].
  - apply Forall_forall. intros q Hq. apply (proj1 (unique_paths_elem _ _)) in Hq.
    apply elem_of_app in Hq as [Hq | Hq].
    + now apply (proj1 (Forall_forall _ _) Himg).
    + now apply (proj1 (Forall_forall _ _) Hnew).
  - apply unique_paths_NoDup.
  - rewrite unique_paths_app, (unique_paths_fixed _ Hnd). now eexists.
Qed.
End FileListFacts.

(** Two photos and a text file imported into an empty list, one photo
    twice. *)
Lemma add_files_invariant_witness :
  let out :=
    ThumbList.paths
      (add_files (fun _ _ => []) studio ThumbList.init
         ["/photos/a.png"; "/photos/notes.txt"; "/photos/b.jpg"; "/photos/a.png"]) in
  out = ["/photos/a.png"; "/photos/b.jpg"]
  /\ Forall (fun q => is_image_file q = true) out
  /\ NoDup out
  /\ [] `prefix_of` out.
Proof.
  split; [vm_compute; reflexivity |].
  apply (add_files_invariant (fun _ _ => []) studio ThumbList.init); constructor.
Defined.

(** ** Eliding a path *)

Lemma half_bounds (m : Z) : 2 * (m / 2) <= m < 2 * (m / 2) + 2.
Proof.
  pose proof (Z.mul_div_le m 2 ltac:(lia)).
  pose proof (Z.mul_succ_div_gt m 2 ltac:(lia)). lia.
Qed.

Lemma neg_half (m : Z) : - m / 2 = - ((m + 1) / 2).
Proof.
  pose proof (half_bounds (- m)). pose proof (half_bounds (m + 1)).
  generalize dependent (- m / 2). generalize dependent ((m + 1) / 2). intros. lia.
Qed.

(** For a limit of at least 5 characters, [elide] returns a path within
    the limit as it is, and cuts a longer one down to [max_len - 3]
    characters: the first [max_len // 2 - 2], the ellipsis, and the last
    [(max_len + 1) // 2 - 2]; the result is never longer than the limit. *)
Theorem elide_within_limit {A : Type} (ellipsis : A) (path : list A) (max_len : Z) :
  5 <= max_len ->
  let len := Z.of_nat (List.length path) in
  let out := elide ellipsis path max_len in
  (len <= max_len -> out = path)
  /\ (max_len < len ->
      out = take (Z.to_nat (max_len / 2 - 2)) path
            ++ ellipsis :: drop (Z.to_nat (len - ((max_len + 1) / 2 - 2))) path
      /\ Z.of_nat (List.length out) = max_len - 3)
  /\ Z.of_nat (List.length out) <= max_len.
Proof.
  intros Hm len out.
  pose proof (half_bounds max_len) as Ha. pose proof (half_bounds (max_len + 1)) as Hc.
  assert (Hshort : len <= max_len -> out = path).
  { intros Hle. unfold out, elide. fold len.
    destruct (Z.leb_spec len max_len); [reflexivity | lia]. }
  assert (Hlong : max_len < len ->
            out = take (Z.to_nat (max_len / 2 - 2)) path
                  ++ ellipsis :: drop (Z.to_nat (len - ((max_len + 1) / 2 - 2))) path
            /\ Z.of_nat (List.length out) = max_len - 3).
  { intros Hlt.
    assert (Hout : out = take (Z.to_nat (max_len / 2 - 2)) path
                   ++ ellipsis :: drop (Z.to_nat (len - ((max_len + 1) / 2 - 2))) path).
    { unfold out, elide. fold len.
      destruct (Z.leb_spec len max_len); [lia |].
      unfold py_slice, slice_index. fold len. rewrite neg_half.
      destruct (Z.ltb_spec (max_len / 2 - 2) 0); [lia |].
      destruct (Z.ltb_spec (- ((max_len + 1) / 2) + 2) 0); [| lia].
      rewrite Z.min_l, Z.max_r, Z.sub_0_r by lia.
      replace (len + (- ((max_len + 1) / 2) + 2))
        with (len - ((max_len + 1) / 2 - 2)) by lia.
      cbn [skipn app]. f_equal. f_equal.
      apply firstn_all2. rewrite length_skipn. lia. }
    split; [exact Hout |].
    rewrite Hout, length_app, length_take. cbn [List.length]. rewrite length_drop.
    fold len. lia. }
  split; [exact Hshort |]. split; [exact Hlong |].
  destruct (Z_le_gt_dec len max_len) as [Hle | Hgt].
  - rewrite (Hshort Hle). fold len. exact Hle.
  - destruct (Hlong ltac:(lia)) as [_ ->]. lia.
Qed.

(** The export folder of the sample world's documentation, 64 characters
    long, comes down to 57. *)
Lemma elide_within_limit_witness :
  let path := repeat 1%nat 64 in
  (64 <= 60 -> elide 0%nat path 60 = path)
  /\ (60 < 64 ->
      elide 0%nat path 60 = repeat 1%nat 28 ++ 0%nat :: repeat 1%nat 28
      /\ Z.of_nat (List.length (elide 0%nat path 60)) = 57)
  /\ Z.of_nat (List.length (elide 0%nat path 60)) <= 60.
Proof. apply (elide_within_limit 0%nat (repeat 1%nat 64) 60). lia. Defined.

(** Below that limit the slices turn around: with [max_len = 4] the last
    slice starts at index 0, and a long path comes back whole behind the
    ellipsis, one character longer than it was. *)
Lemma elide_limit_four {A : Type} (ellipsis : A) (path : list A) :
  4 < Z.of_nat (List.length path) -> elide ellipsis path 4 = ellipsis :: path.
Proof.
  intros Hlen. unfold elide.
  destruct (Z.leb_spec (Z.of_nat (List.length path)) 4); [lia |].
  unfold py_slice, slice_index.
  change (4 / 2 - 2) with 0. change (- (4) / 2 + 2) with 0. cbn [Z.ltb Z.compare].
  rewrite Z.min_l, !Z.sub_0_r, Nat2Z.id by lia. cbn [Z.to_nat skipn firstn app].
  now rewrite firstn_all.
Qed.

(** ** Creating the folders *)

Lemma rstrip_sep_end (s : string) : endswith_sep (rstrip_sep s) = false.
Proof.
  induction s as [| c r IH]; [reflexivity |].
  cbn [rstrip_sep]. destruct (rstrip_sep r) as [| c' r'] eqn:E.
  - destruct (is_sep c) eqn:Hc; [reflexivity |]. cbn [endswith_sep]. exact Hc.
  - cbn [endswith_sep] in *. exact IH.
Qed.

Lemma length_rstrip_sep (s : string) : (String.length (rstrip_sep s) <= String.length s)%nat.
Proof.
  induction s as [| c r IH]; [reflexivity |].
  cbn [rstrip_sep]. destruct (rstrip_sep r) as [| c' r'].
  - destruct (is_sep c); cbn [String.length]; lia.
  - cbn [String.length] in *. lia.
Qed.

Lemma length_append (a b : string) :
  String.length (a +:+ b) = (String.length a + String.length b)%nat.
Proof. induction a; rewrite ?append_nil_l, ?append_cons; cbn [String.length]; lia. Qed.

Lemma cut_last_sep_no_tail (q : string) :
  snd (cut_last_sep q) = "" -> q = "" \/ endswith_sep q = true.
Proof.
  induction q as [| c r IH]; [now left |]. right.
  cbn [cut_last_sep] in *. pose proof (cut_last_sep_app r) as Happ.
  destruct (cut_last_sep r) as [h t]. cbn [fst snd] in *.
  destruct h as [| c' h'].
  - rewrite append_nil_l in Happ. subst t.
    destruct (is_sep c) eqn:Hc; cbn [snd] in H; [| discriminate].
    subst r. exact Hc.
  - cbn [snd] in H. destruct (IH H) as [-> | Hend]; [discriminate |].
    destruct r; [discriminate | exact Hend].
Qed.

(** Only the root is its own parent. *)
Lemma dirname_fixed (q : string) : dirname q = q -> string_forallb is_sep q = true.
Proof.
  unfold dirname. pose proof (cut_last_sep_app q) as Happ.
  destruct (cut_last_sep q) as [h t] eqn:Hcut. cbn [fst snd] in *.
  destruct (negb (String.eqb h "") && negb (string_forallb is_sep h)) eqn:Hc.
  - intros Hfix. exfalso.
    assert (Hlen : String.length q = (String.length h + String.length t)%nat)
      by (rewrite <- Happ; apply length_append).
    pose proof (length_rstrip_sep h) as Hr. rewrite Hfix in Hr.
    assert (Ht : t = "") by (destruct t; [reflexivity | cbn [String.length] in Hlen; lia]).
    subst t. rewrite append_empty_r in Happ. subst h.
    pose proof (rstrip_sep_end q) as Hend. rewrite Hfix in Hend.
    destruct (cut_last_sep_no_tail q) as [-> | Hq]; [now rewrite Hcut | discriminate |].
    congruence.
  - intros <-. apply andb_false_iff in Hc as [Hc | Hc].
    + apply negb_false_iff, String.eqb_eq in Hc. now subst h.
    + now apply negb_false_iff in Hc.
Qed.

Lemma ancestors_last (q : string) :
  string_forallb is_sep q = false -> exists l : list string, ancestors q = l ++ [q].
Proof.
  intros Hq. unfold ancestors. destruct q as [| c r]; [discriminate |].
  cbn [String.length ancestors_upto].
  destruct (String.eqb_spec (dirname (String c r)) (String c r)) as [Hfix | _].
  - apply dirname_fixed in Hfix. congruence.
  - now eexists.
Qed.

Lemma mkdir_step_kept (q : string) (w : World) (k : string) (n : node) :
  fs w !! k = Some n -> fs (snd (mkdir_step q w)) !! k = Some n.
Proof.
  intros Hk. unfold mkdir_step. destruct (fs w !! q) as [[| f] |] eqn:Hq; try exact Hk.
  destruct (disk_full w); [exact Hk |]. cbn [snd with_node fs].
  rewrite lookup_insert_ne; [exact Hk | congruence].
Qed.

Lemma mkdir_chain_kept (qs : list string) (w : World) (k : string) (n : node) :
  fs w !! k = Some n -> fs (snd (mkdir_chain qs w)) !! k = Some n.
Proof.
  revert w. induction qs as [| q rest IH]; intros w Hk; [exact Hk |].
  cbn [mkdir_chain]. unfold bind.
  pose proof (mkdir_step_kept q w k n Hk) as Hstep.
  destruct (mkdir_step q w) as [[[] | e] w1]; cbn [snd] in *; [now apply IH | exact Hstep].
Qed.

Lemma mkdir_chain_made (qs : list string) (w w' : World) :
  mkdir_chain qs w = (Ok tt, w') -> forall q : string, q ∈ qs -> fs w' !! q = Some Dir.
Proof.
  revert w. induction qs as [| q0 rest IH]; intros w Hrun q Hq; [inversion Hq |].
  cbn [mkdir_chain] in Hrun. unfold bind in Hrun.
  destruct (mkdir_step q0 w) as [[[] | e] w1] eqn:Hstep; [| discriminate].
  apply elem_of_cons in Hq as [-> | Hq]; [| now apply (IH w1)].
  assert (Hmade : fs w1 !! q0 = Some Dir).
  { unfold mkdir_step in Hstep. destruct (fs w !! q0) as [[| f] |] eqn:Hq0.
    - injection Hstep as <-. exact Hq0.
    - discriminate.
    - destruct (disk_full w); [discriminate |]. injection Hstep as <-.
      apply lookup_insert_eq. }
  pose proof (mkdir_chain_kept rest w1 q0 Dir Hmade) as Hk. now rewrite Hrun in Hk.
Qed.

Lemma mkdir_chain_present (qs : list string) (w : World) :
  (forall q : string, q ∈ qs -> fs w !! q = Some Dir) -> mkdir_chain qs w = (Ok tt, w).
Proof.
  induction qs as [| q0 rest IH]; intros Hall; [reflexivity |].
  cbn [mkdir_chain]. unfold bind, mkdir_step.
  rewrite (Hall q0) by apply list_elem_of_here.
  apply IH. intros q Hq. apply Hall. now apply list_elem_of_further.
Qed.

(** What [os.makedirs(p, exist_ok=True)] leaves behind when it returns:
    the directory is there, the working directory and every file and
    directory that existed are as before, and a second call changes
    nothing. *)
Lemma makedirs_creates (p : string) (w w' : World) :
  makedirs p w = (Ok tt, w') ->
  isdir w' p = true
  /\ cwd w' = cwd w
  /\ (forall (k : string) (n : node), fs w !! k = Some n -> fs w' !! k = Some n)
  /\ makedirs p w' = (Ok tt, w').
Proof.
  intros Hrun. unfold makedirs in Hrun.
  assert (Hcwd : cwd w' = cwd w).
  { pose proof (mkdir_chain_cwd (ancestors (abspath w p)) w) as H. now rewrite Hrun in H. }
  assert (Habs : abspath w' p = abspath w p) by (apply abspath_cwd; exact Hcwd).
  split; [| split; [exact Hcwd | split]].
  - unfold isdir, lookup_node. rewrite Habs.
    destruct (string_forallb is_sep (abspath w p)) eqn:Hroot; [reflexivity |].
    destruct (ancestors_last _ Hroot) as [l Hl].
    rewrite (mkdir_chain_made _ _ _ Hrun (abspath w p)); [reflexivity |].
    rewrite Hl. apply elem_of_app. right. apply list_elem_of_here.
  - intros k n Hk. pose proof (mkdir_chain_kept (ancestors (abspath w p)) w k n Hk) as H.
    now rewrite Hrun in H.
  - unfold makedirs. rewrite Habs. apply mkdir_chain_present.
    apply (mkdir_chain_made _ _ _ Hrun).
Qed.

(** A regular file where a directory of the chain should go makes
    [os.makedirs] raise. *)
Lemma makedirs_blocked (p : string) (w : World) (f : file) :
  lookup_node w p = Some (File f) -> exists e : exn, fst (makedirs p w) = Raise e.
Proof.
  intros Hfile. destruct (makedirs p w) as [[[] | e] w'] eqn:Hrun; [| now exists e].
  exfalso. destruct (makedirs_creates p w w' Hrun) as (Hdir & Hcwd & Hkept & _).
  unfold isdir, lookup_node in *. rewrite (abspath_cwd w' w p Hcwd) in Hdir.
  destruct (string_forallb is_sep (abspath w p)); [discriminate |].
  rewrite (Hkept _ _ Hfile) in Hdir. discriminate.
Qed.

(** When [ensure_dirs] returns, the folders [exports] and [templates] of
    the working directory exist, nothing that existed before has changed,
    and calling it again changes nothing. *)
Theorem ensure_dirs_creates (w w' : World) :
  ensure_dirs w = (Ok tt, w') ->
  isdir w' (DEFAULT_EXPORT_DIR w') = true
  /\ isdir w' (TEMPLATES_DIR w') = true
  /\ (forall (k : string) (n : node), fs w !! k = Some n -> fs w' !! k = Some n)
  /\ ensure_dirs w' = (Ok tt, w').
Proof.
  unfold ensure_dirs. run_io. intros Hrun.
  destruct (makedirs (DEFAULT_EXPORT_DIR w) w) as [[[] | e] w1] eqn:H1; [| discriminate].
  destruct (makedirs_creates _ _ _ H1) as (Hd1 & Hc1 & Hk1 & Hi1).
  destruct (makedirs_creates _ _ _ Hrun) as (Hd2 & Hc2 & Hk2 & Hi2).
  assert (He : DEFAULT_EXPORT_DIR w' = DEFAULT_EXPORT_DIR w)
    by (unfold DEFAULT_EXPORT_DIR; congruence).
  assert (Ht : TEMPLATES_DIR w' = TEMPLATES_DIR w1)
    by (unfold TEMPLATES_DIR; congruence).
  assert (Hd1' : isdir w' (DEFAULT_EXPORT_DIR w) = true).
  { unfold isdir, lookup_node in *. rewrite (abspath_cwd w' w1 _ Hc2).
    destruct (string_forallb is_sep (abspath w1 (DEFAULT_EXPORT_DIR w))); [reflexivity |].
    destruct (fs w1 !! abspath w1 (DEFAULT_EXPORT_DIR w)) as [[| f] |] eqn:E;
      try discriminate.
    now rewrite (Hk2 _ _ E). }
  split; [now rewrite He |]. split; [now rewrite Ht |].
  split; [intros k n Hk; apply Hk2, Hk1, Hk |].
  rewrite He.
  assert (Hagain : makedirs (DEFAULT_EXPORT_DIR w) w' = (Ok tt, w')).
  { unfold makedirs. apply mkdir_chain_present. intros q Hq.
    rewrite (abspath_cwd w' w _ ltac:(congruence)) in Hq.
    unfold makedirs in H1. apply Hk2. exact (mkdir_chain_made _ _ _ H1 q Hq). }
  rewrite Hagain, Ht. exact Hi2.
Qed.

Lemma ensure_dirs_creates_witness :
  exists w' : World,
    ensure_dirs studio = (Ok tt, w')
    /\ isdir w' (DEFAULT_EXPORT_DIR w') = true
    /\ isdir w' (TEMPLATES_DIR w') = true
    /\ (forall (k : string) (n : node), fs studio !! k = Some n -> fs w' !! k = Some n)
    /\ ensure_dirs w' = (Ok tt, w').
Proof.
  exists (snd (ensure_dirs studio)).
  assert (Hrun : ensure_dirs studio = (Ok tt, snd (ensure_dirs studio)))
    by (vm_compute; reflexivity).
  split; [exact Hrun |]. exact (ensure_dirs_creates _ _ Hrun).
Defined.

(** With a regular file named [exports] in the working directory,
    [ensure_dirs] raises. *)
Lemma ensure_dirs_blocked (w : World) (f : file) :
  lookup_node w (DEFAULT_EXPORT_DIR w) = Some (File f) ->
  exists e : exn, fst (ensure_dirs w) = Raise e.
Proof.
  intros Hfile. unfold ensure_dirs. run_io.
  destruct (makedirs_blocked _ _ _ Hfile) as [e He].
  destruct (makedirs (DEFAULT_EXPORT_DIR w) w) as [[[] | e'] w1]; [discriminate |].
  now exists e'.
Qed.

(** ** What a batch leaves alone *)





(** ** The renderers on well-formed input *)

(** Loading the font never raises: a font that cannot be opened gives way
    to the built-in one. *)
Lemma load_font_ok (cfg : TextStyle.t) (w : World) :
  exists font : Font, load_font cfg w = (Ok font, w).
Proof.
  pose proof (load_font_world cfg w) as Hw. unfold load_font in *. run_io.
  repeat match goal with
         | |- context [if ?b then _ else _] => destruct b
         | |- context [truetype ?p ?s ?w] =>
             let H := fresh in
             pose proof (truetype_world p s w) as H;
             destruct (truetype p s w) as [[] ?]; simpl in H; subst
         end; eexists; reflexivity.
Qed.

Lemma draw_text_layer_ok (lib : Pillow) (font : Font) (cfg : TextStyle.t)
    (layout : Layout.t) :
  0 <= TextStyle.opacity cfg <= 100 ->
  exists (h : heap) (text_layer : nat),
    draw_text_layer lib font cfg layout = Ok (h, text_layer).
Proof.
  intros Hop. unfold draw_text_layer. rewrite (text_alpha_floor _ Hop).
  destruct (textbbox lib font (TextStyle.text cfg) _) as [[[x0 y0] x1] y1].
  destruct (TextStyle.shadow_offset cfg) as [sx sy].
  destruct (TextStyle.shadow cfg), (TextStyle.stroke cfg);
    cbn -[Z.add Z.sub Z.mul Z.div SFltb];
    destruct (SFltb _ _); eexists _, _; reflexivity.
Qed.

Lemma alpha_composite_overlay (img layer : Image.t) (xy : Z * Z) :
  Image.mode img = "RGBA" ->
  Image.alpha_composite img
    (Image.paste_composite (Image.new "RGBA" (Image.size img) (0, 0, 0, 0)) layer xy)
  = Ok {| Image.mode := "RGBA"; Image.size := Image.size img;
          Image.data :=
            Composited (Image.data img) (Pasted (Blank (0, 0, 0, 0)) (Image.data layer) xy) |}.
Proof.
  intros Hm. unfold Image.alpha_composite, Image.paste_composite, Image.new.
  cbn [Image.mode Image.size Image.data Image.width Image.height].
  rewrite Hm, !Z.eqb_refl. reflexivity.
Qed.

(** For an opacity within the slider's range the text pass always
    returns: whatever the font settings and the text, the result is an
    RGBA picture of the size of the base picture, and nothing on disk
    changes. *)
Theorem draw_text_watermark_returns (lib : Pillow) (base : Image.t) (cfg : TextStyle.t)
    (layout : Layout.t) (w : World) :
  0 <= TextStyle.opacity cfg <= 100 ->
  exists (out : Image.t) (overlay : raster),
    draw_text_watermark lib base cfg layout w = (Ok out, w)
    /\ Image.mode out = "RGBA"
    /\ Image.size out = Image.size base
    /\ Image.data out = Composited (Image.data (Image.convert base "RGBA")) overlay.
Proof.
  intros Hop. unfold draw_text_watermark. run_io.
  destruct (load_font_ok cfg w) as [font ->].
  destruct (draw_text_layer_ok lib font cfg layout Hop) as (h & tl & ->).
  destruct (calc_anchor_pos _ _ _ _ _ _ _) as [bx by_].
  rewrite alpha_composite_overlay by apply convert_mode.
  eexists _, _. split; [reflexivity |]. cbn [Image.mode Image.size Image.data].
  rewrite convert_size. auto.
Qed.

Lemma draw_text_watermark_returns_witness :
  exists (out : Image.t) (overlay : raster),
    draw_text_watermark sample_lib opaque_rgb TextStyle.default Layout.default studio
    = (Ok out, studio)
    /\ Image.mode out = "RGBA"
    /\ Image.size out = (2, 1)
    /\ Image.data out = Composited (Image.data (Image.convert opaque_rgb "RGBA")) overlay.
Proof.
  apply (draw_text_watermark_returns sample_lib opaque_rgb TextStyle.default
           Layout.default studio).
  vm_compute. split; discriminate.
Defined.

Lemma float_of_int_below (z : Z) :
  0 < z < 2 ^ 24 -> exists f : spec_float, float_of_int z = Ok f /\ below (-29) f.
Proof.
  intros Hz.
  assert (Hz53 : 0 < z < 2 ^ 53) by (change (2 ^ 24) with 16777216 in Hz;
                                     change (2 ^ 53) with 9007199254740992; lia).
  destruct (float_of_int_exact z Hz53) as (Hf & Hm & Hd).
  assert (Hd24 : Zdigits2 z <= 24) by (apply Zdigits2_le; lia).
  eexists. split; [exact Hf |]. cbn [below].
  rewrite Z2Pos.id by (change (2 ^ 52) with 4503599627370496 in Hm; lia).
  rewrite (Zdigits2_unique _ 53 ltac:(lia) Hm). lia.
Qed.

Lemma opacity_factor_ok (opacity : Z) :
  0 <= opacity <= 100 -> exists f : spec_float, int_truediv opacity 100 = Ok f.
Proof.
  intros Hop. destruct (int_truediv_floor opacity 100) as (f & Hf & _).
  - change (2 ^ 52) with 4503599627370496. lia.
  - split; [lia |]. apply Z.lt_trans with (2 ^ 7); [reflexivity |].
    apply Z.pow_lt_mono_r; lia.
  - now exists f.
Qed.

(** With a watermark file that opens, a base picture and a watermark with
    sides below [2^24], a scale below [2^24] percent and an opacity within
    the slider's range, the arithmetic of the image pass raises nothing:
    the pass reaches the library's [resize] with the width [max(1, t)],
    where [t] is the floor of [base width * max(1, scale_percent) / 100]
    or one less, and the height [max(1, int(wm.height * (width / wm.width)))].
    It returns exactly when that call returns, with the resized watermark
    composited on the base, an RGBA picture of the size of the base; when
    the library refuses the size, the pass raises the library's error.
    Nothing on disk changes either way. *)
Theorem draw_image_watermark_returns (lib : Pillow) (base : Image.t) (mark : ImageMark.t)
    (layout : Layout.t) (w : World) (p format : string) (wm : Image.t)
    (options : list (string * Z)) :
  ImageMark.path mark = Some p -> p <> "" ->
  lookup_node w p = Some (File (Picture format wm options)) ->
  0 < Image.width base < 2 ^ 24 ->
  0 < Image.width wm < 2 ^ 24 -> 0 < Image.height wm < 2 ^ 24 ->
  ImageMark.scale_percent mark < 2 ^ 24 ->
  0 <= ImageMark.opacity mark <= 100 ->
  let percent := Z.max 1 (ImageMark.scale_percent mark) in
  exists (tw th : Z) (factor : spec_float) (xy : Z * Z),
    scaled_by_percent (Image.width base) percent = Ok tw
    /\ Image.width base * percent / 100 - 1 <= tw <= Image.width base * percent / 100
    /\ (let? ratio := int_truediv (Z.max 1 tw) (Image.width wm) in
        let? fh := int_mul_float (Image.height wm) ratio in
        int_of_float fh) = Ok th
    /\ match Image_resize lib (Image.convert wm "RGBA") (Z.max 1 tw, Z.max 1 th) with
       | Ok resized =>
           Image.size resized = (Z.max 1 tw, Z.max 1 th)
           /\ exists out : Image.t,
                draw_image_watermark lib base mark layout w = (Ok out, w)
                /\ Image.mode out = "RGBA"
                /\ Image.size out = Image.size base
                /\ Image.data out
                   = Composited (Image.data (Image.convert base "RGBA"))
                       (Pasted (Blank (0, 0, 0, 0))
                          (AlphaScaled factor (Image.data resized)) xy)
       | Raise e => draw_image_watermark lib base mark layout w = (Raise e, w)
       end.
Proof.
  intros Hpath Hne Hfile Hbw Hww Hwh Hsp Hop percent.
  assert (Hpc : 0 < percent < 2 ^ 24) by (unfold percent; lia).
  destruct (scaled_by_percent_spec (Image.width base) percent Hbw Hpc)
    as (tw & Hscaled & Htw & _).
  pose proof Hscaled as Hscaled0.
  unfold scaled_by_percent in Hscaled.
  destruct (float_of_int percent) as [fp |] eqn:Hfp; cbn [rbind] in Hscaled; [| discriminate].
  destruct (float_truediv fp f100) as [scale |] eqn:Hsc; cbn [rbind] in Hscaled;
    [| discriminate].
  destruct (int_mul_float (Image.width base) scale) as [fw |] eqn:Hfw;
    cbn [rbind] in Hscaled; [| discriminate].
  set (target_w := Z.max 1 tw).
  assert (Htarget : 0 < target_w < 2 ^ 48).
  { unfold target_w. split; [lia |].
    assert (Image.width base * percent < 2 ^ 48).
    { change (2 ^ 48) with (2 ^ 24 * 2 ^ 24). apply Z.mul_lt_mono_nonneg; lia. }
    pose proof (Z.mul_div_le (Image.width base * percent) 100 ltac:(lia)).
    change (2 ^ 48) with 281474976710656 in *. lia. }
  assert (Hdig : Zdigits2 target_w - Zdigits2 (Image.width wm) <= -5 + 52).
  { assert (Zdigits2 target_w <= 48) by (apply Zdigits2_le; lia).
    pose proof (Zdigits2_bounds (Image.width wm) ltac:(lia)) as [Hlo _].
    assert (1 <= Zdigits2 (Image.width wm)).
    { destruct (Image.width wm); cbn in *; lia. }
    lia. }
  destruct (int_truediv_below target_w (Image.width wm) (-5)
              ltac:(lia) ltac:(lia) ltac:(lia) ltac:(lia) Hdig) as (ratio & Hratio & Hrb).
  destruct (float_of_int_below (Image.height wm) Hwh) as (fhz & Hfhz & Hfb).
  pose proof (SFmul_below fhz ratio (-29) (-5 + 1) Hfb Hrb ltac:(lia) ltac:(lia)) as Hmb.
  destruct (int_of_float_below _ _ Hmb) as (th & Hth).
  destruct (opacity_factor_ok _ Hop) as (factor & Hfactor).
  assert (Hcw : forall im m, Image.width (Image.convert im m) = Image.width im)
    by (intros im m; unfold Image.width; now rewrite convert_size).
  assert (Hch : forall im m, Image.height (Image.convert im m) = Image.height im)
    by (intros im m; unfold Image.height; now rewrite convert_size).
  assert (Hrun : draw_image_watermark lib base mark layout w
                 = match Image_resize lib (Image.convert wm "RGBA")
                           (target_w, Z.max 1 th) with
                   | Ok resized =>
                       let '(bx, by_) :=
                         calc_anchor_pos (Image.width base) (Image.height base)
                           (Image.width (Image.scale_alpha resized factor))
                           (Image.height (Image.scale_alpha resized factor))
                           (Layout.anchor layout) (Layout.offset_x layout)
                           (Layout.offset_y layout) in
                       (Ok {| Image.mode := "RGBA";
                              Image.size := Image.size (Image.convert base "RGBA");
                              Image.data :=
                                Composited (Image.data (Image.convert base "RGBA"))
                                  (Pasted (Blank (0, 0, 0, 0))
                                     (Image.data (Image.scale_alpha resized factor))
                                     (bx, by_)) |}, w)
                   | Raise e => (Raise e, w)
                   end).
  { unfold draw_image_watermark. rewrite Hpath. run_io. unfold path_exists.
    rewrite Hfile.
    assert (Hne' : String.eqb p "" = false) by (now apply String.eqb_neq).
    rewrite Hne'. cbn [negb andb]. unfold Image_open. rewrite Hfile.
    fold percent. rewrite Hfp, Hsc, !Hcw, Hfw, Hscaled. fold target_w.
    rewrite Hratio, Hch. unfold int_mul_float at 1. rewrite Hfhz. cbn [rbind].
    rewrite Hth.
    destruct (Image_resize lib (Image.convert wm "RGBA") (target_w, Z.max 1 th))
      as [resized | e]; [| reflexivity].
    rewrite Hfactor, Hch.
    destruct (calc_anchor_pos _ _ _ _ _ _ _) as [bx by_].
    now rewrite alpha_composite_overlay by apply convert_mode. }
  pose proof (Image_resize_spec lib (Image.convert wm "RGBA") (target_w, Z.max 1 th))
    as Hspec.
  destruct (Image_resize lib (Image.convert wm "RGBA") (target_w, Z.max 1 th))
    as [resized | e] eqn:Hrs.
  - destruct (calc_anchor_pos (Image.width base) (Image.height base)
                (Image.width (Image.scale_alpha resized factor))
                (Image.height (Image.scale_alpha resized factor))
                (Layout.anchor layout) (Layout.offset_x layout) (Layout.offset_y layout))
      as [bx by_] eqn:Hpos.
    exists tw, th, factor, (bx, by_).
    split; [exact Hscaled0 |]. split; [exact Htw |].
    split; [fold target_w; rewrite Hratio; cbn [rbind]; unfold int_mul_float;
            rewrite Hfhz; cbn [rbind]; exact Hth |].
    fold target_w. rewrite Hrs. split; [apply Hspec |].
    eexists. split; [exact Hrun |]. split; [reflexivity |].
    split; [apply convert_size | reflexivity].
  - exists tw, th, factor, (0, 0).
    split; [exact Hscaled0 |]. split; [exact Htw |].
    split; [fold target_w; rewrite Hratio; cbn [rbind]; unfold int_mul_float;
            rewrite Hfhz; cbn [rbind]; exact Hth |].
    fold target_w. rewrite Hrs. exact Hrun.
Qed.

(** The sample logo scaled onto a 2x1 photo: the library takes the size
    and the pass returns. *)
Lemma draw_image_watermark_returns_witness :
  exists out : Image.t,
    draw_image_watermark sample_lib opaque_rgb (WatermarkConfig.image both_config)
      Layout.default studio
    = (Ok out, studio)
    /\ Image.mode out = "RGBA"
    /\ Image.size out = (2, 1).
Proof.
  destruct (draw_image_watermark_returns sample_lib opaque_rgb
              (WatermarkConfig.image both_config) Layout.default studio
              "/photos/logo.png" "PNG" logo [])
    as (tw & th & factor & xy & Htw & _ & Hth & Hrun);
    try reflexivity; try discriminate;
    try (vm_compute; split; try reflexivity; discriminate).
  vm_compute in Htw. injection Htw as <-.
  vm_compute in Hth. injection Hth as <-.
  assert (E : Image_resize sample_lib (Image.convert logo "RGBA") (Z.max 1 0, Z.max 1 0)
              = Ok (Image.resize (Image.convert logo "RGBA") (1, 1))) by reflexivity.
  rewrite E in Hrun. destruct Hrun as (_ & out & Hout & Hmode & Hsize & _).
  exists out. split; [exact Hout |]. split; [exact Hmode | exact Hsize].
Defined.

(** The image pass with no usable watermark file: when no path is set, or
    the path is empty or names nothing on disk, the pass returns the base
    picture converted to RGBA and draws nothing; when the path names
    something that is no picture, opening it raises. *)
Theorem draw_image_watermark_without_file (lib : Pillow) (base : Image.t)
    (mark : ImageMark.t) (layout : Layout.t) (w : World) :
  ((ImageMark.path mark = None \/ ImageMark.path mark = Some ""
    \/ exists p : string, ImageMark.path mark = Some p /\ path_exists w p = false) ->
   draw_image_watermark lib base mark layout w = (Ok (Image.convert base "RGBA"), w))
  /\ (forall p : string,
        ImageMark.path mark = Some p -> p <> "" ->
        (lookup_node w p = Some Dir
         \/ lookup_node w p = Some (File FontFile)
         \/ (exists doc : json, lookup_node w p = Some (File (JsonFile doc)))
         \/ (exists s : string, lookup_node w p = Some (File (Bytes s)))) ->
        exists reason : string,
          draw_image_watermark lib base mark layout w = (Raise (OSError reason), w)).
Proof.
  split.
  - intros [Hnone | [Hempty | (p & Hp & Hmiss)]]; unfold draw_image_watermark; run_io.
    + now rewrite Hnone.
    + now rewrite Hempty.
    + rewrite Hp, Hmiss, andb_false_r. reflexivity.
  - intros p Hp Hne Hkind. unfold draw_image_watermark. run_io. rewrite Hp.
    apply String.eqb_neq in Hne. rewrite Hne. unfold path_exists, Image_open.
    destruct Hkind as [H | [H | [[doc H] | [s H]]]]; rewrite H; cbn [negb andb];
      rewrite H; eexists; reflexivity.
Qed.

(** ** The session state *)





(** Saving the session state never raises and touches nothing but the
    state file; and when the file cannot be opened for writing, because
    its folder is missing or a directory is in its place, nothing at all
    is changed: the state is not saved and nothing tells so. *)
Theorem save_last_state_silent (cfg : value) (w : World) :
  let q := abspath w (STATE_PATH w) in
  let w' := snd (save_last_state cfg w) in
  fst (save_last_state cfg w) = Ok tt
  /\ cwd w' = cwd w
  /\ (forall k : string, k <> q -> fs w' !! k = fs w !! k)
  /\ (lookup_node w (dirname q) <> Some Dir \/ lookup_node w q = Some Dir -> w' = w).
Proof.
  intros q w'. unfold w', save_last_state, open_w, write_doc. run_io. fold q.
  split; [| split; [| split]].
  - destruct (lookup_node w (dirname q)) as [[| ?] |]; try reflexivity.
    destruct (lookup_node w q) as [[| ?] |]; try reflexivity;
      try (destruct (disk_full w) eqn:Hd; try reflexivity);
      destruct (serialize cfg); cbn [disk_full with_node]; try reflexivity;
      destruct (disk_full w); reflexivity.
  - destruct (lookup_node w (dirname q)) as [[| ?] |]; try reflexivity.
    destruct (lookup_node w q) as [[| ?] |]; try reflexivity;
      try (destruct (disk_full w) eqn:Hd; try reflexivity);
      destruct (serialize cfg); cbn [disk_full with_node]; try reflexivity;
      destruct (disk_full w); reflexivity.
  - intros k Hk.
    destruct (lookup_node w (dirname q)) as [[| ?] |]; try reflexivity.
    destruct (lookup_node w q) as [[| ?] |]; try reflexivity;
      try (destruct (disk_full w) eqn:Hd; try reflexivity);
      destruct (serialize cfg); cbn [disk_full with_node snd fs];
      rewrite ?lookup_insert_ne by congruence; try reflexivity;
      destruct (disk_full w); cbn [snd with_node fs];
      rewrite ?lookup_insert_ne by congruence; reflexivity.
  - intros [Hparent | Hdir].
    + destruct (lookup_node w (dirname q)) as [[| ?] |]; [congruence | reflexivity ..].
    + rewrite Hdir. destruct (lookup_node w (dirname q)) as [[| ?] |]; reflexivity.
Qed.

(** A working directory that is gone: the save changes nothing. *)
Lemma save_last_state_no_folder_example :
  let w := {| cwd := "/gone"; fs := {[ "/app" := Dir ]}; disk_full := false |} in
  save_last_state (WatermarkConfig_value both_config) w = (Ok tt, w).
Proof. vm_compute. reflexivity. Qed.

(** Reading the session state never raises and writes nothing. It gives
    no configuration when the state file is missing, and also when the
    file is no JSON document, when the document is no object, or when one
    of its sections holds a key that the section's dataclass does not
    have: the whole saved state is then passed over. *)
Theorem load_last_state_silent (w : World) :
  exists r : option value,
    load_last_state w = (Ok r, w)
    /\ (path_exists w (STATE_PATH w) = false -> r = None)
    /\ (forall cfg : value,
          r = Some cfg ->
          exists doc : json,
            lookup_node w (STATE_PATH w) = Some (File (JsonFile doc))
            /\ deserialize doc = Ok cfg)
    /\ (forall (doc : json) (d kw : list (string * value)) (k : string) (x : value),
          lookup_node w (STATE_PATH w) = Some (File (JsonFile doc)) ->
          from_json doc = VDict d ->
          dict_get d "text" (VDict []) = VDict kw ->
          (k, x) ∈ kw ->
          existsb (fun '(k', _) => String.eqb k' k) TextStyle_defaults = false ->
          r = None).
Proof.
  unfold load_last_state, read_json, path_exists, deserialize. run_io.
  destruct (lookup_node w (STATE_PATH w)) as [[| [fmt im opts | | doc | s]] |] eqn:Hlook;
    cbn [negb]; cbn beta; rewrite ?Hlook;
    try (exists None; repeat split; try discriminate; reflexivity).
  destruct (config_of_dict (from_json doc)) as [cfg | e] eqn:Hcfg.
  - exists (Some cfg). split; [reflexivity |]. split; [discriminate |]. split.
    + intros cfg' [= <-]. exists doc. split; [reflexivity | exact Hcfg].
    + intros doc' d kw k x [= <-] Hd Htext Hk Hunknown. exfalso.
      unfold config_of_dict in Hcfg. rewrite Hd in Hcfg. cbn [py_get rbind] in Hcfg.
      rewrite Htext in Hcfg. unfold dataclass_new at 1 in Hcfg.
      assert (Hall : forallb (fun '(k0, _) =>
                                existsb (fun '(k', _) => String.eqb k' k0) TextStyle_defaults)
                       kw = false).
      { apply not_true_is_false. intros Hall. rewrite List.forallb_forall in Hall.
        specialize (Hall (k, x) ltac:(now apply list_elem_of_In)). cbv beta iota in Hall.
        congruence. }
      rewrite Hall in Hcfg. discriminate.
  - exists None. split; [reflexivity |]. split; [reflexivity |]. split; [discriminate |].
    reflexivity.
Qed.

(** A state file whose text section has a key from elsewhere. *)
Lemma load_last_state_unknown_key_example :
  let doc := JObject [("use_text", JBool false);
                      ("text", JObject [("opacity", JInt 55); ("colour", JString "red")])] in
  fst (load_last_state
         (with_node studio "/app/last_state.json" (File (JsonFile doc))))
  = Ok None.
Proof. vm_compute. reflexivity. Qed.

(** ** The progress bar *)

(** [i / n] for a proper fraction with a denominator below [2^53]: a
    normal float below one. *)
Lemma int_truediv_fraction (i n : Z) :
  1 <= i < n -> n < 2 ^ 53 ->
  exists m3 e3 : Z,
    int_truediv i n = Ok (S754_finite false (Z.to_pos m3) e3)
    /\ 2 ^ 52 <= m3 < 2 ^ 53 /\ -106 <= e3 <= -53.
Proof.
  intros Hi Hn. unfold int_truediv.
  destruct (Z.eqb_spec n 0) as [-> | _]; [lia |].
  destruct i as [| a |]; try lia. destruct n as [| b |]; try lia.
  cbn [Z2SF]. rewrite SFdiv_pos. cbv zeta.
  set (d1 := Zdigits2 (Zpos a)). set (d2 := Zdigits2 (Zpos b)).
  pose proof (Zdigits2_bounds (Zpos a) ltac:(lia)) as [A1 A2]. fold d1 in A1, A2.
  pose proof (Zdigits2_bounds (Zpos b) ltac:(lia)) as [B1 B2]. fold d2 in B1, B2.
  assert (Hd2 : 1 <= d2 <= 53).
  { split; [unfold d2; cbn; lia |]. apply Zdigits2_le; lia. }
  assert (Hd1 : 1 <= d1 <= d2).
  { split; [unfold d1; cbn; lia |]. apply Zdigits2_le; lia. }
  rewrite fexp_eq.
  replace (Z.min (Z.max (d1 - d2 - 53) (-1074)) 0) with (d1 - d2 - 53) by lia.
  set (s := 53 + d2 - d1).
  replace (- (d1 - d2 - 53)) with s by (unfold s; lia).
  replace (d1 - d2 - 53) with (- s) by (unfold s; lia).
  set (q := Zpos a * 2 ^ s / Zpos b).
  assert (Hs : 53 <= s <= 105) by (unfold s; lia).
  pose proof (pow2_pos s ltac:(lia)) as Ps.
  assert (Hq52 : 2 ^ 52 <= q).
  { unfold q. apply Z.div_le_lower_bound; [lia |].
    assert (2 ^ (52 + d2) <= Zpos a * 2 ^ s).
    { replace (52 + d2) with (d1 - 1 + s) by (unfold s; lia).
      rewrite Z.pow_add_r by lia. apply Z.mul_le_mono_nonneg_r; lia. }
    assert (Zpos b * 2 ^ 52 < 2 ^ (52 + d2)).
    { replace (52 + d2) with (d2 + 52) by lia. rewrite Z.pow_add_r by lia.
      apply Z.mul_lt_mono_pos_r; [apply pow2_pos; lia | lia]. }
    lia. }
  assert (Hqpos : 0 < q) by (pose proof (pow2_pos 52 ltac:(lia)); lia).
  assert (Hdq : 53 <= Zdigits2 q <= 54).
  { split.
    - apply Zdigits2_ge; [exact Hq52 | exact Hqpos].
    - pose proof (Zdigits2_div (Zpos a) (Zpos b) s ltac:(lia) ltac:(lia) ltac:(lia)) as H.
      fold q d1 d2 in H. unfold s in H. lia. }
  destruct (binary_round_aux_normal false q (- s)
              (new_location (Zpos b) ((Zpos a * 2 ^ s) mod Zpos b))
              ltac:(lia) Hqpos ltac:(lia) ltac:(lia))
    as (m2 & m3 & e3 & Hm2 & _ & -> & Hm3 & He3 & Hval & Hm1b & Hm3b).
  cbn [SF_is_finite]. exists m3, e3. split; [reflexivity |]. split; [exact Hm3b |].
  set (k := Zdigits2 q - 53) in *.
  set (t := s - k).
  replace (- s + k) with (- t) in * by (unfold t; lia).
  pose proof (pow2_pos k ltac:(unfold k; lia)) as Pk.
  (* the quotient is below [2^s], so a 54th digit needs [s >= 54] *)
  assert (Hqs : q < 2 ^ s).
  { unfold q. apply Z.div_lt_upper_bound; [lia |].
    apply Z.mul_lt_mono_pos_r; lia. }
  assert (Ht : 53 <= t <= 105).
  { unfold t. split; [| unfold k; lia].
    destruct (Z.eq_dec k 0) as [-> | Hk]; [lia |].
    assert (Hk1 : k = 1) by (unfold k in *; lia). rewrite Hk1.
    assert (2 ^ 53 <= q).
    { pose proof (Zdigits2_bounds q Hqpos) as [Hlo _].
      replace (Zdigits2 q - 1) with 53 in Hlo by (unfold k in Hk1; lia). exact Hlo. }
    assert (53 < s); [| lia].
    apply (Z.pow_lt_mono_r_iff 2); lia. }
  pose proof (pow2_pos t ltac:(lia)) as Pt.
  split; [lia |].
  destruct (Z.eq_dec t 53) as [Ht53 | Hne]; [| lia].
  (* at [t = 53] the cut mantissa stays two below [2^53], so no carry *)
  assert (Hm1 : q / 2 ^ k = Zpos a * 2 ^ t / Zpos b).
  { unfold q. rewrite Z.div_div by lia.
    replace (2 ^ s) with (2 ^ t * 2 ^ k)
      by (rewrite <- Z.pow_add_r by (unfold k; lia); f_equal; unfold t; lia).
    rewrite Z.mul_assoc. rewrite Z.div_mul_cancel_r by lia. reflexivity. }
  assert (Hcut : q / 2 ^ k < 2 ^ 53 - 1).
  { rewrite Hm1, Ht53. apply Z.div_lt_upper_bound; [lia |].
    change (2 ^ 53) with 9007199254740992 in *. nia. }
  destruct (Z.eq_dec e3 (- t)) as [-> | He]; [lia |].
  exfalso. replace (e3 - - t) with 1 in Hval by lia. change (2 ^ 1) with 2 in Hval.
  change (2 ^ 52) with 4503599627370496 in *. change (2 ^ 53) with 9007199254740992 in *.
  lia.
Qed.

Lemma new_location_zero (b : positive) : new_location (Zpos b) 0 = loc_Exact.
Proof.
  unfold new_location, new_location_even, new_location_odd.
  destruct (Z.even (Zpos b)); reflexivity.
Qed.

(** [n / n] is the float one. *)
Lemma int_truediv_self (n : Z) :
  0 < n -> int_truediv n n = Ok (S754_finite false 4503599627370496 (-52)).
Proof.
  intros Hn. unfold int_truediv.
  destruct (Z.eqb_spec n 0) as [-> | _]; [lia |].
  destruct n as [| b |]; try lia.
  cbn [Z2SF]. rewrite SFdiv_pos. cbv zeta.
  rewrite Z.sub_diag. change (Z.min (fexp prec emax 0) 0) with (-53).
  change (- -53) with 53.
  rewrite (Z.mul_comm (Zpos b)), Z.div_mul, Z.mod_mul, new_location_zero by lia.
  vm_compute. reflexivity.
Qed.

(** The value handed to the progress bar after item [i] of [n], for a
    batch of fewer than [2^53] images: within the range of the bar, and
    100 after the last item. *)
Lemma progress_percent_range (i n : Z) :
  1 <= i <= n -> n < 2 ^ 53 ->
  exists v : Z, progress_percent i n = Ok v /\ 0 <= v <= 100 /\ (i = n -> v = 100).
Proof.
  intros Hi Hn. unfold progress_percent.
  destruct (Z.eq_dec i n) as [-> | Hne].
  { rewrite int_truediv_self by lia. exists 100. split; [vm_compute; reflexivity | lia]. }
  destruct (int_truediv_fraction i n ltac:(lia) Hn) as (m3 & e3 & -> & Hm3 & He3).
  cbn [rbind]. unfold f100. cbn [SFmul xorb].
  assert (Hm3pos : 0 < m3) by (change (2 ^ 52) with 4503599627370496 in Hm3; lia).
  rewrite Pos2Z.inj_mul, Z2Pos.id by lia.
  set (P := m3 * 7036874417766400).
  assert (HP : 2 ^ 104 <= P < 2 ^ 106).
  { unfold P. split.
    - change (2 ^ 104) with (2 ^ 52 * 2 ^ 52). apply Z.mul_le_mono_nonneg; lia.
    - change (2 ^ 106) with (2 ^ 53 * 2 ^ 53). apply Z.mul_lt_mono_nonneg; lia. }
  assert (HPpos : 0 < P) by (unfold P; lia).
  assert (HdP : Zdigits2 P = 105 \/ Zdigits2 P = 106).
  { destruct (Z_lt_le_dec P (2 ^ 105)).
    - left. apply Zdigits2_unique; [lia |]. change (105 - 1) with 104. lia.
    - right. apply Zdigits2_unique; [lia |]. change (106 - 1) with 105. lia. }
  destruct (binary_round_aux_normal false P (e3 + -46) loc_Exact
              ltac:(lia) HPpos ltac:(lia) ltac:(lia))
    as (m2 & mr & er & Hm2 & _ & -> & Hmr & Her & Hval & _ & _).
  set (k := Zdigits2 P - 53) in *.
  assert (Hk : 52 <= k <= 53) by (unfold k; lia).
  set (E1 := e3 + -46 + k) in *.
  assert (HE1 : E1 <= -46) by (unfold E1; lia).
  rewrite int_of_float_finite by lia. rewrite Z2Pos.id, Z.mul_1_l by lia.
  exists (mr / 2 ^ (- er)).
  split; [reflexivity |]. split; [| contradiction].
  pose proof (pow2_pos (- er) ltac:(lia)) as Per.
  split; [apply Z.div_pos; lia |].
  (* the cut product stays below [100 * 2^(-E1)] *)
  pose proof (pow2_pos k ltac:(lia)) as Pk.
  pose proof (pow2_pos (- E1) ltac:(lia)) as PE.
  assert (Hcut : P / 2 ^ k < 100 * 2 ^ (- E1)).
  { apply Z.div_lt_upper_bound; [lia |].
    (* 2^k * 100 * 2^(-E1) = 100 * 2^(46 - e3) > m3 * 100 * 2^46 *)
    replace (2 ^ k * (100 * 2 ^ (- E1))) with (100 * 2 ^ (46 + - e3))
      by (replace (46 + - e3) with (k + - E1) by (unfold E1; lia);
          rewrite Z.pow_add_r by lia; ring).
    rewrite Z.pow_add_r by lia. unfold P.
    change 7036874417766400 with (100 * 2 ^ 46).
    assert (m3 < 2 ^ (- e3)).
    { apply Z.lt_le_trans with (2 ^ 53); [lia |]. apply Z.pow_le_mono_r; lia. }
    pose proof (pow2_pos 46 ltac:(lia)).
    replace (m3 * (100 * 2 ^ 46)) with (100 * 2 ^ 46 * m3) by ring.
    replace (100 * (2 ^ 46 * 2 ^ (- e3))) with (100 * 2 ^ 46 * 2 ^ (- e3)) by ring.
    apply Z.mul_lt_mono_pos_l; lia. }
  assert (Hm2le : m2 <= 100 * 2 ^ (- E1)) by lia.
  apply Z.lt_succ_r. apply Z.div_lt_upper_bound; [lia |].
  destruct (Z.eq_dec er E1) as [-> | Hcarry].
  - replace (E1 - E1) with 0 in Hval by lia. change (2 ^ 0) with 1 in Hval. lia.
  - replace (er - E1) with 1 in Hval by lia. change (2 ^ 1) with 2 in Hval.
    assert (H2 : 2 ^ (- E1) = 2 * 2 ^ (- er)).
    { replace (- E1) with (1 + - er) by lia. rewrite Z.pow_add_r by lia. reflexivity. }
    rewrite H2 in Hm2le. lia.
Qed.

Lemma export_items_progress (lib : Pillow) (export_dir : string) (cfg : WatermarkConfig.t)
    (n : Z) (paths : list string) :
  n < 2 ^ 53 ->
  forall (i : Z) (w : World),
    1 <= i -> i + Z.of_nat (List.length paths) - 1 = n ->
    let '(evs, r, w') := export_items lib export_dir cfg n i paths w in
    Forall in_bar_range evs
    /\ (paths = [] -> evs = [])
    /\ (forall (front : list string) (p : string),
          paths = front ++ [p] -> in_export_dir w export_dir p = false ->
          exists pre : list event, evs = pre ++ [ProgressSetValue 100]).
Proof.
  intros Hn. induction paths as [| p rest IH]; intros i w Hi Hlen.
  { cbn. split; [constructor |]. split; [reflexivity |].
    intros [| ? ?] p H; discriminate. }
  rewrite export_items_cons. cbn [List.length] in Hlen.
  destruct (in_export_dir w export_dir p) eqn:Hg.
  - specialize (IH (i + 1) w ltac:(lia) ltac:(lia)).
    destruct (export_items lib export_dir cfg n (i + 1) rest w) as [[evs r] w'].
    destruct IH as (Hall & _ & Hlast). split; [constructor; [exact I | exact Hall] |].
    split; [discriminate |].
    intros front q Hsplit Hq. destruct front as [| f front].
    + injection Hsplit as -> ->. congruence.
    + injection Hsplit as <- ->. destruct (Hlast front q eq_refl Hq) as [pre ->].
      now exists (WarningSourceDir (basename p) (dirname p) :: pre).
  - pose proof (export_one_cwd lib export_dir cfg p w) as Hcwd.
    destruct (export_one lib export_dir cfg p w) as [tried w1]. cbn [snd] in Hcwd.
    destruct (progress_percent_range i n ltac:(lia) Hn) as (v & -> & Hv & Hfull).
    specialize (IH (i + 1) w1 ltac:(lia) ltac:(lia)).
    destruct (export_items lib export_dir cfg n (i + 1) rest w1) as [[evs r] w'].
    destruct IH as (Hall & Hnil & Hlast).
    assert (Hprinted : Forall in_bar_range
                         match tried with
                         | Ok _ => []
                         | Raise e => [PrintExportFailed p e]
                         end)
      by (destruct tried; repeat constructor).
    split; [apply Forall_app; split; [exact Hprinted | constructor; [exact Hv | exact Hall]] |].
    split; [destruct tried; discriminate |].
    intros front q Hsplit Hq. destruct front as [| f front].
    + injection Hsplit as -> ->. cbn [List.length] in Hlen.
      rewrite (Hfull ltac:(lia)), (Hnil eq_refl). eexists. reflexivity.
    + injection Hsplit as <- ->.
      rewrite <- (in_export_dir_cwd w w1 export_dir q Hcwd) in Hq.
      destruct (Hlast front q eq_refl Hq) as [pre ->].
      eexists (_ ++ ProgressSetValue v :: pre). now rewrite <- app_assoc.
Qed.

(** Every value a batch of fewer than [2^53] images hands to the progress
    bar lies within the bar's range 0..100; and when the last image of
    the batch is not held back by the source-folder guard, the bar is set
    to 100 just before the completion message, whether that image was
    exported or failed. *)
Theorem on_export_all_progress (lib : Pillow) (paths : list string) (export_dir : string)
    (cfg : WatermarkConfig.t) (w : World) :
  Z.of_nat (List.length paths) < 2 ^ 53 ->
  let '(evs, r, w') := on_export_all lib paths export_dir cfg w in
  Forall in_bar_range evs
  /\ (forall (front : list string) (p : string),
        paths = front ++ [p] -> in_export_dir w export_dir p = false ->
        exists pre : list event,
          evs = pre ++ [ProgressSetValue 100;
                        InformationDone (Z.of_nat (List.length paths))]).
Proof.
  intros Hn. unfold on_export_all. destruct paths as [| p0 rest] eqn:Hp.
  { split; [repeat constructor |]. intros [| ? ?] p H; discriminate. }
  rewrite <- Hp in *. clear Hp.
  pose proof (export_items_progress lib export_dir cfg (Z.of_nat (List.length paths)) paths
                Hn 1 w ltac:(lia) ltac:(lia)) as Hprog.
  pose proof (export_items_run lib export_dir cfg (Z.of_nat (List.length paths)) paths 1 w
                ltac:(lia) ltac:(lia)) as Hrun.
  destruct (export_items lib export_dir cfg _ 1 paths w) as [[evs r] w'].
  destruct Hrun as (-> & _). destruct Hprog as (Hall & _ & Hlast).
  split; [apply Forall_app; split; [exact Hall | repeat constructor] |].
  intros front p Hsplit Hq. destruct (Hlast front p Hsplit Hq) as [pre ->].
  exists pre. now rewrite <- app_assoc.
Qed.

(** Three photos, the second one in the export folder: the bar is set
    to 33 and to 100. *)
Lemma on_export_all_progress_witness :
  let '(evs, r, w') :=
    on_export_all sample_lib ["/photos/a.png"; "/out/b.png"; "/photos/b.jpg"] "/out"
      plain_config studio in
  Forall in_bar_range evs
  /\ (forall (front : list string) (p : string),
        ["/photos/a.png"; "/out/b.png"; "/photos/b.jpg"] = front ++ [p] ->
        in_export_dir studio "/out" p = false ->
        exists pre : list event,
          evs = pre ++ [ProgressSetValue 100; InformationDone 3]).
Proof.
  apply (on_export_all_progress sample_lib
           ["/photos/a.png"; "/out/b.png"; "/photos/b.jpg"] "/out" plain_config studio).
  vm_compute. reflexivity.
Defined.

(** A batch whose last image lies in the export folder never sets the bar
    to 100. *)
Lemma progress_stops_short_example :
  fst (fst (on_export_all sample_lib ["/photos/a.png"; "/out/b.png"] "/out"
              plain_config studio))
  = [ProgressSetValue 50; WarningSourceDir "b.png" "/out"; InformationDone 2].
Proof. vm_compute. reflexivity. Qed.

(** ** Dragging the watermark *)

Lemma last_default {A : Type} (l : list A) (a d d' : A) :
  List.last (a :: l) d = List.last (a :: l) d'.
Proof.
  revert a. induction l as [| b l IH]; intros a; [reflexivity |].
  change (List.last (b :: l) d = List.last (b :: l) d'). apply IH.
Qed.

Section PreviewFacts.
Variable lib : Pillow.

(** A refresh of the preview never raises, leaves the world alone and
    changes only what is shown. *)
Lemma update_preview_run (cfg : WatermarkConfig.t) (self : PreviewCanvas.t) (w : World) :
  exists d : display,
    update_preview lib cfg self w
    = (Ok {| PreviewCanvas.width := PreviewCanvas.width self;
             PreviewCanvas.height := PreviewCanvas.height self;
             PreviewCanvas.has_cfg := PreviewCanvas.has_cfg self;
             PreviewCanvas.current_img_path := PreviewCanvas.current_img_path self;
             PreviewCanvas.dragging := PreviewCanvas.dragging self;
             PreviewCanvas.last_pos := PreviewCanvas.last_pos self;
             PreviewCanvas.shown := Some d |}, w).
Proof.
  unfold update_preview. run_io.
  destruct (PreviewCanvas.current_img_path self) as [path |]; [| now eexists].
  destruct (String.eqb path "" || negb (PreviewCanvas.has_cfg self)); [now eexists |].
  pose proof (apply_watermark_once_world lib path cfg w) as Hw.
  destruct (apply_watermark_once lib path cfg w) as [[im | e] w1]; cbn [snd] in Hw; subst w1;
    now eexists.
Qed.

Lemma mouseMoveEvent_run (cfg : WatermarkConfig.t) (self : PreviewCanvas.t)
    (last pos : Z * Z) (w : World) :
  PreviewCanvas.dragging self = true -> PreviewCanvas.has_cfg self = true ->
  Layout.allow_drag (WatermarkConfig.layout cfg) = true ->
  PreviewCanvas.last_pos self = Some last ->
  exists self' : PreviewCanvas.t,
    mouseMoveEvent lib cfg self pos w
    = ((with_layout cfg
          (with_offsets (WatermarkConfig.layout cfg)
             (Layout.offset_x (WatermarkConfig.layout cfg) + (fst pos - fst last))
             (Layout.offset_y (WatermarkConfig.layout cfg) + (snd pos - snd last))),
        self'), Ok tt, w)
    /\ PreviewCanvas.dragging self' = true /\ PreviewCanvas.has_cfg self' = true
    /\ PreviewCanvas.last_pos self' = Some pos.
Proof.
  intros Hd Hc Ha Hl. unfold mouseMoveEvent, refreshed. rewrite Hd, Hc, Ha, Hl. cbn [andb fst snd].
  match goal with
  | |- context [update_preview lib ?c ?s w] =>
      destruct (update_preview_run c s w) as [d ->]
  end.
  eexists. split; [reflexivity |]. cbn. auto.
Qed.

(** A drag moves the watermark by the way the mouse went: after a press
    of the left button at [start], with dragging allowed, any run of
    mouse moves ends normally, changes nothing on disk, and leaves the
    offsets of the layout at their values before the drag plus the
    difference between the last position and [start]; the offsets are not
    clamped and nothing else in the configuration changes. *)
Theorem drag_moves_offsets (cfg : WatermarkConfig.t) (self : PreviewCanvas.t)
    (start : Z * Z) (positions : list (Z * Z)) (w : World) :
  PreviewCanvas.has_cfg self = true ->
  Layout.allow_drag (WatermarkConfig.layout cfg) = true ->
  let pressed := mousePressEvent cfg self LeftButton start in
  let stop := List.last positions start in
  let layout := WatermarkConfig.layout cfg in
  exists self' : PreviewCanvas.t,
    mouse_moves lib cfg pressed positions w
    = ((with_layout cfg
          (with_offsets layout
             (Layout.offset_x layout + (fst stop - fst start))
             (Layout.offset_y layout + (snd stop - snd start))),
        self'), Ok tt, w)
    /\ PreviewCanvas.last_pos self' = Some stop.
Proof.
  intros Hc Ha pressed stop layout.
  assert (Hp : PreviewCanvas.dragging pressed = true /\ PreviewCanvas.has_cfg pressed = true
               /\ PreviewCanvas.last_pos pressed = Some start).
  { unfold pressed, mousePressEvent. rewrite Hc, Ha. cbn. auto. }
  assert (Hgen : forall (l : list (Z * Z)) (c : WatermarkConfig.t) (s : PreviewCanvas.t)
                   (last : Z * Z),
            PreviewCanvas.dragging s = true -> PreviewCanvas.has_cfg s = true ->
            Layout.allow_drag (WatermarkConfig.layout c) = true ->
            PreviewCanvas.last_pos s = Some last ->
            exists s' : PreviewCanvas.t,
              mouse_moves lib c s l w
              = ((with_layout c
                    (with_offsets (WatermarkConfig.layout c)
                       (Layout.offset_x (WatermarkConfig.layout c)
                        + (fst (List.last l last) - fst last))
                       (Layout.offset_y (WatermarkConfig.layout c)
                        + (snd (List.last l last) - snd last))),
                  s'), Ok tt, w)
              /\ PreviewCanvas.last_pos s' = Some (List.last l last)).
  { induction l as [| pos rest IH]; intros c s last Hd Hh Hal Hl.
    - exists s. cbn [mouse_moves List.last]. rewrite !Z.sub_diag, !Z.add_0_r.
      split; [| exact Hl]. destruct c as [? ? ? ? [? ? ? ? ?] ?]. reflexivity.
    - cbn [mouse_moves].
      destruct (mouseMoveEvent_run c s last pos w Hd Hh Hal Hl) as (s1 & -> & Hd1 & Hh1 & Hl1).
      cbv beta iota.
      match goal with
      | |- context [mouse_moves lib ?c' s1 rest w] =>
          destruct (IH c' s1 pos Hd1 Hh1 Hal Hl1) as (s2 & -> & Hl2)
      end.
      exists s2.
      assert (Hlast : List.last (pos :: rest) last = List.last rest pos).
      { destruct rest as [| q r]; [reflexivity |].
        change (List.last (pos :: q :: r) last) with (List.last (q :: r) last).
        apply last_default. }
      rewrite Hlast. split; [| exact Hl2].
      cbn [with_layout with_offsets WatermarkConfig.layout Layout.offset_x Layout.offset_y
           Layout.anchor Layout.rotation_deg Layout.allow_drag WatermarkConfig.use_text
           WatermarkConfig.text WatermarkConfig.use_image WatermarkConfig.image
           WatermarkConfig.export].
      assert (Hx : forall a b c d : Z, a + (b - c) + (d - b) = a + (d - c))
        by (intros; lia).
      unfold with_layout, with_offsets. cbn. now rewrite !Hx. }
  destruct Hp as (Hd & Hh & Hl). exact (Hgen positions cfg pressed start Hd Hh Ha Hl).
Qed.
End PreviewFacts.

Lemma float_of_spin_ok (z : Z) :
  -180 <= z <= 180 -> exists f : spec_float, float_of_int z = Ok f.
Proof.
  intros Hz.
  assert (H : exists f, float_of_int (z + 180 - 180) = Ok f).
  { apply (Z_range_ind (fun k => exists f, float_of_int (k - 180) = Ok f) 361); [| lia].
    apply List.Forall_forall. intros k Hk.
    assert (Hb : forallb (fun k => is_ok (float_of_int (k - 180)))
                   (map Z.of_nat (seq 0 361)) = true) by (vm_compute; reflexivity).
    rewrite List.forallb_forall in Hb. specialize (Hb k Hk).
    destruct (float_of_int (k - 180)) as [f |]; [now exists f | discriminate]. }
  now replace (z + 180 - 180) with z in H by lia.
Qed.

Section ControlFacts.
Variable lib : Pillow.

Lemma set_config_run (cfg : WatermarkConfig.t) (self : PreviewCanvas.t) (w : World) :
  exists self' : PreviewCanvas.t, set_config lib cfg self w = (Ok self', w).
Proof.
  unfold set_config.
  match goal with
  | |- context [update_preview lib ?c ?s w] => destruct (update_preview_run lib c s w) as [d ->]
  end.
  now eexists.
Qed.

(** What [on_change] makes of the configuration, for a rotation within
    the range of its spin box: it ends normally; every field that has a
    control takes the value of the control, the two offsets included,
    whatever they were before; and the fields without a control (font
    path, colours, shadow, watermark file, dragging switch) stay. *)
Lemma on_change_run (cfg : WatermarkConfig.t) (preview : PreviewCanvas.t) (ui : Widgets)
    (w : World) :
  -180 <= spn_rotate ui <= 180 ->
  exists (rotation : spec_float) (preview' : PreviewCanvas.t),
    float_of_int (spn_rotate ui) = Ok rotation
    /\ on_change lib cfg preview ui w
       = (({| WatermarkConfig.use_text := chk_text ui;
              WatermarkConfig.text :=
                {| TextStyle.text := edt_text ui;
                   TextStyle.opacity := sld_text_op ui;
                   TextStyle.font_path := TextStyle.font_path (WatermarkConfig.text cfg);
                   TextStyle.font_size := spn_font ui;
                   TextStyle.stroke := chk_stroke ui;
                   TextStyle.stroke_width := spn_stroke_w ui;
                   TextStyle.stroke_color := TextStyle.stroke_color (WatermarkConfig.text cfg);
                   TextStyle.fill_color := TextStyle.fill_color (WatermarkConfig.text cfg);
                   TextStyle.shadow := TextStyle.shadow (WatermarkConfig.text cfg);
                   TextStyle.shadow_offset :=
                     TextStyle.shadow_offset (WatermarkConfig.text cfg) |};
              WatermarkConfig.use_image := chk_img ui;
              WatermarkConfig.image :=
                {| ImageMark.path := ImageMark.path (WatermarkConfig.image cfg);
                   ImageMark.opacity := sld_img_op ui;
                   ImageMark.scale_percent := spn_img_scale ui |};
              WatermarkConfig.layout :=
                {| Layout.anchor := cmb_anchor ui;
                   Layout.offset_x := spn_offx ui;
                   Layout.offset_y := spn_offy ui;
                   Layout.rotation_deg := rotation;
                   Layout.allow_drag := Layout.allow_drag (WatermarkConfig.layout cfg) |};
              WatermarkConfig.export :=
                {| ExportRule.mode := cmb_mode ui;
                   ExportRule.text := edt_rule ui;
                   ExportRule.out_format := cmb_format ui;
                   ExportRule.jpeg_quality := spn_quality ui;
                   ExportRule.resize_mode := cmb_resize ui;
                   ExportRule.resize_value := spn_resize ui |} |},
           preview'),
          Ok tt,
          snd (on_change lib cfg preview ui w)).
Proof.
  intros Hrot. destruct (float_of_spin_ok _ Hrot) as [rotation Hf].
  unfold on_change. rewrite Hf.
  match goal with
  | |- context [set_config lib ?c preview w] =>
      destruct (set_config_run c preview w) as [preview' ->]
  end.
  match goal with
  | |- context [save_last_state ?v w] =>
      pose proof (proj1 (save_last_state_silent v w)) as Hs;
      destruct (save_last_state v w) as [[[] | e] w2]; cbn [fst] in Hs; [| discriminate]
  end.
  exists rotation, preview'. split; reflexivity.
Qed.

(** A change of any control throws a drag away: after a press, any run of
    mouse moves and the release, [on_change] ends normally and leaves the
    configuration exactly as it would have without the drag, with the
    offsets of the two spin boxes. *)
Theorem control_change_discards_drag (cfg : WatermarkConfig.t) (self : PreviewCanvas.t)
    (start : Z * Z) (positions : list (Z * Z)) (ui : Widgets) (w : World) :
  PreviewCanvas.has_cfg self = true ->
  Layout.allow_drag (WatermarkConfig.layout cfg) = true ->
  -180 <= spn_rotate ui <= 180 ->
  let '((dragged, self1), _, w1) :=
    mouse_moves lib cfg (mousePressEvent cfg self LeftButton start) positions w in
  let '((cfg', _), r, _) := on_change lib dragged (mouseReleaseEvent self1) ui w1 in
  r = Ok tt
  /\ Layout.offset_x (WatermarkConfig.layout cfg') = spn_offx ui
  /\ Layout.offset_y (WatermarkConfig.layout cfg') = spn_offy ui
  /\ cfg' = fst (fst (fst (on_change lib cfg self ui w))).
Proof.
  intros Hc Ha Hrot.
  destruct (drag_moves_offsets lib cfg self start positions w Hc Ha) as (self1 & -> & _).
  match goal with
  | |- context [on_change lib ?c ?s ui w] =>
      destruct (on_change_run c s ui w Hrot) as (rot1 & p1 & Hf1 & ->)
  end.
  destruct (on_change_run cfg self ui w Hrot) as (rot2 & p2 & Hf2 & ->).
  assert (rot1 = rot2) by congruence. subst rot2.
  cbn. auto.
Qed.
End ControlFacts.

(** A drag of 30 by 12 pixels on the default layout, then a change of a
    control whose offset boxes hold 0. *)
Lemma control_change_discards_drag_witness :
  let self := {| PreviewCanvas.width := 640; PreviewCanvas.height := 480;
                 PreviewCanvas.has_cfg := true;
                 PreviewCanvas.current_img_path := Some "/photos/a.png";
                 PreviewCanvas.dragging := false; PreviewCanvas.last_pos := None;
                 PreviewCanvas.shown := None |} in
  let ui := {| chk_text := true; edt_text := "Sample Watermark"; sld_text_op := 40;
               spn_font := 36; chk_stroke := true; spn_stroke_w := 2; chk_img := false;
               sld_img_op := 40; spn_img_scale := 30; cmb_anchor := "center";
               spn_offx := 0; spn_offy := 0; spn_rotate := 0; cmb_mode := "keep";
               edt_rule := ""; cmb_format := "PNG"; spn_quality := 90;
               cmb_resize := "none"; spn_resize := 100 |} in
  let '((dragged, self1), _, w1) :=
    mouse_moves sample_lib WatermarkConfig.default
      (mousePressEvent WatermarkConfig.default self LeftButton (100, 100))
      [(110, 104); (130, 112)] studio in
  let '((cfg', _), r, _) :=
    on_change sample_lib dragged (mouseReleaseEvent self1) ui w1 in
  Layout.offset_x (WatermarkConfig.layout dragged) = 30
  /\ Layout.offset_y (WatermarkConfig.layout dragged) = 12
  /\ r = Ok tt
  /\ Layout.offset_x (WatermarkConfig.layout cfg') = 0
  /\ Layout.offset_y (WatermarkConfig.layout cfg') = 0
  /\ cfg' = fst (fst (fst (on_change sample_lib WatermarkConfig.default self ui studio))).
Proof.
  intros self ui.
  pose proof (control_change_discards_drag sample_lib WatermarkConfig.default self
                (100, 100) [(110, 104); (130, 112)] ui studio
                eq_refl eq_refl ltac:(cbn; lia)) as H.
  destruct (mouse_moves sample_lib WatermarkConfig.default _ _ studio)
    as [[[dragged self1] r0] w1] eqn:Hdrag.
  assert (Hoff : Layout.offset_x (WatermarkConfig.layout dragged) = 30
                 /\ Layout.offset_y (WatermarkConfig.layout dragged) = 12).
  { vm_compute in Hdrag. injection Hdrag as <- _ _ _. split; reflexivity. }
  destruct (on_change sample_lib dragged (mouseReleaseEvent self1) ui w1) as [[[cfg' ?] r] ?].
  destruct Hoff as [Hx Hy]. destruct H as (H1 & H2 & H3 & H4).
  split; [exact Hx |]. split; [exact Hy |]. split; [exact H1 |].
  split; [exact H2 |]. split; [exact H3 | exact H4].
Defined.

(** A drag from (100, 100) over (110, 104) to (130, 112). *)
Lemma drag_moves_offsets_witness :
  let self := {| PreviewCanvas.width := 640; PreviewCanvas.height := 480;
                 PreviewCanvas.has_cfg := true;
                 PreviewCanvas.current_img_path := Some "/photos/a.png";
                 PreviewCanvas.dragging := false; PreviewCanvas.last_pos := None;
                 PreviewCanvas.shown := None |} in
  exists self' : PreviewCanvas.t,
    mouse_moves sample_lib WatermarkConfig.default
      (mousePressEvent WatermarkConfig.default self LeftButton (100, 100))
      [(110, 104); (130, 112)] studio
    = ((with_layout WatermarkConfig.default
          (with_offsets Layout.default (0 + (130 - 100)) (0 + (112 - 100))), self'),
       Ok tt, studio)
    /\ PreviewCanvas.last_pos self' = Some (130, 112).
Proof.
  intros self.
  exact (drag_moves_offsets sample_lib WatermarkConfig.default self (100, 100)
           [(110, 104); (130, 112)] studio eq_refl eq_refl).
Defined.

(** ** Centring *)

(** A centred overlay sits in the middle to the pixel: along each axis
    the margin before it and the margin after it differ by at most one,
    whatever the sizes, and an overlay anchored at the far side ends
    exactly at the far edge. *)
Theorem centre_margins_balanced (bw bh mw mh offx offy : Z) :
  let '(x, y) := calc_anchor_pos bw bh mw mh "center" offx offy in
  let '(xr, yb) := calc_anchor_pos bw bh mw mh "br" offx offy in
  -1 <= (x - offx) - (bw - mw - (x - offx)) <= 1
  /\ -1 <= (y - offy) - (bh - mh - (y - offy)) <= 1
  /\ xr - offx + mw = bw
  /\ yb - offy + mh = bh.
Proof.
  cbn -[Z.div Z.add Z.sub].
  pose proof (half_bounds bw). pose proof (half_bounds bh).
  pose proof (half_bounds mw). pose proof (half_bounds mh).
  lia.
Qed.

(** ** Where an export lands *)

Lemma cut_last_sep_closed (a : string) :
  endswith_sep a = true -> snd (cut_last_sep a) = "".
Proof.
  induction a as [| c r IH]; [discriminate |].
  cbn [endswith_sep cut_last_sep]. destruct r as [| c' r'].
  - intros Hc. cbn [cut_last_sep]. now rewrite Hc.
  - intros Hend. specialize (IH Hend).
    pose proof (cut_last_sep_app (String c' r')) as Happ.
    destruct (cut_last_sep (String c' r')) as [h t]. cbn [fst snd] in *. subst t.
    rewrite append_empty_r in Happ. subst h. reflexivity.
Qed.

Lemma endswith_sep_slash (a : string) : endswith_sep (a +:+ "/") = true.
Proof.
  induction a as [| c r IH]; [reflexivity |].
  rewrite append_cons. cbn [endswith_sep].
  destruct (r +:+ "/") eqn:E; [destruct r; discriminate | exact IH].
Qed.

Lemma basename_append (a name : string) :
  a = "" \/ endswith_sep a = true ->
  string_forallb (fun c => negb (is_sep c)) name = true ->
  basename (a +:+ name) = name.
Proof.
  intros Ha Hname. unfold basename. rewrite (cut_last_sep_append _ _ Hname). cbn [snd].
  destruct Ha as [-> | Ha]; [reflexivity |].
  now rewrite (cut_last_sep_closed a Ha).
Qed.

(** The path [export_image] joins: with a rule text free of separators
    the file name is free of them and sits directly in the export
    directory; a prefix that starts with a separator makes the name
    absolute, and the join drops the directory. *)
Lemma out_path_shape (src_path export_dir : string) (rule : ExportRule.t) :
  let name :=
    claimed_name (ExportRule.mode rule) (ExportRule.text rule)
      (fst (splitext (basename src_path)))
    +:+ "." +:+ (if String.eqb (ExportRule.out_format rule) "JPEG" then "jpg" else "png") in
  (string_forallb (fun c => negb (is_sep c)) (ExportRule.text rule) = true ->
   string_forallb (fun c => negb (is_sep c)) name = true
   /\ basename (out_path src_path export_dir rule) = name
   /\ (out_path src_path export_dir rule = export_dir +:+ name
       \/ out_path src_path export_dir rule = export_dir +:+ "/" +:+ name))
  /\ (ExportRule.mode rule = "prefix" -> startswith_sep (ExportRule.text rule) = true ->
      out_path src_path export_dir rule = name).
Proof.
  intros name. split.
  - intros Htext.
    assert (Hname : string_forallb (fun c => negb (is_sep c)) name = true).
    { unfold name, claimed_name. pose proof (stem_no_sep src_path) as Hstem.
      destruct (String.eqb (ExportRule.mode rule) "prefix");
        [| destruct (String.eqb (ExportRule.mode rule) "suffix")];
        destruct (String.eqb (ExportRule.out_format rule) "JPEG");
        rewrite !forallb_append, ?Htext, ?Hstem; reflexivity. }
    split; [exact Hname |].
    assert (Hstart : startswith_sep name = false).
    { destruct name as [| c r]; [reflexivity |]. cbn [string_forallb] in Hname.
      apply andb_true_iff in Hname as [Hc _]. now apply negb_true_iff in Hc. }
    unfold out_path. fold name. unfold path_join. rewrite Hstart.
    destruct (String.eqb_spec export_dir "") as [-> | Hne]; cbn [orb].
    + split; [| now left]. apply basename_append; [now left | exact Hname].
    + destruct (endswith_sep export_dir) eqn:Hend.
      * split; [| now left]. apply basename_append; [now right | exact Hname].
      * split; [| now right]. rewrite <- append_assoc.
        apply basename_append; [right; apply endswith_sep_slash | exact Hname].
  - intros Hmode Hstart. unfold out_path. fold name.
    assert (Hn : startswith_sep name = true).
    { unfold name, claimed_name. rewrite Hmode. cbn [String.eqb Ascii.eqb Bool.eqb].
      destruct (ExportRule.text rule) as [| c r]; [discriminate |].
      rewrite !append_cons. exact Hstart. }
    unfold path_join. now rewrite Hn.
Qed.

Lemma export_image_returns_out_path (lib : Pillow) (img : Image.t)
    (src_path export_dir : string) (rule : ExportRule.t) (w : World) (p : string) :
  fst (export_image lib img src_path export_dir rule w) = Ok p ->
  let jpeg := String.eqb (ExportRule.out_format rule) "JPEG" in
  p = out_path src_path export_dir rule
  /\ exists final_img : Image.t,
       apply_resize lib img rule = Ok final_img
       /\ fs (snd (export_image lib img src_path export_dir rule w)) !! abspath w p
          = Some (File (Picture (if jpeg then "JPEG" else "PNG")
                          (if jpeg && mem_string (Image.mode final_img) ["RGBA"; "LA"]
                           then Image.convert final_img "RGB" else final_img)
                          (if jpeg
                           then [("quality", ExportRule.jpeg_quality rule); ("subsampling", 0)]
                           else []))).
Proof.
  intros Hp jpeg. pose proof (export_image_run lib img src_path export_dir rule w) as Hrun.
  cbv zeta in Hrun.
  destruct (export_image lib img src_path export_dir rule w) as [[p' | e] w'];
    cbn [fst snd] in *; [| discriminate].
  injection Hp as ->. destruct Hrun as (-> & w1 & final_img & _ & Hrs & _ & ->).
  split; [reflexivity |]. exists final_img. split; [exact Hrs |]. apply with_node_lookup.
Qed.

(** With a rule text that holds no path separator, a successful export
    returns a path directly inside the export directory: the directory,
    a separator unless the directory is empty or already ends with one,
    and a file name without separators. *)
Theorem export_stays_in_export_dir (lib : Pillow) (img : Image.t)
    (src_path export_dir : string) (rule : ExportRule.t) (w : World) (p : string) :
  string_forallb (fun c => negb (is_sep c)) (ExportRule.text rule) = true ->
  fst (export_image lib img src_path export_dir rule w) = Ok p ->
  let name :=
    claimed_name (ExportRule.mode rule) (ExportRule.text rule)
      (fst (splitext (basename src_path)))
    +:+ "." +:+ (if String.eqb (ExportRule.out_format rule) "JPEG" then "jpg" else "png") in
  string_forallb (fun c => negb (is_sep c)) name = true
  /\ basename p = name
  /\ p = export_dir +:+
         (if String.eqb export_dir "" || endswith_sep export_dir then "" else "/") +:+ name.
Proof.
  intros Htext Hp name.
  apply export_image_returns_out_path in Hp as [-> _].
  destruct (out_path_shape src_path export_dir rule) as [Hin _].
  destruct (Hin Htext) as (Hname & Hbase & _). fold name in Hname, Hbase.
  split; [exact Hname |]. split; [exact Hbase |].
  assert (Hstart : startswith_sep name = false).
  { destruct name as [| c r]; [reflexivity |]. cbn [string_forallb] in Hname.
    apply andb_true_iff in Hname as [Hc _]. now apply negb_true_iff in Hc. }
  unfold out_path. fold name. unfold path_join. rewrite Hstart.
  destruct (String.eqb export_dir "" || endswith_sep export_dir); reflexivity.
Qed.

Lemma export_stays_in_export_dir_witness :
  basename "/out/b_wm.png" = "b_wm.png" /\ "/out/b_wm.png" = "/out" +:+ "/" +:+ "b_wm.png".
Proof.
  pose proof (export_stays_in_export_dir sample_lib opaque_rgb "/photos/b.jpg" "/out"
         {| ExportRule.mode := "suffix"; ExportRule.text := "_wm";
            ExportRule.out_format := "PNG"; ExportRule.jpeg_quality := 90;
            ExportRule.resize_mode := "none"; ExportRule.resize_value := 100 |} studio
         "/out/b_wm.png" ltac:(reflexivity) ltac:(vm_compute; reflexivity)) as H.
  cbv zeta in H. destruct H as (_ & Hb & Hp). split; [exact Hb | exact Hp].
Defined.

(** In [prefix] mode with a text that starts with a path separator, the
    export directory plays no part in where a successful export lands:
    the path returned is the text followed by the source's stem and the
    new extension, whatever the export directory, and the picture handed
    to the encoder is what that path holds afterwards, in place of
    anything that was there. *)
Theorem export_prefix_leaves_export_dir (lib : Pillow) (img : Image.t)
    (src_path export_dir : string) (rule : ExportRule.t) (w : World) (p : string) :
  ExportRule.mode rule = "prefix" ->
  startswith_sep (ExportRule.text rule) = true ->
  fst (export_image lib img src_path export_dir rule w) = Ok p ->
  let jpeg := String.eqb (ExportRule.out_format rule) "JPEG" in
  p = ExportRule.text rule +:+ fst (splitext (basename src_path)) +:+ "." +:+
      (if jpeg then "jpg" else "png")
  /\ (forall other_dir : string, out_path src_path other_dir rule = p)
  /\ abspath w p = normpath p
  /\ exists final_img : Image.t,
       apply_resize lib img rule = Ok final_img
       /\ fs (snd (export_image lib img src_path export_dir rule w)) !! normpath p
          = Some (File (Picture (if jpeg then "JPEG" else "PNG")
                          (if jpeg && mem_string (Image.mode final_img) ["RGBA"; "LA"]
                           then Image.convert final_img "RGB" else final_img)
                          (if jpeg
                           then [("quality", ExportRule.jpeg_quality rule); ("subsampling", 0)]
                           else []))).
Proof.
  intros Hmode Hstart Hp jpeg.
  apply export_image_returns_out_path in Hp as [Hp (final_img & Hrs & Hfile)].
  assert (Hshape : forall other_dir : string,
            out_path src_path other_dir rule
            = ExportRule.text rule +:+ fst (splitext (basename src_path)) +:+ "." +:+
              (if jpeg then "jpg" else "png")).
  { intros other_dir. destruct (out_path_shape src_path other_dir rule) as [_ Hout].
    rewrite (Hout Hmode Hstart). unfold claimed_name. rewrite Hmode.
    cbn [String.eqb Ascii.eqb Bool.eqb]. now rewrite append_assoc. }
  assert (Habs : abspath w p = normpath p).
  { unfold abspath. rewrite Hp, (Hshape export_dir).
    destruct (ExportRule.text rule) as [| c r]; [discriminate |].
    rewrite !append_cons. cbn [startswith_sep] in *. now rewrite Hstart. }
  split; [rewrite Hp; apply Hshape |].
  split; [intros other_dir; rewrite Hp, !Hshape; reflexivity |].
  split; [exact Habs |].
  exists final_img. split; [exact Hrs |]. rewrite <- Habs. exact Hfile.
Qed.

(** A prefix that names the source's own folder: the export of a
    picture made from [/photos/b.jpg] to the folder [/out] as JPEG lands
    on [/photos/b.jpg], and the photo that was there is replaced. *)
Lemma export_prefix_leaves_export_dir_witness :
  let rule := {| ExportRule.mode := "prefix"; ExportRule.text := "/photos/";
                 ExportRule.out_format := "JPEG"; ExportRule.jpeg_quality := 90;
                 ExportRule.resize_mode := "none"; ExportRule.resize_value := 100 |} in
  let w' := snd (export_image sample_lib transparent_white "/photos/b.jpg" "/out" rule
                   studio) in
  fs studio !! "/photos/b.jpg" = Some (File (Picture "JPEG" opaque_rgb []))
  /\ fs w' !! "/photos/b.jpg"
     = Some (File (Picture "JPEG" (Image.convert transparent_white "RGB")
                     [("quality", 90); ("subsampling", 0)])).
Proof.
  intros rule w'. split; [reflexivity |].
  destruct (export_prefix_leaves_export_dir sample_lib transparent_white "/photos/b.jpg"
              "/out" rule studio "/photos/b.jpg" eq_refl eq_refl
              ltac:(vm_compute; reflexivity))
    as (_ & _ & _ & final_img & Hrs & Hfile).
  injection Hrs as <-. exact Hfile.
Defined.

(** ** The font of the text watermark *)

(** Which font the text pass uses: the configured file when it is set
    and exists, else [font.ttf] of the working directory when that
    exists, else the system font; and whenever the file chosen does not
    load as a font, the built-in font, with no further file tried. *)
Lemma load_font_choice (cfg : TextStyle.t) (w : World) :
  let chosen :=
    match TextStyle.font_path cfg with
    | Some p =>
        if negb (String.eqb p "") && path_exists w p then p
        else if path_exists w (path_join (cwd w) "font.ttf")
             then path_join (cwd w) "font.ttf"
             else "/System/Library/Fonts/Supplemental/Arial Unicode.ttf"
    | None =>
        if path_exists w (path_join (cwd w) "font.ttf")
        then path_join (cwd w) "font.ttf"
        else "/System/Library/Fonts/Supplemental/Arial Unicode.ttf"
    end in
  load_font cfg w
  = (Ok match lookup_node w chosen with
        | Some (File FontFile) =>
            {| font_file := Some (abspath w chosen); font_px := TextStyle.font_size cfg |}
        | _ => load_default
        end, w).
Proof.
  unfold load_font, truetype. run_io.
  destruct (TextStyle.font_path cfg) as [p |]; cbv [default from_option id].
  - destruct (negb (String.eqb p "") && path_exists w p).
    + destruct (lookup_node w p) as [[| []] |]; reflexivity.
    + destruct (path_exists w (path_join (cwd w) "font.ttf")).
      * destruct (lookup_node w (path_join (cwd w) "font.ttf")) as [[| []] |]; reflexivity.
      * destruct (lookup_node w _) as [[| []] |]; reflexivity.
  - destruct (path_exists w (path_join (cwd w) "font.ttf")).
    + destruct (lookup_node w (path_join (cwd w) "font.ttf")) as [[| []] |]; reflexivity.
    + destruct (lookup_node w _) as [[| []] |]; reflexivity.
Qed.
